(** * Geometry and graph engine of the skill sphere

    A shallow embedding of [utils/math.ts] (spherical layout) and of the
    graph builder, surface tessellator and label scaler found in
    [components/SkillSphere.tsx].

    Numbers.  The program computes with JavaScript numbers.  They are
    embedded as the real numbers [R] of the Standard Library: [Math.PI]
    is [PI], [Math.sqrt] is [sqrt], [Math.acos] is [acos], [Math.abs] is
    [Rabs], and a comparison is decided with [Rlt_dec] or [Rle_dec].
    Rounding, infinities and NaN are outside of this model; where the
    program can divide by zero, that case is written out.

    Strings.  Node ids, colours and set keys are [string]s; the template
    literal [`${a}-${b}`] is [a +:+ "-" +:+ b].  The default [sort] of
    an array of ids orders them with [String.leb], which is the order of
    JavaScript on ids made of ASCII characters.

    Faults.  A property read on [undefined] throws; the functions of the
    graph builder, which index arrays and search them, return an
    [option], and [None] is the thrown fault. *)

From Stdlib Require Import Reals Lra Lia Ascii String.
From stdpp Require Import base option list strings sets gmap.

Local Open Scope R_scope.

#[local] Set Warnings "-clear-no-such-hyp".

(** ** Comparisons of numbers as booleans *)

#[global] Instance R_eq_dec : EqDecision R := Req_dec_T.

Definition Rltb (x y : R) : bool := if Rlt_dec x y then true else false.
Definition Rleb (x y : R) : bool := if Rle_dec x y then true else false.

(** ** [utils/math.ts] *)

Module MathUtils.

Record SpherePoint : Type := { phi : R; theta : R }.

(** The body of the Fibonacci loop, for index [i] of [count]. *)
Definition fibonacciPoint (count i : nat) : SpherePoint :=
  let goldenRatio := (1 + sqrt 5) / 2 in
  let theta := (2 * PI * INR i) / goldenRatio in
  let phi := acos (1 - (2 * (INR i + 0.5)) / INR count) in
  {| phi := phi; theta := theta |}.

Definition distributePointsOnSphere (count : nat) : list SpherePoint :=
  match count with
  | 1%nat => [ {| phi := 0; theta := 0 |} ]
  | 2%nat => [ {| phi := 0; theta := 0 |};
               {| phi := PI; theta := 0 |} ]
  | 3%nat => [ {| phi := PI / 2; theta := 0 |};
               {| phi := PI / 2; theta := (2 * PI) / 3 |};
               {| phi := PI / 2; theta := (4 * PI) / 3 |} ]
  | 4%nat => let tetrahedralAngle := acos (-1 / 3) in
             [ {| phi := 0; theta := 0 |};
               {| phi := tetrahedralAngle; theta := 0 |};
               {| phi := tetrahedralAngle; theta := (2 * PI) / 3 |};
               {| phi := tetrahedralAngle; theta := (4 * PI) / 3 |} ]
  | 5%nat => [ {| phi := 0; theta := 0 |};
               {| phi := PI; theta := 0 |};
               {| phi := PI / 2; theta := 0 |};
               {| phi := PI / 2; theta := (2 * PI) / 3 |};
               {| phi := PI / 2; theta := (4 * PI) / 3 |} ]
  | 6%nat => [ {| phi := 0; theta := 0 |};
               {| phi := PI; theta := 0 |};
               {| phi := PI / 2; theta := 0 |};
               {| phi := PI / 2; theta := PI / 2 |};
               {| phi := PI / 2; theta := PI |};
               {| phi := PI / 2; theta := (3 * PI) / 2 |} ]
  | _ => fibonacciPoint count <$> seq 0 count
  end.

End MathUtils.

(** ** The label scaler: the frame callback of [SkillNode] *)

Module LabelScaler.

Definition HTML_DISTANCE_FACTOR : R := 15.

(** The value handed to [setCurrentFontSize] for a camera at [distance]
    from the tip; [distance] is a value of [distanceTo], never negative.

    At the distance [0] the quotient [HTML_DISTANCE_FACTOR / distance]
    is [Infinity], which is no real number, and this case is written
    out: [labelSize * Infinity] is [Infinity], [NaN] or [-Infinity] as
    [labelSize] is positive, zero or negative; only [-Infinity] is
    below [minLabelSize], and then [minLabelSize / Infinity] is [0]. *)
Definition currentFontSize (distance labelSize minLabelSize : R) : R :=
  if decide (distance = 0) then
    if Rltb labelSize 0 then Rmin 1500 0 else labelSize
  else
    let scaleFactor := HTML_DISTANCE_FACTOR / distance in
    let visualSizeOnScreen := labelSize * scaleFactor in
    if Rltb visualSizeOnScreen minLabelSize
    then Rmin 1500 (minLabelSize / scaleFactor)
    else labelSize.

End LabelScaler.

(** ** The parts of [three] the program calls

    [Vector3] with the methods used by the graph builder and the
    tessellator.  [normalize] is [divideScalar (length () || 1)]: a vector
    of length [0] is divided by [1] and stays the zero vector. *)

Module Three.

Record Vector3 : Type := { x : R; y : R; z : R }.

Definition addVectors (a b : Vector3) : Vector3 :=
  {| x := x a + x b; y := y a + y b; z := z a + z b |}.

Definition subVectors (a b : Vector3) : Vector3 :=
  {| x := x a - x b; y := y a - y b; z := z a - z b |}.

Definition multiplyScalar (v : Vector3) (s : R) : Vector3 :=
  {| x := x v * s; y := y v * s; z := z v * s |}.

Definition divideScalar (v : Vector3) (s : R) : Vector3 :=
  multiplyScalar v (1 / s).

Definition crossVectors (a b : Vector3) : Vector3 :=
  {| x := y a * z b - z a * y b;
     y := z a * x b - x a * z b;
     z := x a * y b - y a * x b |}.

Definition dot (a b : Vector3) : R :=
  x a * x b + y a * y b + z a * z b.

Definition lengthSq (v : Vector3) : R :=
  x v * x v + y v * y v + z v * z v.

Definition length (v : Vector3) : R := sqrt (lengthSq v).

Definition normalize (v : Vector3) : Vector3 :=
  divideScalar v (if decide (length v = 0) then 1 else length v).

Definition distanceTo (a b : Vector3) : R := length (subVectors a b).

Definition addScaledVector (p v : Vector3) (s : R) : Vector3 :=
  {| x := x p + x v * s; y := y p + y v * s; z := z p + z v * s |}.

Definition zero : Vector3 := {| x := 0; y := 0; z := 0 |}.

(** [THREE.Color]: linear red, green and blue components. *)
Record Color : Type := { r : R; g : R; b : R }.

End Three.

(** [Math.sign] *)
Definition Math_sign (d : R) : R :=
  if Rltb 0 d then 1 else if Rltb d 0 then -1 else 0.

(** ** Loops that may fault

    A [for] or [forEach] whose body can fault (a property read on
    [undefined]) is a fold in the [option] monad: [None] is the thrown
    [TypeError]. *)

Fixpoint forEachM {A S : Type} (body : A -> S -> option S) (l : list A) (s : S)
  : option S :=
  match l with
  | [] => Some s
  | a :: l' => s' ← body a s; forEachM body l' s'
  end.

(** [for (let i = lo; i < hi; i++)] visits [range lo hi]. *)
Definition range (lo hi : nat) : list nat := seq lo (hi - lo).

(** [Array.prototype.sort] with a comparator: a stable sort, here by
    insertion; [leb a b] says that [a] may stay in front of [b]. *)
Fixpoint insertSorted {A : Type} (leb : A -> A -> bool) (a : A) (l : list A)
  : list A :=
  match l with
  | [] => [a]
  | b :: l' => if leb a b then a :: b :: l' else b :: insertSorted leb a l'
  end.

Fixpoint sortBy {A : Type} (leb : A -> A -> bool) (l : list A) : list A :=
  match l with
  | [] => []
  | a :: l' => insertSorted leb a (sortBy leb l')
  end.

(** [Array.prototype.sort] without comparator on strings. *)
Definition sortStrings (l : list string) : list string :=
  sortBy String.leb l.

(** [l.filter((_, j) => keep j)] *)
Definition filterIndex {A : Type} (keep : nat -> bool) (l : list A) : list A :=
  (imap (fun j a => (j, a)) l) ≫= (fun ja => if keep ja.1 then [ja.2] else []).

(** ** [components/SkillSphere.tsx]: the graph builder *)

Module SkillSphere.
Import Three.

Inductive ConnectionStyle : Type := StyleNone | Straight | CurveIn | CurveOut.
Inductive ConnectionMode : Type := Fixed | Auto.
Inductive FillColorMode : Type := Solid | Gradient | Core.

#[global] Instance ConnectionStyle_eq_dec : EqDecision ConnectionStyle.
Proof. solve_decision. Defined.
#[global] Instance ConnectionMode_eq_dec : EqDecision ConnectionMode.
Proof. solve_decision. Defined.
#[global] Instance FillColorMode_eq_dec : EqDecision FillColorMode.
Proof. solve_decision. Defined.

(** The fields of [VisualSettings] read by the engine.
    [connectionNeighbors] is a whole number. *)
Record VisualSettings : Type := {
  connectionStyle : ConnectionStyle;
  connectionMode : ConnectionMode;
  connectionNeighbors : Z;
  fillMesh : bool;
  fillColorMode : FillColorMode;
  fillSolidColor : string;
  fillOpacity : R;
  coreColor : string;
  labelSize : R;
  minLabelSize : R
}.

(** [NodeData]; its [capability] field is not read by the engine. *)
Record NodeData : Type := {
  id : string;
  pos : Vector3;
  color : string;
  surfacePos : Vector3
}.

Record EdgeData : Type := {
  e_start : Vector3;
  e_end : Vector3;
  e_mid : Vector3;
  e_color : string;
  nodeAId : string;
  nodeBId : string
}.

Record FaceData : Type := {
  nodeIds : string * string * string;
  positions : Vector3 * Vector3 * Vector3;
  controlPoints : Vector3 * Vector3 * Vector3;
  colors : string * string * string
}.

Record GraphData : Type := { edges : list EdgeData; faces : list FaceData }.

Definition emptyGraph : GraphData := {| edges := []; faces := [] |}.

Definition getEdgeControlPoint (p1 p2 : Vector3) (style : ConnectionStyle)
  : Vector3 :=
  let mid := multiplyScalar (addVectors p1 p2) 0.5 in
  match style with
  | CurveIn => multiplyScalar mid 0.7
  | CurveOut => multiplyScalar mid 1.3
  | _ => mid
  end.

(** The template literal [`${a}-${b}`]. *)
Definition edgeKeyOf (a b : string) : string := a +:+ "-" +:+ b.

(** *** Exact hull *)

(** The three accumulators of [computeConvexHull]. *)
Record HullState : Type := {
  hs_faces : list FaceData;
  hs_edgeSet : gset string;
  hs_edges : list EdgeData
}.

(** One round of the loop over [m]; the state is [(side, isFace)].  After
    [break] ([isFace] false) the remaining rounds do nothing. *)
Definition sideStep (nodes : list NodeData) (i j k : nat)
    (p1 normal : Vector3) (m : nat) (st : R * bool) : option (R * bool) :=
  let '(side, isFace) := st in
  if negb isFace then Some st
  else if bool_decide (m = i) || bool_decide (m = j) || bool_decide (m = k)
  then Some st
  else
    nm ← nodes !! m;
    let vm := subVectors (pos nm) p1 in
    let d := dot normal vm in
    if Rltb 1e-4 (Rabs d) then
      let currentSide := Math_sign d in
      if bool_decide (side = 0) then Some (currentSide, isFace)
      else if bool_decide (side ≠ currentSide) then Some (side, false)
      else Some st
    else Some st.

(** The body of [forEach] over the pairs [[i, j], [j, k], [k, i]];
    [pair.sort((x, y) => x - y)] puts the smaller index first. *)
Definition hullAddEdge (nodes : list NodeData) (style : ConnectionStyle)
    (pair : nat * nat) (s : HullState) : option HullState :=
  let a := Nat.min pair.1 pair.2 in
  let b := Nat.max pair.1 pair.2 in
  na ← nodes !! a;
  nb ← nodes !! b;
  let edgeKey := edgeKeyOf (id na) (id nb) in
  if bool_decide (edgeKey ∈ hs_edgeSet s) then Some s
  else Some {| hs_faces := hs_faces s;
               hs_edgeSet := hs_edgeSet s ∪ {[ edgeKey ]};
               hs_edges := hs_edges s ++
                 [ {| e_start := pos na; e_end := pos nb;
                      e_mid := getEdgeControlPoint (pos na) (pos nb) style;
                      e_color := color na;
                      nodeAId := id na; nodeBId := id nb |} ] |}.

Definition hullFace (ni nj nk : NodeData) (style : ConnectionStyle) : FaceData :=
  let p1 := pos ni in
  let p2 := pos nj in
  let p3 := pos nk in
  {| nodeIds := (id ni, id nj, id nk);
     positions := (p1, p2, p3);
     controlPoints := (getEdgeControlPoint p1 p2 style,
                       getEdgeControlPoint p2 p3 style,
                       getEdgeControlPoint p3 p1 style);
     colors := (color ni, color nj, color nk) |}.

(** The body of the innermost loop, for the triple [i < j < k]. *)
Definition hullTriple (nodes : list NodeData) (style : ConnectionStyle)
    (i j k : nat) (s : HullState) : option HullState :=
  let n := List.length nodes in
  ni ← nodes !! i;
  nj ← nodes !! j;
  nk ← nodes !! k;
  let p1 := pos ni in
  let p2 := pos nj in
  let p3 := pos nk in
  let v1 := subVectors p2 p1 in
  let v2 := subVectors p3 p1 in
  let normal := normalize (crossVectors v1 v2) in
  '(_, isFace) ← forEachM (sideStep nodes i j k p1 normal) (range 0 n) (0, true);
  if isFace : bool then
    forEachM (hullAddEdge nodes style) [(i, j); (j, k); (k, i)]
      {| hs_faces := hs_faces s ++ [hullFace ni nj nk style];
         hs_edgeSet := hs_edgeSet s;
         hs_edges := hs_edges s |}
  else Some s.

Definition computeConvexHull (nodes : list NodeData) (style : ConnectionStyle)
  : option GraphData :=
  let n := List.length nodes in
  if (n <? 4)%nat then Some emptyGraph
  else
    s ← forEachM (fun i =>
           forEachM (fun j =>
             forEachM (fun k => hullTriple nodes style i j k)
               (range (j + 1) n))
             (range (i + 1) n))
         (range 0 n)
         {| hs_faces := []; hs_edgeSet := ∅; hs_edges := [] |};
    Some {| edges := hs_edges s; faces := hs_faces s |}.

(** *** k nearest neighbours *)

Record KnnState : Type := {
  ks_edges : list EdgeData;
  ks_uniqueEdgeKeys : gset string;
  ks_symmetricAdj : gmap string (gset string)
}.

(** [if (!adj.has(a)) adj.set(a, new Set()); adj.get(a)!.add(b)] *)
Definition adjAdd (a b : string) (adj : gmap string (gset string))
  : option (gmap string (gset string)) :=
  let adj1 := if bool_decide (is_Some (adj !! a)) then adj else <[a := ∅]> adj in
  sa ← adj1 !! a;
  Some (<[a := sa ∪ {[ b ]}]> adj1).

(** The body of [neighbors.forEach]; a neighbour [n] is the pair
    [(n.id, n.dist)]. *)
Definition knnNeighbor (nodes : list NodeData) (style : ConnectionStyle)
    (nodeA : NodeData) (n : string * R) (s : KnnState) : option KnnState :=
  nodeB ← List.find (fun x => bool_decide (id x = n.1)) nodes;
  adj1 ← adjAdd (id nodeA) (id nodeB) (ks_symmetricAdj s);
  adj2 ← adjAdd (id nodeB) (id nodeA) adj1;
  let ids := sortStrings [id nodeA; id nodeB] in
  let id1 := ids !!! 0%nat in
  let id2 := ids !!! 1%nat in
  let edgeKey := edgeKeyOf id1 id2 in
  if bool_decide (edgeKey ∈ ks_uniqueEdgeKeys s)
  then Some {| ks_edges := ks_edges s;
               ks_uniqueEdgeKeys := ks_uniqueEdgeKeys s;
               ks_symmetricAdj := adj2 |}
  else Some {| ks_edges := ks_edges s ++
                 [ {| e_start := pos nodeA; e_end := pos nodeB;
                      e_mid := getEdgeControlPoint (pos nodeA) (pos nodeB) style;
                      e_color := color nodeA;
                      nodeAId := id1; nodeBId := id2 |} ];
               ks_uniqueEdgeKeys := ks_uniqueEdgeKeys s ∪ {[ edgeKey ]};
               ks_symmetricAdj := adj2 |}.

(** The [effectiveNeighbors] nearest other nodes of the node at index [i]. *)
Definition knnNeighbors (nodes : list NodeData) (effectiveNeighbors : Z)
    (i : nat) (nodeA : NodeData) : list (string * R) :=
  take (Z.to_nat effectiveNeighbors)
    (sortBy (fun a b => Rleb a.2 b.2)
       ((fun nodeB => (id nodeB, distanceTo (pos nodeA) (pos nodeB)))
          <$> filterIndex (fun j => bool_decide (i ≠ j)) nodes)).

Record FaceState : Type := {
  fs_faces : list FaceData;
  fs_processedFaces : gset string
}.

(** The body of the inner [nodes.forEach] of the face pass. *)
Definition knnFaceNode (nodes : list NodeData) (style : ConnectionStyle)
    (idA idB : string) (neighborsA neighborsB : gset string)
    (nodeC : NodeData) (s : FaceState) : option FaceState :=
  if bool_decide (id nodeC ≠ idA) && bool_decide (id nodeC ≠ idB) then
    if bool_decide (id nodeC ∈ neighborsA) && bool_decide (id nodeC ∈ neighborsB)
    then
      let ids := sortStrings [idA; idB; id nodeC] in
      let faceKey := String.concat "-" ids in
      if bool_decide (faceKey ∈ fs_processedFaces s) then Some s
      else
        nodeA ← List.find (fun n => bool_decide (id n = ids !!! 0%nat)) nodes;
        nodeB ← List.find (fun n => bool_decide (id n = ids !!! 1%nat)) nodes;
        nodeC_ ← List.find (fun n => bool_decide (id n = ids !!! 2%nat)) nodes;
        Some {| fs_faces := fs_faces s ++
                  [ {| nodeIds := (ids !!! 0%nat, ids !!! 1%nat, ids !!! 2%nat);
                       positions := (pos nodeA, pos nodeB, pos nodeC_);
                       controlPoints :=
                         (getEdgeControlPoint (pos nodeA) (pos nodeB) style,
                          getEdgeControlPoint (pos nodeB) (pos nodeC_) style,
                          getEdgeControlPoint (pos nodeC_) (pos nodeA) style);
                       colors := (color nodeA, color nodeB, color nodeC_) |} ];
                fs_processedFaces := fs_processedFaces s ∪ {[ faceKey ]} |}
    else Some s
  else Some s.

(** The body of [edges.forEach] of the face pass. *)
Definition knnFaceEdge (nodes : list NodeData) (style : ConnectionStyle)
    (symmetricAdj : gmap string (gset string))
    (edge : EdgeData) (s : FaceState) : option FaceState :=
  let idA := nodeAId edge in
  let idB := nodeBId edge in
  match symmetricAdj !! idA, symmetricAdj !! idB with
  | Some neighborsA, Some neighborsB =>
      forEachM (knnFaceNode nodes style idA idB neighborsA neighborsB) nodes s
  | _, _ => Some s
  end.

Definition effectiveNeighborsOf (nodes : list NodeData) (settings : VisualSettings)
  : Z :=
  Z.max 1 (Z.min (Z.of_nat (List.length nodes) - 1) (connectionNeighbors settings)).

Definition computeNearestNeighborGraph (nodes : list NodeData)
    (settings : VisualSettings) : option GraphData :=
  let style := connectionStyle settings in
  let effectiveNeighbors := effectiveNeighborsOf nodes settings in
  s ← forEachM (fun '(i, nodeA) =>
         forEachM (knnNeighbor nodes style nodeA)
           (knnNeighbors nodes effectiveNeighbors i nodeA))
       (imap (fun i nodeA => (i, nodeA)) nodes)
       {| ks_edges := []; ks_uniqueEdgeKeys := ∅; ks_symmetricAdj := ∅ |};
  fs ← forEachM (knnFaceEdge nodes style (ks_symmetricAdj s)) (ks_edges s)
         {| fs_faces := []; fs_processedFaces := ∅ |};
  Some {| edges := ks_edges s; faces := fs_faces fs |}.

(** The memoised function of [useGraphData]: the [buildGraph] operation. *)
Definition useGraphData (nodes : list NodeData) (settings : VisualSettings)
  : option GraphData :=
  if bool_decide (connectionStyle settings = StyleNone) then Some emptyGraph
  else if bool_decide (connectionMode settings = Auto)
  then computeConvexHull nodes (connectionStyle settings)
  else computeNearestNeighborGraph nodes settings.

(** *** The surface tessellator: [SkillMesh] *)

Definition getPoint (P1 P2 P3 E1 E2 E3 : Vector3) (u v w : R) : Vector3 :=
  let p := zero in
  let p := addScaledVector p P1 (u * u) in
  let p := addScaledVector p P2 (v * v) in
  let p := addScaledVector p P3 (w * w) in
  let p := addScaledVector p E1 (2 * u * v) in
  let p := addScaledVector p E2 (2 * v * w) in
  let p := addScaledVector p E3 (2 * w * u) in
  p.

Definition getColor (mode : FillColorMode) (sColor C1 C2 C3 : Color)
    (u v w : R) : Color :=
  if bool_decide (mode = Gradient)
  then {| r := r C1 * u + r C2 * v + r C3 * w;
          g := g C1 * u + g C2 * v + g C3 * w;
          b := b C1 * u + b C2 * v + b C3 * w |}
  else sColor.

(** The two number arrays filled by the tessellator. *)
Record MeshData : Type := { md_positions : list R; md_colors : list R }.

Definition xyz (p : Vector3) : list R := [x p; y p; z p].
Definition rgb (c : Color) : list R := [r c; g c; b c].

(** One triangle: [positions.push (...)] and [colors.push (...)]. *)
Definition pushTriangle (m : MeshData) (p1 p2 p3 : Vector3) (c1 c2 c3 : Color)
  : MeshData :=
  {| md_positions := md_positions m ++ xyz p1 ++ xyz p2 ++ xyz p3;
     md_colors := md_colors m ++ rgb c1 ++ rgb c2 ++ rgb c3 |}.

(** [for (let i = lo; i < hi; i++)] with a body that cannot fault. *)
Definition forRange {S : Type} (lo hi : nat) (body : nat -> S -> S) (s : S) : S :=
  foldl (fun s i => body i s) s (range lo hi).

Section Tessellator.

(** [new THREE.Color (css)]: the parser of colour strings of [three]. *)
Variable parseColor : string -> Color.

(** The body of the loop over [j], for the cell [(i, j)] of a curved face. *)
Definition meshCell (mode : FillColorMode) (sColor : Color)
    (P1 P2 P3 E1 E2 E3 : Vector3) (C1 C2 C3 : Color)
    (segments i j : nat) (m : MeshData) : MeshData :=
  let gp := getPoint P1 P2 P3 E1 E2 E3 in
  let gc := getColor mode sColor C1 C2 C3 in
  let seg := INR segments in
  let k := seg - INR i - INR j in
  let u1 := INR i / seg in let v1 := INR j / seg in let w1 := k / seg in
  let p1 := gp u1 v1 w1 in let c1 := gc u1 v1 w1 in
  let u2 := (INR i + 1) / seg in let v2 := INR j / seg in
  let w2 := (k - 1) / seg in
  let p2 := gp u2 v2 w2 in let c2 := gc u2 v2 w2 in
  let u3 := INR i / seg in let v3 := (INR j + 1) / seg in
  let w3 := (k - 1) / seg in
  let p3 := gp u3 v3 w3 in let c3 := gc u3 v3 w3 in
  let m := pushTriangle m p1 p2 p3 c1 c2 c3 in
  if (i + j + 1 <? segments)%nat then
    let u4 := (INR i + 1) / seg in let v4 := (INR j + 1) / seg in
    let w4 := (k - 2) / seg in
    let p4 := gp u4 v4 w4 in let c4 := gc u4 v4 w4 in
    pushTriangle m p2 p4 p3 c2 c4 c3
  else m.

(** The body of [faces.forEach]. *)
Definition meshFace (settings : VisualSettings) (sColor : Color)
    (face : FaceData) (m : MeshData) : MeshData :=
  let isStraight := bool_decide (connectionStyle settings = Straight) in
  let segments := if isStraight then 1%nat else 12%nat in
  let '(P1, P2, P3) := positions face in
  let '(E1, E2, E3) := controlPoints face in
  let '(c1, c2, c3) := colors face in
  let C1 := parseColor c1 in
  let C2 := parseColor c2 in
  let C3 := parseColor c3 in
  if isStraight then
    if bool_decide (fillColorMode settings = Gradient)
    then pushTriangle m P1 P2 P3 C1 C2 C3
    else pushTriangle m P1 P2 P3 sColor sColor sColor
  else
    forRange 0 segments (fun i =>
      forRange 0 (segments - i) (fun j =>
        meshCell (fillColorMode settings) sColor P1 P2 P3 E1 E2 E3 C1 C2 C3
          segments i j)) m.

(** The memoised [meshData]; [None] is [null]. *)
Definition meshData (faces : list FaceData) (settings : VisualSettings)
  : option MeshData :=
  if negb (fillMesh settings)
     || bool_decide (List.length faces = 0%nat)
     || bool_decide (connectionStyle settings = StyleNone)
  then None
  else
    let sColor := parseColor
      (if bool_decide (fillColorMode settings = Core)
       then coreColor settings else fillSolidColor settings) in
    Some (foldl (fun m face => meshFace settings sColor face m)
            {| md_positions := []; md_colors := [] |} faces).

(** The element returned by [SkillMesh]: the props of [mesh], of its two
    buffer attributes and of its material that depend on the input. *)
Record MeshElement : Type := {
  renderOrder : Z;
  geometryKey : string;
  positionCount : R;
  positionArray : list R;
  colorCount : R;
  colorArray : list R;
  transparent : bool;
  opacity : R;
  depthWrite : bool
}.

Definition SkillMesh (faces : list FaceData) (settings : VisualSettings)
    (uniqueKey : string) : option MeshElement :=
  match meshData faces settings with
  | None => None
  | Some md =>
      let isOpaque := Rleb 0.99 (fillOpacity settings) in
      Some {| renderOrder := if isOpaque then 0%Z else 5%Z;
              geometryKey := uniqueKey;
              positionCount := INR (List.length (md_positions md)) / 3;
              positionArray := md_positions md;
              colorCount := INR (List.length (md_colors md)) / 3;
              colorArray := md_colors md;
              transparent := negb isOpaque;
              opacity := fillOpacity settings;
              depthWrite := isOpaque |}
  end.

End Tessellator.

End SkillSphere.

(** * The scene around the graph, and the state of the application

    The remaining functions of [utils/math.ts] and of
    [components/SkillSphere.tsx] that compute positions, the handlers of
    [App.tsx] that change the capabilities and the tasks, and the form of
    [components/TaskList.tsx].

    Records.  An object used as a record of numbers by id
    ([Record<string, number>]) is a finite map [gmap string R]; keys
    inherited from [Object.prototype] are outside of this model.  An
    optional field is an [option].

    Handlers.  A handler of a component is a function of the state it
    closes over: each event is handled after the render that follows
    the previous one.  What a handler reads from the outside (the clock,
    [Math.random]) is an argument.

    Numbers in strings.  A whole number written into a template literal
    is its decimal form, [pretty] of the library. *)

From stdpp Require Import pretty.

Local Open Scope R_scope.

(** ** [utils/math.ts]: spherical to Cartesian coordinates *)

Module Spherical.
Import Three.

Definition getVectorFromSpherical (radius phi theta : R) : Vector3 :=
  let x := radius * sin phi * cos theta in
  let y := radius * cos phi in
  let z := radius * sin phi * sin theta in
  {| x := x; y := y; z := z |}.

End Spherical.

(** ** [types.ts] *)

Module Types.

Record Capability : Type := {
  c_id : string;
  c_name : string;
  c_color : string;
  c_score : R;
  c_description : option string;
  c_criteria : option string;
  c_phi : R;
  c_theta : R
}.

(** [{ ...cap, score: s }] *)
Definition withScore (cap : Capability) (s : R) : Capability :=
  {| c_id := c_id cap; c_name := c_name cap; c_color := c_color cap;
     c_score := s;
     c_description := c_description cap; c_criteria := c_criteria cap;
     c_phi := c_phi cap; c_theta := c_theta cap |}.

(** [{ ...cap, phi: p, theta: q }] *)
Definition withAngles (cap : Capability) (p q : R) : Capability :=
  {| c_id := c_id cap; c_name := c_name cap; c_color := c_color cap;
     c_score := c_score cap;
     c_description := c_description cap; c_criteria := c_criteria cap;
     c_phi := p; c_theta := q |}.

Inductive TaskStatus : Type := TODO | COMPLETED | CANCELED.

#[global] Instance TaskStatus_eq_dec : EqDecision TaskStatus.
Proof. solve_decision. Defined.

(** [impact] is a number by its type; the handlers read it with a
    fallback ([task.impact ?? 1]), so that it is kept optional here. *)
Record Task : Type := {
  t_id : string;
  t_title : string;
  t_capabilityIds : list string;
  t_impact : option R;
  t_impactMap : option (gmap string R);
  t_status : TaskStatus;
  t_createdAt : string;
  t_completedAt : option string;
  t_canceledAt : option string
}.

(** [{ ...t, status: COMPLETED, completedAt: now }] *)
Definition completed (task : Task) (now : string) : Task :=
  {| t_id := t_id task; t_title := t_title task;
     t_capabilityIds := t_capabilityIds task;
     t_impact := t_impact task; t_impactMap := t_impactMap task;
     t_status := COMPLETED; t_createdAt := t_createdAt task;
     t_completedAt := Some now; t_canceledAt := t_canceledAt task |}.

(** [{ ...t, status: CANCELED, canceledAt: now }] *)
Definition canceled (task : Task) (now : string) : Task :=
  {| t_id := t_id task; t_title := t_title task;
     t_capabilityIds := t_capabilityIds task;
     t_impact := t_impact task; t_impactMap := t_impactMap task;
     t_status := CANCELED; t_createdAt := t_createdAt task;
     t_completedAt := t_completedAt task; t_canceledAt := Some now |}.

(** [task.impactMap?.[capId] ?? task.impact ?? 1] *)
Definition impactFor (task : Task) (capId : string) : R :=
  default (default 1 (t_impact task)) (t_impactMap task ≫= (.!! capId)).

End Types.

(** ** [components/SkillSphere.tsx]: bars, labels and nodes *)

(** The two values [SkillBar] computes from its ends. *)
Module SkillBar.
Import Three.

Definition direction (start end_ : Vector3) : Vector3 := subVectors end_ start.

(** [length]: the length of the bar. *)
Definition barLength (start end_ : Vector3) : R :=
  Three.length (direction start end_).

Definition position (start end_ : Vector3) : Vector3 :=
  multiplyScalar (addVectors start end_) 0.5.

End SkillBar.

Module SkillNode.
Import Three.

Definition LABEL_TIP_OFFSET : R := 0.4.

(** The memoised [labelPos]; [v.add (w)] is [addVectors v w]. *)
Definition labelPos (tipPosition : Vector3) : Vector3 :=
  let dir := normalize tipPosition in
  addVectors tipPosition (multiplyScalar dir LABEL_TIP_OFFSET).

End SkillNode.

Module SceneContent.
Import Three Spherical Types.

(** The fields of [VisualSettings] in the dependency list of the
    memoised [nodes]. *)
Record BarSettings : Type := {
  coreRadius : R;
  scoreScale : R;
  barBaseLength : R
}.

(** The body of [capabilities.map]; the [capability] field of the node,
    the argument itself, is not carried. *)
Definition nodeOf (settings : BarSettings) (cap : Capability)
  : SkillSphere.NodeData :=
  let tipDist := coreRadius settings + barBaseLength settings
                 + (c_score cap * scoreScale settings) in
  let tipVec := getVectorFromSpherical tipDist (c_phi cap)
                  (c_theta cap) in
  let surfVec := getVectorFromSpherical (coreRadius settings)
                   (c_phi cap) (c_theta cap) in
  {| SkillSphere.id := c_id cap;
     SkillSphere.color := c_color cap;
     SkillSphere.pos := tipVec;
     SkillSphere.surfacePos := surfVec |}.

Definition nodes (capabilities : list Capability) (settings : BarSettings)
  : list SkillSphere.NodeData :=
  nodeOf settings <$> capabilities.

End SceneContent.

(** ** [App.tsx]: the handlers of the capabilities and of the tasks *)

Module App.
Import MathUtils Types.

(** The two pieces of state the handlers below read and set. *)
Record AppState : Type := {
  capabilities : list Capability;
  tasks : list Task
}.

(** [updateCapabilitiesLayout], up to [setCapabilities]: [None] is the
    fault of reading [phi] on [points[index]] when it is [undefined]. *)
Definition updateCapabilitiesLayout (caps : list Capability)
  : option (list Capability) :=
  let points := distributePointsOnSphere (List.length caps) in
  mapM (fun ic : nat * Capability =>
          p ← points !! ic.1;
          Some (withAngles ic.2 (phi p) (theta p)))
       (imap (fun index cap => (index, cap)) caps).

(** [handleAddTask]; [newId] is the id drawn from [Math.random] and [now]
    the reading of the clock.  The parameter [impact] defaults to [1]. *)
Definition handleAddTask (newId now : string) (title : string)
    (capIds : list string) (impact : option R)
    (impactMap : option (gmap string R)) (st : AppState) : AppState :=
  let newTask :=
    {| t_id := newId; t_title := title; t_capabilityIds := capIds;
       t_impact := Some (default 1 impact); t_impactMap := impactMap;
       t_status := TODO; t_createdAt := now;
       t_completedAt := None; t_canceledAt := None |} in
  {| capabilities := capabilities st; tasks := newTask :: tasks st |}.

(** [handleCompleteTask]; the clock is read once for each task of the
    id, [clock i] being its reading for the task at index [i]. *)
Definition handleCompleteTask (clock : nat -> string) (taskId : string)
    (st : AppState) : AppState :=
  match List.find (fun t => bool_decide (t_id t = taskId)) (tasks st) with
  | None => st
  | Some task =>
      if bool_decide (t_status task ≠ TODO) then st
      else
        let newTasks :=
          imap (fun i t => if bool_decide (t_id t = taskId)
                           then completed t (clock i) else t)
               (tasks st) in
        let newCaps :=
          (fun cap =>
             if bool_decide (c_id cap ∈ t_capabilityIds task)
             then
               let value := impactFor task (c_id cap) in
               withScore cap (c_score cap + value)
             else cap) <$> capabilities st in
        {| capabilities := newCaps; tasks := newTasks |}
  end.

Definition handleCancelTask (clock : nat -> string) (taskId : string)
    (st : AppState) : AppState :=
  {| capabilities := capabilities st;
     tasks := imap (fun i t => if bool_decide (t_id t = taskId)
                               then canceled t (clock i) else t)
                   (tasks st) |}.

Definition handleDeleteTask (taskId : string) (st : AppState) : AppState :=
  {| capabilities := capabilities st;
     tasks := filter (fun t => t_id t ≠ taskId) (tasks st) |}.

(** [handleAddCapability]; [newId] is the id drawn from [Math.random]. *)
Definition handleAddCapability (newId : string)
    (name color description criteria : string) (st : AppState)
  : option AppState :=
  let newCap :=
    {| c_id := newId; c_name := name;
       c_color := color;
       c_description := Some description;
       c_criteria := Some criteria;
       c_score := 0; c_phi := 0; c_theta := 0 |} in
  let newCapsList := capabilities st ++ [newCap] in
  updated ← updateCapabilitiesLayout newCapsList;
  Some {| capabilities := updated; tasks := tasks st |}.

Definition handleRemoveCapability (id : string) (st : AppState)
  : option AppState :=
  let newCapsList := filter (fun c => c_id c ≠ id) (capabilities st) in
  updated ← updateCapabilitiesLayout newCapsList;
  Some {| capabilities := updated; tasks := tasks st |}.

(** *** [hexToRgb]

    The pattern [/^#?([a-f\d]{2})([a-f\d]{2})([a-f\d]{2})$/i] matches a
    string made of an optional ['#'] and exactly six hexadecimal digits
    of either case; [parseInt (_, 16)] reads each group of two. *)

(** The value of a character of the class [[a-f\d]] under the flag [i]. *)
Definition hexDigit (c : ascii) : option N :=
  let n := N_of_ascii c in
  if ((48 <=? n) && (n <=? 57))%N then Some (n - 48)%N
  else if ((97 <=? n) && (n <=? 102))%N then Some (n - 87)%N
  else if ((65 <=? n) && (n <=? 70))%N then Some (n - 55)%N
  else None.

(** The three groups of the match, read in base 16; [None] when [exec]
    returns [null]. *)
Definition hexGroups (hex : string) : option (N * N * N) :=
  let body := match hex with
              | String "#" rest => rest
              | _ => hex
              end in
  match body with
  | String c1 (String c2 (String c3 (String c4 (String c5 (String c6
      EmptyString))))) =>
      d1 ← hexDigit c1; d2 ← hexDigit c2;
      d3 ← hexDigit c3; d4 ← hexDigit c4;
      d5 ← hexDigit c5; d6 ← hexDigit c6;
      Some (16 * d1 + d2, 16 * d3 + d4, 16 * d5 + d6)%N
  | _ => None
  end.

Definition hexToRgb (hex : string) : string :=
  match hexGroups hex with
  | Some (r, g, b) => pretty r +:+ ", " +:+ pretty g +:+ ", " +:+ pretty b
  | None => "0, 0, 0"
  end.

End App.

(** ** [components/TaskList.tsx]: the form of a new task *)

Module TaskList.
Import Types.

(** The state of the component. *)
Record FormState : Type := {
  newTaskTitle : string;
  selectedCapIds : list string;
  impact : R;
  impactMap : gmap string R;
  isAdding : bool;
  isAdvancedImpact : bool
}.

(** The initial values of the six [useState]. *)
Definition initialForm : FormState :=
  {| newTaskTitle := ""; selectedCapIds := []; impact := 1; impactMap := ∅;
     isAdding := false; isAdvancedImpact := false |}.

Definition setSelection (st : FormState) (sel : list string)
    (m : gmap string R) : FormState :=
  {| newTaskTitle := newTaskTitle st; selectedCapIds := sel;
     impact := impact st; impactMap := m;
     isAdding := isAdding st; isAdvancedImpact := isAdvancedImpact st |}.

Definition setImpact (st : FormState) (v : R) : FormState :=
  {| newTaskTitle := newTaskTitle st; selectedCapIds := selectedCapIds st;
     impact := v; impactMap := impactMap st;
     isAdding := isAdding st; isAdvancedImpact := isAdvancedImpact st |}.

Definition setNewTaskTitle (st : FormState) (s : string) : FormState :=
  {| newTaskTitle := s; selectedCapIds := selectedCapIds st;
     impact := impact st; impactMap := impactMap st;
     isAdding := isAdding st; isAdvancedImpact := isAdvancedImpact st |}.

Definition setIsAdding (st : FormState) (b : bool) : FormState :=
  {| newTaskTitle := newTaskTitle st; selectedCapIds := selectedCapIds st;
     impact := impact st; impactMap := impactMap st;
     isAdding := b; isAdvancedImpact := isAdvancedImpact st |}.

Definition setIsAdvancedImpact (st : FormState) (b : bool) : FormState :=
  {| newTaskTitle := newTaskTitle st; selectedCapIds := selectedCapIds st;
     impact := impact st; impactMap := impactMap st;
     isAdding := isAdding st; isAdvancedImpact := b |}.

Definition toggleCapSelection (id : string) (st : FormState) : FormState :=
  let prev := selectedCapIds st in
  let exists_ := bool_decide (id ∈ prev) in
  if exists_
  then setSelection st (filter (fun c => c ≠ id) prev) (delete id (impactMap st))
  else setSelection st (prev ++ [id]) (<[id := 1]> (impactMap st)).

Definition updateIndividualImpact (id : string) (value : R) (st : FormState)
  : FormState :=
  let newVal := Rmin 99 (Rmax 1 value) in
  setSelection st (selectedCapIds st) (<[id := newVal]> (impactMap st)).

(** The arguments of a call of [onAddTask]. *)
Record Submission : Type := {
  sub_title : string;
  sub_capIds : list string;
  sub_impact : R;
  sub_impactMap : option (gmap string R)
}.

(** [parseInt (text) || 1], where [parsed] is the value of [parseInt]:
    a whole number, or [None] for [NaN]. *)
Definition parseIntOr1 (parsed : option Z) : R :=
  match parsed with
  | Some n => if bool_decide (n = 0%Z) then 1 else IZR n
  | None => 1
  end.

Section Form.

(** [String.prototype.trim] *)
Variable trim : string -> string.

(** The [capabilities] the component is rendered with. *)
Variable capabilities : list Capability.

(** [handleSubmit]: the call of [onAddTask] it makes, if any, and the
    state it leaves. *)
Definition handleSubmit (st : FormState) : option Submission * FormState :=
  if bool_decide (trim (newTaskTitle st) = "")
     || bool_decide (List.length (selectedCapIds st) = 0%nat)
  then (None, st)
  else
    let finalMap :=
      if isAdvancedImpact st
      then Some (foldl (fun m id => <[id := default 1 (impactMap st !! id)]> m)
                   ∅ (selectedCapIds st))
      else None in
    (Some {| sub_title := newTaskTitle st; sub_capIds := selectedCapIds st;
             sub_impact := impact st; sub_impactMap := finalMap |},
     initialForm).

(** The events of the controls of the component. *)
Inductive FormEvent : Type :=
  | ClickAdd
  | TypeTitle (text : string)
  | ClickCapability (id : string)
  | ClickUniform
  | ClickCustom
  | ClickImpactMinus
  | TypeImpact (parsed : option Z)
  | ClickImpactPlus
  | ClickCapMinus (id : string)
  | TypeCapImpact (id : string) (parsed : option Z)
  | ClickCapPlus (id : string)
  | SubmitForm.

(** A capability of the id is among [capabilities]. *)
Definition known (id : string) : bool :=
  bool_decide (id ∈ c_id <$> capabilities).

(** The control of the event is rendered in the state: the form is
    there while [isAdding]; the uniform controls while not
    [isAdvancedImpact]; the controls of a capability, in the custom mode,
    for each selected id that has a capability. *)
Definition rendered (st : FormState) (ev : FormEvent) : bool :=
  match ev with
  | ClickAdd => true
  | TypeTitle _ | ClickUniform | ClickCustom | SubmitForm => isAdding st
  | ClickCapability id => isAdding st && known id
  | ClickImpactMinus | TypeImpact _ | ClickImpactPlus =>
      isAdding st && negb (isAdvancedImpact st)
  | ClickCapMinus id | TypeCapImpact id _ | ClickCapPlus id =>
      isAdding st && isAdvancedImpact st
      && bool_decide (id ∈ selectedCapIds st) && known id
  end.

(** The handler of each control, with the call of [onAddTask] it makes. *)
Definition handle (ev : FormEvent) (st : FormState)
  : option Submission * FormState :=
  let val id := default 1 (impactMap st !! id) in
  match ev with
  | ClickAdd => (None, setIsAdding st (negb (isAdding st)))
  | TypeTitle text => (None, setNewTaskTitle st text)
  | ClickCapability id => (None, toggleCapSelection id st)
  | ClickUniform => (None, setIsAdvancedImpact st false)
  | ClickCustom => (None, setIsAdvancedImpact st true)
  | ClickImpactMinus => (None, setImpact st (Rmax 1 (impact st - 1)))
  | TypeImpact parsed =>
      (None, setImpact st (Rmin 99 (Rmax 1 (parseIntOr1 parsed))))
  | ClickImpactPlus => (None, setImpact st (Rmin 99 (impact st + 1)))
  | ClickCapMinus id => (None, updateIndividualImpact id (val id - 1) st)
  | TypeCapImpact id parsed =>
      (None, updateIndividualImpact id (parseIntOr1 parsed) st)
  | ClickCapPlus id => (None, updateIndividualImpact id (val id + 1) st)
  | SubmitForm => handleSubmit st
  end.

(** The states of the form after a sequence of events on rendered
    controls, from the initial state. *)
Inductive reachable : FormState -> Prop :=
  | reachable_initial : reachable initialForm
  | reachable_step st ev :
      reachable st -> rendered st ev = true -> reachable (handle ev st).2.

End Form.

(** The states of the form when the [capabilities] it is rendered with
    may change from one event to the next, as they do when [App] adds
    or removes a capability while the form keeps its state; [shown]
    collects the capabilities the form was rendered with at the events
    so far. *)
Inductive reachableWithChanges (trim : string -> string)
  : list Capability -> FormState -> Prop :=
  | changes_initial : reachableWithChanges trim [] initialForm
  | changes_step capabilities shown st ev :
      reachableWithChanges trim shown st ->
      rendered capabilities st ev = true ->
      reachableWithChanges trim (capabilities ++ shown) (handle trim ev st).2.

End TaskList.
(** * The statements of the specification, as definitions *)

Module LayoutTable.
Import MathUtils.

(** The table of the specification, with its azimuths in degrees. *)
Definition deg (d : R) : R := d * PI / 180.
Definition northPole : SpherePoint := {| phi := 0; theta := 0 |}.
Definition southPole : SpherePoint := {| phi := PI; theta := 0 |}.
Definition onEquator (azimuth : R) : SpherePoint :=
  {| phi := PI / 2; theta := azimuth |}.
Definition tetrahedral (azimuth : R) : SpherePoint :=
  {| phi := acos (- (1 / 3)); theta := azimuth |}.

Definition layoutTable (N : nat) : list SpherePoint :=
  match N with
  | 1%nat => [northPole]
  | 2%nat => [northPole; southPole]
  | 3%nat => onEquator <$> [deg 0; deg 120; deg 240]
  | 4%nat => northPole :: (tetrahedral <$> [deg 0; deg 120; deg 240])
  | 5%nat => northPole :: southPole :: (onEquator <$> [deg 0; deg 120; deg 240])
  | 6%nat => northPole :: southPole ::
             (onEquator <$> [deg 0; deg 90; deg 180; deg 270])
  | _ => []
  end.

(** The spiral formula of the specification, before any reduction of the
    azimuth. *)
Definition golden_ratio : R := (1 + sqrt 5) / 2.
Definition spiralInclination (N i : nat) : R :=
  acos (1 - 2 * (INR i + 0.5) / INR N).
Definition spiralAzimuth (i : nat) : R := 2 * PI * INR i / golden_ratio.

End LayoutTable.

(** * Statements about the tessellator *)

Module TessellatorStatements.
Import Three SkillSphere.

(** Two settings agree on the dependency list of the memoised [meshData]
    (the face list is the remaining dependency). *)
Definition sameMeshInputs (s s' : VisualSettings) : Prop :=
  fillMesh s = fillMesh s'
  /\ fillColorMode s = fillColorMode s'
  /\ fillSolidColor s = fillSolidColor s'
  /\ connectionStyle s = connectionStyle s'
  /\ coreColor s = coreColor s'.

(** The number of small triangles of one curved face: the cell [(i, j)]
    gives one triangle, and a second one when [i + j + 1 < segments]. *)
Definition cellTriangles (segments i j : nat) : nat :=
  if (i + j + 1 <? segments)%nat then 2%nat else 1%nat.

Definition faceTriangles (segments : nat) : nat :=
  sum_list ((fun i => sum_list (cellTriangles segments i <$> range 0 (segments - i)))
              <$> range 0 segments).

(** A colour read as a vector, to compare [getColor] with [getPoint]. *)
Definition colorVector (c : Color) : Vector3 :=
  {| x := r c; y := g c; z := b c |}.

(** The colour "interpolated the same way as the position": the patch
    formula of [getPoint] on the corner colours, with control points
    between them computed like those of the edges, for the same style. *)
Definition patchColor (style : ConnectionStyle) (C1 C2 C3 : Color)
    (u v w : R) : Vector3 :=
  getPoint (colorVector C1) (colorVector C2) (colorVector C3)
    (getEdgeControlPoint (colorVector C1) (colorVector C2) style)
    (getEdgeControlPoint (colorVector C2) (colorVector C3) style)
    (getEdgeControlPoint (colorVector C3) (colorVector C1) style)
    u v w.

(** The linear interpolation of the corner colours. *)
Definition linearColor (C1 C2 C3 : Color) (u v w : R) : Color :=
  {| r := u * r C1 + v * r C2 + w * r C3;
     g := u * g C1 + v * g C2 + w * g C3;
     b := u * b C1 + v * b C2 + w * b C3 |}.

End TessellatorStatements.

(** * Statements about the graph builder *)

Module GraphStatements.
Import Three SkillSphere.

(** ** Edges, keys and ids *)

(** The key under which the deduplication sets hold an edge. *)
Definition edgeKeyE (e : EdgeData) : string := edgeKeyOf (nodeAId e) (nodeBId e).

(** The ids of the two ends of an edge. *)
Definition edgeIds (e : EdgeData) : string * string := (nodeAId e, nodeBId e).

(** The unordered pair of ids [a], [b] is an edge of the list. *)
Definition pairPresent (es : list EdgeData) (a b : string) : Prop :=
  exists e, e ∈ es
    /\ ((nodeAId e = a /\ nodeBId e = b) \/ (nodeAId e = b /\ nodeBId e = a)).

(** Each of the three pairs of ids of the face is an edge of the graph. *)
Definition faceEdgesPresent (g : GraphData) (f : FaceData) : Prop :=
  let '(a, b, c) := nodeIds f in
  pairPresent (edges g) a b /\ pairPresent (edges g) b c
  /\ pairPresent (edges g) c a.

(** An id without the character used as separator of the keys. *)
Fixpoint dashFree (s : string) : Prop :=
  match s with
  | EmptyString => True
  | String c s' => c <> "-"%char /\ dashFree s'
  end.

(** The key the neighbour pass computes for the nodes of ids [a], [b]. *)
Definition pairKey (a b : string) : string :=
  let ids := sortStrings [a; b] in
  edgeKeyOf (ids !!! 0%nat) (ids !!! 1%nat).

(** The edges are those of the complete graph on the nodes: every pair
    of nodes at different indices is an edge, every edge joins the ids
    of two nodes at different indices, and no two edges (at different
    places of the list) join the same pair. *)
Definition completeGraph (nodes : list NodeData) (es : list EdgeData) : Prop :=
  (forall i j ni nj, i <> j -> nodes !! i = Some ni -> nodes !! j = Some nj ->
     pairPresent es (id ni) (id nj))
  /\ (forall e, e ∈ es ->
        exists i j ni nj, i <> j /\ nodes !! i = Some ni /\ nodes !! j = Some nj
          /\ nodeAId e = id ni /\ nodeBId e = id nj)
  /\ (forall p q e e', es !! p = Some e -> es !! q = Some e' ->
        edgeIds e = edgeIds e' \/ edgeIds e = (nodeBId e', nodeAId e') ->
        p = q).

(** ** The hull: triples, side test and invariants *)

(** The index triples visited by the three nested loops of the hull, in
    the order of the visit. *)
Definition triples (n : nat) : list (nat * (nat * nat)) :=
  i ← range 0 n;
  jk ← (j ← range (i + 1) n; k ← range (j + 1) n; [(j, k)]);
  [(i, jk)].

(** The normal computed for the triple of positions [p1], [p2], [p3]. *)
Definition normalOf (p1 p2 p3 : Vector3) : Vector3 :=
  normalize (crossVectors (subVectors p2 p1) (subVectors p3 p1)).

(** The outcome of the side test for the triple [(i, j, k)]: the face it
    contributes, if any; [None] also if the test faults. *)
Definition faceOfTriple (nodes : list NodeData) (style : ConnectionStyle)
    (t : nat * (nat * nat)) : option FaceData :=
  let '(i, (j, k)) := t in
  ni ← nodes !! i;
  nj ← nodes !! j;
  nk ← nodes !! k;
  let normal := normalOf (pos ni) (pos nj) (pos nk) in
  '(_, isFace) ← forEachM (sideStep nodes i j k (pos ni) normal)
                   (range 0 (List.length nodes)) (0, true);
  if isFace : bool then Some (hullFace ni nj nk style) else None.

(** The edge pushed by the hull for the nodes [na], [nb]. *)
Definition hullEdge (na nb : NodeData) (style : ConnectionStyle) : EdgeData :=
  {| e_start := pos na; e_end := pos nb;
     e_mid := getEdgeControlPoint (pos na) (pos nb) style;
     e_color := color na;
     nodeAId := id na; nodeBId := id nb |}.

(** The three positions lie on one line or coincide: the cross product
    of the two edge vectors has length zero. *)
Definition degenerate (p1 p2 p3 : Vector3) : Prop :=
  Three.length (crossVectors (subVectors p2 p1) (subVectors p3 p1)) = 0.

(** The signed distance, to the plane through [p1] of normal [normal],
    of the node [nm]; it counts in the side test when it is significant. *)
Definition signedDistance (normal p1 : Vector3) (nm : NodeData) : R :=
  dot normal (subVectors (pos nm) p1).

Definition significant (d : R) : Prop := 1e-4 < Rabs d.

(** The nodes of the indices of [l] other than [i], [j], [k] that are at
    a significant distance of the plane are all on the same side. *)
Definition sidesAgree (nodes : list NodeData) (l : list nat) (i j k : nat)
    (p1 normal : Vector3) : Prop :=
  forall m m' nm nm',
    m ∈ l -> m' ∈ l ->
    nodes !! m = Some nm -> nodes !! m' = Some nm' ->
    m <> i /\ m <> j /\ m <> k -> m' <> i /\ m' <> j /\ m' <> k ->
    significant (signedDistance normal p1 nm) ->
    significant (signedDistance normal p1 nm') ->
    Math_sign (signedDistance normal p1 nm)
    = Math_sign (signedDistance normal p1 nm').

(** Invariants of the accumulators of the hull: the set holds the keys
    of the edges pushed so far, every edge joins two nodes in the order
    of their indices, and every face pushed so far found the keys of its
    three sides in the set. *)
Definition hullEdgesInv (nodes : list NodeData) (style : ConnectionStyle)
    (s : HullState) : Prop :=
  hs_edgeSet s = list_to_set (edgeKeyE <$> hs_edges s)
  /\ forall e, e ∈ hs_edges s ->
       exists a b na nb, (a < b)%nat /\ nodes !! a = Some na
         /\ nodes !! b = Some nb /\ e = hullEdge na nb style.

Definition hullFacesInv (nodes : list NodeData) (style : ConnectionStyle)
    (s : HullState) : Prop :=
  forall f, f ∈ hs_faces s ->
    exists ni nj nk, ni ∈ nodes /\ nj ∈ nodes /\ nk ∈ nodes
      /\ f = hullFace ni nj nk style
      /\ edgeKeyOf (id ni) (id nj) ∈ hs_edgeSet s
      /\ edgeKeyOf (id nj) (id nk) ∈ hs_edgeSet s
      /\ edgeKeyOf (id ni) (id nk) ∈ hs_edgeSet s.

(** Every edge pushed so far is a side of a face pushed so far. *)
Definition hullEdgesFromFaces (style : ConnectionStyle) (s : HullState) : Prop :=
  forall e, e ∈ hs_edges s ->
    exists ni nj nk, hullFace ni nj nk style ∈ hs_faces s
      /\ (e = hullEdge ni nj style \/ e = hullEdge nj nk style
          \/ e = hullEdge ni nk style).

(** ** The hull of a reordered list *)

(** The corner of a face made of the node [nd]. *)
Definition cornerOf (nd : NodeData) : string * Vector3 * string :=
  (id nd, pos nd, color nd).

(** The corners of a face, each with its id, position and colour; two
    faces are the same up to the order of their corners. *)
Definition faceCorners (f : FaceData) : list (string * Vector3 * string) :=
  let '(a, b, c) := nodeIds f in
  let '(p1, p2, p3) := positions f in
  let '(c1, c2, c3) := colors f in
  [(a, p1, c1); (b, p2, c2); (c, p3, c3)].

Definition sameFace (f f' : FaceData) : Prop := faceCorners f ≡ₚ faceCorners f'.

(** The faces of one graph are faces of the other, up to the order of
    their corners. *)
Definition facesIncluded (g g' : GraphData) : Prop :=
  forall f, f ∈ faces g -> exists f', f' ∈ faces g' /\ sameFace f f'.

(** The two ends of an edge, each with its id and position; two edges
    are the same up to the order of their ends. *)
Definition edgeEnds (e : EdgeData) : list (string * Vector3) :=
  [(nodeAId e, e_start e); (nodeBId e, e_end e)].

Definition sameEdge (e e' : EdgeData) : Prop :=
  edgeEnds e ≡ₚ edgeEnds e' /\ e_mid e = e_mid e'.

Definition edgesIncluded (g g' : GraphData) : Prop :=
  forall e, e ∈ edges g -> exists e', e' ∈ edges g' /\ sameEdge e e'.

(** The index exchanged with its successor by an adjacent transposition. *)
Definition swapIndex (a m : nat) : nat :=
  if bool_decide (m = a) then S a
  else if bool_decide (m = S a) then a else m.

(** ** The neighbour graph: invariants *)

(** Invariants of the accumulators of the neighbour pass: the set holds
    the keys of the edges pushed so far, no two edges have the same key,
    every edge joins the ids of two nodes at different indices, smaller
    id first, and every adjacency was entered together with the key of
    its pair. *)
Definition knnInv (nodes : list NodeData) (s : KnnState) : Prop :=
  ks_uniqueEdgeKeys s = list_to_set (edgeKeyE <$> ks_edges s)
  /\ NoDup (edgeKeyE <$> ks_edges s)
  /\ (forall e, e ∈ ks_edges s ->
        String.leb (nodeAId e) (nodeBId e) = true
        /\ exists i j ni nj, i <> j /\ nodes !! i = Some ni /\ nodes !! j = Some nj
             /\ nodeAId e = id ni /\ nodeBId e = id nj)
  /\ (forall a sa b, ks_symmetricAdj s !! a = Some sa -> b ∈ sa ->
        a ∈ id <$> nodes /\ b ∈ id <$> nodes
        /\ pairKey a b ∈ ks_uniqueEdgeKeys s).

(** Every face of the face pass found the keys of its three pairs among
    the keys of the edges. *)
Definition knnFacesInv (nodes : list NodeData) (keys : gset string)
    (fs : FaceState) : Prop :=
  forall f, f ∈ fs_faces fs ->
    let '(a, b, c) := nodeIds f in
    a ∈ id <$> nodes /\ b ∈ id <$> nodes /\ c ∈ id <$> nodes
    /\ pairKey a b ∈ keys /\ pairKey b c ∈ keys /\ pairKey c a ∈ keys.

End GraphStatements.

(** * Sample inputs *)

Module Samples.
Import Three SkillSphere.

Definition black (_ : string) : Color := {| r := 0; g := 0; b := 0 |}.
Definition white : Color := {| r := 1; g := 1; b := 1 |}.

Definition vec (a b c : R) : Vector3 := {| x := a; y := b; z := c |}.

Definition node (name : string) (p : Vector3) : NodeData :=
  {| id := name; pos := p; color := "#ffffff"; surfacePos := p |}.

Definition settingsOf (style : ConnectionStyle) (mode : ConnectionMode)
    (neighbors : Z) (fill : FillColorMode) (alpha : R) : VisualSettings :=
  {| connectionStyle := style; connectionMode := mode;
     connectionNeighbors := neighbors;
     fillMesh := true; fillColorMode := fill; fillSolidColor := "#6366f1";
     fillOpacity := alpha; coreColor := "#000000";
     labelSize := 12; minLabelSize := 8 |}.

Definition face0 : FaceData :=
  hullFace (node "a" (vec 1 0 0)) (node "b" (vec 0 1 0)) (node "c" (vec 0 0 1))
    CurveIn.

(** Three nodes on one line and a fourth one off the line. *)
Definition collinearNodes : list NodeData :=
  [ node "n0" (vec 0 0 0); node "n1" (vec 1 0 0); node "n2" (vec 2 0 0);
    node "n3" (vec 0 1 0) ].

(** Four nodes at the corners of a regular tetrahedron, with unique ids
    of which two contain the separator of the keys. *)
Definition dashedNodes : list NodeData :=
  [ node "a" (vec 1 1 1); node "b-c" (vec 1 (-1) (-1));
    node "a-b" (vec (-1) 1 (-1)); node "c" (vec (-1) (-1) 1) ].

(** The same nodes with the last two exchanged. *)
Definition dashedNodesSwapped : list NodeData :=
  [ node "a" (vec 1 1 1); node "b-c" (vec 1 (-1) (-1));
    node "c" (vec (-1) (-1) 1); node "a-b" (vec (-1) 1 (-1)) ].

Definition hullSettings : VisualSettings := settingsOf CurveIn Auto 3 Gradient 0.2.
Definition knnSettings : VisualSettings := settingsOf CurveIn Fixed 3 Gradient 0.2.

End Samples.

(** * Statements about the scene and the application *)

Module SceneStatements.
Import Three MathUtils Spherical.

(** The position, at the distance [radius] of the centre, of a point of
    the layout. *)
Definition placed (radius : R) (p : SpherePoint) : Vector3 :=
  getVectorFromSpherical radius (phi p) (theta p).

(** The sum of the positions of a list of points of the layout. *)
Definition sumOfPositions (radius : R) (ps : list SpherePoint) : Vector3 :=
  foldr addVectors zero (placed radius <$> ps).

End SceneStatements.

Module AppStatements.
Import MathUtils Types.

(** What a capability keeps when it is laid out again: all its fields
    but the two angles. *)
Definition profile (cap : Capability)
  : string * string * string * R * option string * option string :=
  (c_id cap, c_name cap, c_color cap,
   c_score cap, c_description cap, c_criteria cap).

(** The two angles of a capability, as a point of the layout. *)
Definition angles (cap : Capability) : SpherePoint :=
  {| phi := c_phi cap; theta := c_theta cap |}.

(** The capability placed at the point [p]. *)
Definition placedAt (cap : Capability) (p : SpherePoint) : Capability :=
  withAngles cap (phi p) (theta p).

(** The score a capability has after a task of the targets [capIds] is
    completed, where [value] is what the task is worth for it. *)
Definition scoreAfter (capIds : list string) (value : string -> R)
    (cap : Capability) : R :=
  if bool_decide (c_id cap ∈ capIds)
  then c_score cap + value (c_id cap)
  else c_score cap.

End AppStatements.

Module FormStatements.
Import Types TaskList.

(** The values an impact can take in the form. *)
Definition inRange (v : R) : Prop := 1 <= v <= 99.

(** The invariant of the form: no id is selected twice, every selected
    id is the id of a capability, the custom impacts are kept for the
    selected ids exactly, and every impact is in range. *)
Definition formInv (capabilities : list Capability) (st : FormState) : Prop :=
  NoDup (selectedCapIds st)
  /\ (forall id, id ∈ selectedCapIds st -> id ∈ c_id <$> capabilities)
  /\ dom (impactMap st) =@{gset string} list_to_set (selectedCapIds st)
  /\ map_Forall (fun _ v => inRange v) (impactMap st)
  /\ inRange (impact st).

(** The part of the invariant that does not depend on the capabilities
    the form is rendered with. *)
Definition formCore (st : FormState) : Prop :=
  NoDup (selectedCapIds st)
  /\ dom (impactMap st) =@{gset string} list_to_set (selectedCapIds st)
  /\ map_Forall (fun _ v => inRange v) (impactMap st)
  /\ inRange (impact st).

(** What a submitted task is worth for the capability of the id. *)
Definition worth (st : FormState) (id : string) : R :=
  if isAdvancedImpact st then default (impact st) (impactMap st !! id)
  else impact st.

End FormStatements.

(** * Sample inputs of the application *)

Module AppSamples.
Import Types TaskList.

Definition capability (name : string) : Capability :=
  {| c_id := name; c_name := name;
     c_color := "#ffffff"; c_score := 0;
     c_description := None; c_criteria := None;
     c_phi := 0; c_theta := 0 |}.

Definition oneCapability : list Capability := [capability "a"].

(** A [trim] that finds nothing to remove. *)
Definition keep (s : string) : string := s.

(** The form after a click on the button that opens it, a title typed
    and a click on the only capability. *)
Definition filledForm : FormState :=
  {| newTaskTitle := "run"; selectedCapIds := ["a"]; impact := 1;
     impactMap := <["a" := 1]> ∅;
     isAdding := true; isAdvancedImpact := false |}.

(** The same form after a click on the custom mode, made when the only
    capability is no longer among the capabilities. *)
Definition staleForm : FormState :=
  {| newTaskTitle := "run"; selectedCapIds := ["a"]; impact := 1;
     impactMap := <["a" := 1]> ∅;
     isAdding := true; isAdvancedImpact := true |}.

(** What this form submits. *)
Definition filledSubmission : Submission :=
  {| sub_title := "run"; sub_capIds := ["a"]; sub_impact := 1;
     sub_impactMap := None |}.

Definition emptyApp : App.AppState :=
  {| App.capabilities := oneCapability; App.tasks := [] |}.

End AppSamples.

(** * The hull of a reordered list, edge by edge *)

Module OrderStatements.
Import Three SkillSphere GraphStatements.

(** The edge [e] of the hull of [nodes] joins two nodes, the one that
    comes first in [nodes] first, and the hull [g'] of [nodes'] has the
    edge of the same two nodes, the one that comes first in [nodes']
    first: the same ends and control point, and the colour of the end
    that comes first in its own list. *)
Definition edgeReordered (nodes nodes' : list NodeData)
    (style : ConnectionStyle) (g' : GraphData) (e : EdgeData) : Prop :=
  exists a b na nb a' b',
    (a < b)%nat /\ nodes !! a = Some na /\ nodes !! b = Some nb
    /\ e = hullEdge na nb style
    /\ nodes' !! a' = Some na /\ nodes' !! b' = Some nb
    /\ (((a' < b')%nat /\ hullEdge na nb style ∈ edges g')
        \/ ((b' < a')%nat /\ hullEdge nb na style ∈ edges g')).

End OrderStatements.

(** * More statements about the tessellator and the scaler *)

Module MeshStatements.
Import Three SkillSphere.

(** The three components of a colour are within the bounds. *)
Definition colorWithin (lo hi : R) (c : Color) : Prop :=
  (lo <= r c <= hi) /\ (lo <= g c <= hi) /\ (lo <= b c <= hi).

(** Every entry of the colour buffer is within the bounds. *)
Definition bufferWithin (lo hi : R) (m : MeshData) : Prop :=
  Forall (fun c => lo <= c <= hi) (md_colors m).

(** The point at the parameter [t] of the quadratic curve from [a] to
    [b] with the control point [c]. *)
Definition quadraticCurve (a c b : Vector3) (t : R) : Vector3 :=
  {| x := (1 - t) * (1 - t) * x a + 2 * (1 - t) * t * x c + t * t * x b;
     y := (1 - t) * (1 - t) * y a + 2 * (1 - t) * t * y c + t * t * y b;
     z := (1 - t) * (1 - t) * z a + 2 * (1 - t) * t * z c + t * t * z b |}.

(** The curve of a connection between the positions [a] and [b]. *)
Definition sideCurve (style : ConnectionStyle) (a b : Vector3) (t : R)
  : Vector3 :=
  quadraticCurve a (getEdgeControlPoint a b style) b t.

(** The point of the curved patch of a face at the weights [u], [v],
    [w]. *)
Definition patchPoint (f : FaceData) (u v w : R) : Vector3 :=
  let '(P1, P2, P3) := positions f in
  let '(E1, E2, E3) := controlPoints f in
  getPoint P1 P2 P3 E1 E2 E3 u v w.

(** The control points of a face are those of its three pairs of
    positions. *)
Definition controlPointsOf (style : ConnectionStyle) (f : FaceData) : Prop :=
  let '(P1, P2, P3) := positions f in
  controlPoints f = (getEdgeControlPoint P1 P2 style,
                     getEdgeControlPoint P2 P3 style,
                     getEdgeControlPoint P3 P1 style).

End MeshStatements.
(** * Properties *)

(** ** Comparisons *)

Lemma Rltb_true x y : Rltb x y = true <-> x < y.
Proof. unfold Rltb. destruct (Rlt_dec x y); split; (done || lra). Qed.

Lemma Rltb_false x y : Rltb x y = false <-> y <= x.
Proof. unfold Rltb. destruct (Rlt_dec x y); split; (done || lra). Qed.

Lemma Rleb_true x y : Rleb x y = true <-> x <= y.
Proof. unfold Rleb. destruct (Rle_dec x y); split; (done || lra). Qed.

Lemma Rleb_false x y : Rleb x y = false <-> y < x.
Proof. unfold Rleb. destruct (Rle_dec x y); split; (done || lra). Qed.


(** ** Loops in the option monad *)

Section ForEachM.

Context {A S : Type}.
Implicit Types (body : A -> S -> option S) (l : list A) (s : S).

Lemma forEachM_app body l1 l2 s :
  forEachM body (l1 ++ l2) s = forEachM body l1 s ≫= forEachM body l2.
Proof.
  revert s. induction l1 as [|a l1 IH]; intros s; simpl; [done|].
  destruct (body a s) as [s'|]; simpl; [apply IH | done].
Qed.

(** An invariant that follows the prefix of the list already visited. *)
Lemma forEachM_prefix (P : list A -> S -> Prop) body l s :
  P [] s ->
  (forall done a rest s, l = done ++ a :: rest -> P done s ->
     exists s', body a s = Some s' /\ P (done ++ [a]) s') ->
  exists s', forEachM body l s = Some s' /\ P l s'.
Proof.
  intros H0 Hstep.
  assert (forall rest done s, l = done ++ rest -> P done s ->
            exists s', forEachM body rest s = Some s' /\ P l s') as H.
  { induction rest as [|a rest IH]; intros done s0 Hl HP.
    - rewrite app_nil_r in Hl. subst. by exists s0.
    - destruct (Hstep done a rest s0 Hl HP) as (s1 & Hb & HP1).
      simpl. rewrite Hb. simpl. apply (IH (done ++ [a])); [|done].
      by rewrite <- app_assoc. }
  by apply (H l [] s).
Qed.

(** An invariant kept by every round of the loop. *)
Lemma forEachM_inv (P : S -> Prop) body l s :
  P s ->
  (forall a s, a ∈ l -> P s -> exists s', body a s = Some s' /\ P s') ->
  exists s', forEachM body l s = Some s' /\ P s'.
Proof.
  intros H0 Hstep.
  apply (forEachM_prefix (fun _ => P)); [done|].
  intros done a rest s0 -> HP. apply Hstep; [|done].
  set_solver.
Qed.

End ForEachM.

Lemma forEachM_ext {A S : Type} (body body' : A -> S -> option S) l s :
  (forall a s, body a s = body' a s) ->
  forEachM body l s = forEachM body' l s.
Proof.
  intros H. revert s. induction l as [|a l IH]; intros s; simpl; [done|].
  rewrite H. destruct (body' a s); simpl; [apply IH | done].
Qed.

(** Two nested loops visit the pairs of the flattened list. *)
Lemma forEachM_nested {A B S : Type} (f : A -> list B)
    (body : A -> B -> S -> option S) (l : list A) (s : S) :
  forEachM (fun a => forEachM (body a) (f a)) l s
  = forEachM (fun ab => body ab.1 ab.2) (a ← l; b ← f a; [(a, b)]) s.
Proof.
  revert s. induction l as [|a l IH]; intros s; [done|].
  cbn [forEachM mbind list_bind]. rewrite forEachM_app.
  assert (forall s, forEachM (body a) (f a) s
          = forEachM (fun ab => body ab.1 ab.2) (b ← f a; [(a, b)]) s) as ->.
  { clear. induction (f a) as [|b bs IHb]; intros s; [done|].
    cbn. destruct (body a b s); simpl; [apply IHb | done]. }
  destruct (forEachM _ (b ← f a; [(a, b)]) s); simpl; [apply IH | done].
Qed.

(** ** Spherical layout *)

Module LayoutProps.
Import MathUtils LayoutTable.

Lemma sqrt5_bounds : 2 < sqrt 5 < 3.
Proof.
  split.
  - replace 2 with (sqrt 4).
    + apply sqrt_lt_1; lra.
    + replace 4 with (2 * 2) by lra. apply sqrt_square. lra.
  - replace 3 with (sqrt 9).
    + apply sqrt_lt_1; lra.
    + replace 9 with (3 * 3) by lra. apply sqrt_square. lra.
Qed.

Lemma golden_ratio_bounds : 1 < golden_ratio < 2.
Proof. unfold golden_ratio. pose proof sqrt5_bounds. lra. Qed.

Lemma spiralAzimuth_nonneg i : 0 <= spiralAzimuth i.
Proof.
  unfold spiralAzimuth. pose proof golden_ratio_bounds as Hg.
  pose proof PI_RGT_0 as Hpi. pose proof (pos_INR i) as Hi.
  apply Rmult_le_pos; [nra|]. apply Rlt_le, Rinv_0_lt_compat. lra.
Qed.

(** From the third point on, the azimuth is at least a full turn. *)
Lemma spiralAzimuth_full_turn i : (2 <= i)%nat -> 2 * PI <= spiralAzimuth i.
Proof.
  intros Hi. unfold spiralAzimuth. pose proof golden_ratio_bounds as Hg.
  pose proof PI_RGT_0 as Hpi.
  apply le_INR in Hi. simpl in Hi.
  apply Rmult_le_reg_r with golden_ratio; [lra|].
  replace (2 * PI * INR i / golden_ratio * golden_ratio) with (2 * PI * INR i)
    by (field; lra).
  nra.
Qed.

Lemma spiralAzimuth_within_turn i : (i <= 1)%nat -> spiralAzimuth i < 2 * PI.
Proof.
  intros Hi. unfold spiralAzimuth. pose proof golden_ratio_bounds as Hg.
  pose proof PI_RGT_0 as Hpi.
  apply Rmult_lt_reg_r with golden_ratio; [lra|].
  replace (2 * PI * INR i / golden_ratio * golden_ratio) with (2 * PI * INR i)
    by (field; lra).
  assert (i = 0 \/ i = 1)%nat as [-> | ->] by lia; simpl; nra.
Qed.

Lemma distributePointsOnSphere_spiral N :
  (7 <= N)%nat -> distributePointsOnSphere N = fibonacciPoint N <$> seq 0 N.
Proof. intros H. do 7 (destruct N as [|N]; [lia|]). reflexivity. Qed.

Lemma distributePointsOnSphere_length N :
  List.length (distributePointsOnSphere N) = N.
Proof.
  do 7 (destruct N as [|N]; [reflexivity|]).
  rewrite distributePointsOnSphere_spiral by lia.
  by rewrite length_fmap, length_seq.
Qed.

Lemma distributePointsOnSphere_lookup N i :
  (7 <= N)%nat -> (i < N)%nat ->
  distributePointsOnSphere N !! i = Some (fibonacciPoint N i).
Proof.
  intros HN Hi. rewrite distributePointsOnSphere_spiral by done.
  rewrite list_lookup_fmap, lookup_seq_lt by done. reflexivity.
Qed.

(** C1 (as amended): for [N >= 7] the point of index [i < N] has the
    inclination [acos (1 - 2 (i + 0.5) / N)] and the azimuth
    [2 pi i / golden_ratio], which is not reduced modulo [2 pi]: it is
    never negative, and it is below [2 pi] exactly for the first two
    indices. *)
Theorem C1_spiral_layout (N i : nat) :
  (7 <= N)%nat -> (i < N)%nat ->
  exists p, distributePointsOnSphere N !! i = Some p
    /\ phi p = spiralInclination N i
    /\ theta p = spiralAzimuth i
    /\ 0 <= theta p
    /\ (theta p < 2 * PI <-> (i <= 1)%nat).
Proof.
  intros HN Hi. exists (fibonacciPoint N i).
  split; [by apply distributePointsOnSphere_lookup|].
  assert (theta (fibonacciPoint N i) = spiralAzimuth i) as Hth by reflexivity.
  split; [reflexivity|]. split; [done|]. rewrite Hth.
  split; [apply spiralAzimuth_nonneg|]. split.
  - intros Hlt. destruct (le_lt_dec i 1) as [|Hge]; [done|].
    pose proof (spiralAzimuth_full_turn i ltac:(lia)). lra.
  - apply spiralAzimuth_within_turn.
Qed.

Lemma C1_spiral_layout_witness :
  exists p, distributePointsOnSphere 7 !! 2%nat = Some p
    /\ phi p = spiralInclination 7 2
    /\ theta p = spiralAzimuth 2
    /\ 0 <= theta p
    /\ (theta p < 2 * PI <-> (2 <= 1)%nat).
Proof. apply (C1_spiral_layout 7 2); lia. Defined.

(** Against C1 as stated: the third point of [layout 7] has an azimuth
    outside of [[0, 2 pi)]. *)
Lemma C1_azimuth_exceeds_turn :
  exists p, distributePointsOnSphere 7 !! 2%nat = Some p /\ ~ (theta p < 2 * PI).
Proof.
  exists (fibonacciPoint 7 2). split; [reflexivity|].
  pose proof (spiralAzimuth_full_turn 2 ltac:(lia)) as H.
  change (theta (fibonacciPoint 7 2)) with (spiralAzimuth 2). lra.
Qed.

(** C4: [layout N] has exactly [N] points, none for [N = 0], and for
    [N] from 1 to 6 they are the points of the table of the
    specification. *)
Theorem C4_layout_count_and_table :
  (forall N, List.length (distributePointsOnSphere N) = N)
  /\ distributePointsOnSphere 0 = []
  /\ Forall (fun N => distributePointsOnSphere N = layoutTable N)
       [1; 2; 3; 4; 5; 6]%nat.
Proof.
  split; [apply distributePointsOnSphere_length|]. split; [reflexivity|].
  assert (forall a b a' b', a = a' -> b = b' ->
            {| phi := a; theta := b |} = {| phi := a'; theta := b' |}) as Hpt
    by (intros; subst; reflexivity).
  repeat (apply Forall_cons; split); try apply Forall_nil;
    unfold distributePointsOnSphere, layoutTable, northPole, southPole,
      onEquator, tetrahedral, deg; simpl;
    repeat (f_equal; try (apply Hpt; try (f_equal; lra); lra)).
Qed.

End LayoutProps.

(** ** Label scaler *)

Module LabelScalerProps.
Import LabelScaler.

(** C8 (as amended): the ceiling of 1500 is applied to the boosted size
    only.  For a camera at a positive distance, a label whose size on
    screen is below the minimum gets the font size
    [min (1500, minLabelSize / scaleFactor)], and any other label its
    base size unchanged; at the distance [0], where the scale factor is
    infinite, a base size that is not negative is returned unchanged (a
    negative one gives [0]).  So the font size is at most 1500 whenever
    the label is boosted, and whenever the base size is at most 1500. *)
Theorem C8_font_size_ceiling (distance labelSize minLabelSize : R) :
  (0 < distance ->
     let scaleFactor := HTML_DISTANCE_FACTOR / distance in
     (labelSize * scaleFactor < minLabelSize ->
        currentFontSize distance labelSize minLabelSize
        = Rmin 1500 (minLabelSize / scaleFactor))
     /\ (minLabelSize <= labelSize * scaleFactor ->
           currentFontSize distance labelSize minLabelSize = labelSize))
  /\ (distance = 0 ->
        (0 <= labelSize ->
           currentFontSize distance labelSize minLabelSize = labelSize)
        /\ (labelSize < 0 ->
              currentFontSize distance labelSize minLabelSize = 0))
  /\ ((0 < distance
       /\ labelSize * (HTML_DISTANCE_FACTOR / distance) < minLabelSize)
      \/ labelSize <= 1500 ->
      currentFontSize distance labelSize minLabelSize <= 1500).
Proof.
  unfold currentFontSize. split; [|split].
  - intros Hd. cbn zeta. destruct (decide (distance = 0)) as [H0|_]; [lra|].
    split; intros Hv.
    + by rewrite (proj2 (Rltb_true _ _) Hv).
    + by rewrite (proj2 (Rltb_false _ _) Hv).
  - intros ->. destruct (decide (0 = 0)) as [_|Hne]; [|done]. split; intros Hl.
    + by rewrite (proj2 (Rltb_false _ _) Hl).
    + rewrite (proj2 (Rltb_true _ _) Hl). apply Rmin_right. lra.
  - intros H. destruct (decide (distance = 0)) as [H0|Hne].
    + destruct (Rltb labelSize 0) eqn:Hb.
      * apply Rmin_l.
      * destruct H as [[Hd _]|H]; lra.
    + destruct (Rltb _ _) eqn:Hb.
      * apply Rmin_l.
      * apply Rltb_false in Hb. destruct H as [[_ H]|H]; lra.
Qed.

Lemma C8_font_size_ceiling_witness : currentFontSize 100 12 8 <= 1500.
Proof.
  apply (proj2 (proj2 (C8_font_size_ceiling 100 12 8))). right. lra.
Defined.

(** Against C8 as stated: a base label size above the ceiling is returned
    unchanged when the label is large enough on screen. *)
Lemma C8_base_size_above_ceiling : 1500 < currentFontSize 15 2000 10.
Proof.
  unfold currentFontSize, HTML_DISTANCE_FACTOR.
  destruct (decide (15 = 0)) as [H0|_]; [lra|].
  replace (15 / 15) with 1 by (field; lra).
  destruct (Rltb _ _) eqn:Hb.
  - apply Rltb_true in Hb. lra.
  - lra.
Qed.

End LabelScalerProps.

(** ** Surface tessellator *)

Module TessellatorProps.
Import Three SkillSphere TessellatorStatements.

Section WithParser.

Variable parseColor : string -> Color.

(** C10: the mesh is drawn as opaque (render order 0, not transparent,
    depth written) exactly when the fill opacity is at least 0.99, and
    otherwise with render order 5, transparent, depth not written. *)
Theorem C10_opaque_flag (faces : list FaceData) (settings : VisualSettings)
    (uniqueKey : string) (el : MeshElement) :
  SkillMesh parseColor faces settings uniqueKey = Some el ->
  (0.99 <= fillOpacity settings ->
     renderOrder el = 0%Z /\ transparent el = false /\ depthWrite el = true)
  /\ (fillOpacity settings < 0.99 ->
     renderOrder el = 5%Z /\ transparent el = true /\ depthWrite el = false)
  /\ (depthWrite el = true <-> 0.99 <= fillOpacity settings).
Proof.
  unfold SkillMesh. destruct (meshData _ _ _) as [md|]; [|done].
  intros [= <-]. simpl.
  destruct (Rleb 0.99 (fillOpacity settings)) eqn:Hb.
  - apply Rleb_true in Hb. repeat split; try done; intros; lra.
  - apply Rleb_false in Hb. repeat split; try done; intros; lra.
Qed.

(** Lengths of the two arrays: both grow by 9 numbers per triangle. *)

Section Measure.

Variable size : MeshData -> nat.
Hypothesis size_pushTriangle : forall m p1 p2 p3 c1 c2 c3,
  size (pushTriangle m p1 p2 p3 c1 c2 c3) = (size m + 9)%nat.

Lemma forRange_size (body : nat -> MeshData -> MeshData) (f : nat -> nat)
    lo hi m :
  (forall i m, size (body i m) = (size m + 9 * f i)%nat) ->
  size (forRange lo hi body m)
  = (size m + 9 * sum_list (f <$> range lo hi))%nat.
Proof.
  intros Hbody. unfold forRange. generalize (range lo hi). intros l.
  revert m. induction l as [|i l IH]; intros m.
  - simpl. lia.
  - rewrite fmap_cons.
    change (sum_list (f i :: (f <$> l))) with (f i + sum_list (f <$> l))%nat.
    cbn [foldl]. rewrite IH, Hbody. lia.
Qed.

Lemma size_meshCell mode sColor P1 P2 P3 E1 E2 E3 C1 C2 C3 segments i j m :
  size (meshCell mode sColor P1 P2 P3 E1 E2 E3 C1 C2 C3 segments i j m)
  = (size m + 9 * cellTriangles segments i j)%nat.
Proof.
  unfold meshCell, cellTriangles.
  destruct (i + j + 1 <? segments)%nat;
    rewrite !size_pushTriangle; lia.
Qed.

Lemma size_meshFace settings sColor face m :
  size (meshFace parseColor settings sColor face m)
  = (size m + 9 * faceTriangles
       (if bool_decide (connectionStyle settings = Straight) then 1 else 12))%nat.
Proof.
  unfold meshFace.
  destruct (positions face) as [[P1 P2] P3].
  destruct (controlPoints face) as [[E1 E2] E3].
  destruct (colors face) as [[c1 c2] c3].
  case_bool_decide as Hs; simpl.
  - case_bool_decide; rewrite size_pushTriangle; reflexivity.
  - unfold faceTriangles.
    rewrite (forRange_size _
      (fun i => sum_list (cellTriangles 12 i <$> range 0 (12 - i)))); [done|].
    intros i m'. rewrite (forRange_size _ (cellTriangles 12 i)); [done|].
    intros j m''. apply size_meshCell.
Qed.

Lemma size_meshFaces settings sColor faces m :
  size (foldl (fun m face => meshFace parseColor settings sColor face m) m faces)
  = (size m + 9 * faceTriangles
       (if bool_decide (connectionStyle settings = Straight) then 1 else 12)
       * List.length faces)%nat.
Proof.
  revert m. induction faces as [|f fs IH]; intros m; cbn [foldl List.length].
  - lia.
  - rewrite IH, size_meshFace. lia.
Qed.

End Measure.

Lemma meshData_Some faces settings :
  fillMesh settings = true -> faces <> [] ->
  connectionStyle settings <> StyleNone ->
  exists md, meshData parseColor faces settings = Some md
    /\ List.length (md_positions md)
       = (9 * faceTriangles
            (if bool_decide (connectionStyle settings = Straight) then 1 else 12)
          * List.length faces)%nat
    /\ List.length (md_colors md)
       = (9 * faceTriangles
            (if bool_decide (connectionStyle settings = Straight) then 1 else 12)
          * List.length faces)%nat.
Proof.
  intros Hfill Hne Hstyle. unfold meshData. rewrite Hfill. simpl.
  rewrite bool_decide_eq_false_2 by (by destruct faces).
  rewrite bool_decide_eq_false_2 by done. simpl.
  eexists. split; [reflexivity|]. split.
  - rewrite (size_meshFaces (fun m => List.length (md_positions m))); [done|].
    intros. unfold pushTriangle. simpl. by rewrite !length_app.
  - rewrite (size_meshFaces (fun m => List.length (md_colors m))); [done|].
    intros. unfold pushTriangle. simpl. by rewrite !length_app.
Qed.

Example faceTriangles_flat : faceTriangles 1 = 1%nat.
Proof. reflexivity. Qed.

Example faceTriangles_curved : faceTriangles 12 = 144%nat.
Proof. reflexivity. Qed.

Lemma meshData_memo faces settings settings' :
  sameMeshInputs settings settings' ->
  meshData parseColor faces settings' = meshData parseColor faces settings.
Proof.
  intros (Hf & Hm & Hc & Hs & Hk). unfold meshData, meshFace.
  rewrite Hf, Hm, Hc, Hs, Hk. reflexivity.
Qed.

Lemma vertexCount_of_sizes (len t n : nat) :
  len = (9 * t * n)%nat -> INR len / 3 = INR (3 * t * n).
Proof. intros ->. rewrite !mult_INR, !INR_IZR_INZ. cbn [Z.of_nat Pos.of_succ_nat Pos.succ]. field. Qed.

(** C6: a flat face gives exactly 3 vertices, a curved face (12
    subdivisions, 144 small triangles) exactly 432; the colour array has
    as many entries; and the buffers depend on nothing but the face list
    and the settings listed as inputs of [meshData]. *)
Theorem C6_vertex_counts (faces : list FaceData) (settings : VisualSettings)
    (uniqueKey : string) :
  fillMesh settings = true -> faces <> [] ->
  (connectionStyle settings = Straight ->
     exists el, SkillMesh parseColor faces settings uniqueKey = Some el
       /\ positionCount el = INR (3 * List.length faces)
       /\ colorCount el = INR (3 * List.length faces))
  /\ (connectionStyle settings = CurveIn \/ connectionStyle settings = CurveOut ->
     faceTriangles 12 = 144%nat
     /\ exists el, SkillMesh parseColor faces settings uniqueKey = Some el
       /\ positionCount el = INR (432 * List.length faces)
       /\ colorCount el = INR (432 * List.length faces))
  /\ (forall settings' uniqueKey' el,
        sameMeshInputs settings settings' ->
        SkillMesh parseColor faces settings uniqueKey = Some el ->
        exists el', SkillMesh parseColor faces settings' uniqueKey' = Some el'
          /\ positionArray el' = positionArray el
          /\ colorArray el' = colorArray el).
Proof.
  intros Hfill Hne. split; [|split].
  - intros Hs.
    destruct (meshData_Some faces settings Hfill Hne) as (md & Hmd & Hp & Hc);
      [by rewrite Hs|].
    rewrite Hs in Hp, Hc. simpl in Hp, Hc.
    unfold SkillMesh. rewrite Hmd. eexists. split; [reflexivity|].
    cbn [positionCount colorCount].
    split; apply (vertexCount_of_sizes _ 1); done.
  - intros Hs. split; [reflexivity|].
    destruct (meshData_Some faces settings Hfill Hne) as (md & Hmd & Hp & Hc);
      [by destruct Hs as [-> | ->]|].
    rewrite bool_decide_eq_false_2 in Hp, Hc by (by destruct Hs as [-> | ->]).
    unfold SkillMesh. rewrite Hmd. eexists. split; [reflexivity|].
    cbn [positionCount colorCount].
    split; apply (vertexCount_of_sizes _ 144); done.
  - intros settings' uniqueKey' el Hsame. unfold SkillMesh.
    rewrite (meshData_memo faces settings settings' Hsame).
    destruct (meshData _ _ _) as [md|]; [|done].
    intros [= <-]. eexists. split; [reflexivity|]. done.
Qed.

(** Interpolation of the colour *)

Lemma Color_eq (c c' : Color) : r c = r c' -> g c = g c' -> b c = b c' -> c = c'.
Proof. destruct c, c'. simpl. by intros -> -> ->. Qed.

Lemma Vector3_eq (p q : Vector3) : x p = x q -> y p = y q -> z p = z q -> p = q.
Proof. destruct p, q. simpl. by intros -> -> ->. Qed.

Lemma getColor_corners sColor C1 C2 C3 :
  getColor Gradient sColor C1 C2 C3 1 0 0 = C1
  /\ getColor Gradient sColor C1 C2 C3 0 1 0 = C2
  /\ getColor Gradient sColor C1 C2 C3 0 0 1 = C3.
Proof.
  repeat split; apply Color_eq; simpl; lra.
Qed.

Lemma getColor_linear sColor C1 C2 C3 u v w :
  getColor Gradient sColor C1 C2 C3 u v w = linearColor C1 C2 C3 u v w.
Proof. apply Color_eq; simpl; ring. Qed.

Lemma getColor_patch_straight sColor C1 C2 C3 u v w :
  u + v + w = 1 ->
  colorVector (getColor Gradient sColor C1 C2 C3 u v w)
  = patchColor Straight C1 C2 C3 u v w.
Proof.
  intros Huvw. assert (w = 1 - u - v) as -> by lra.
  assert (0.5 = 1 / 2) as Hhalf by lra.
  apply Vector3_eq; simpl; rewrite Hhalf; field.
Qed.

(** C7 (as amended): in gradient mode the colour is interpolated
    linearly, [u C1 + v C2 + w C3]; on the barycentric domain this is
    the quadratic patch formula of the position whose cross terms are the
    plain mid-points of the corner colours (the control points of the
    straight style), whatever the style of the face; at each corner of
    the domain it is the colour of that corner, and the three corner
    vertices emitted for a curved face carry exactly these colours. *)
Theorem C7_gradient_colour (sColor C1 C2 C3 : Color)
    (P1 P2 P3 E1 E2 E3 : Vector3) :
  (forall u v w,
     getColor Gradient sColor C1 C2 C3 u v w = linearColor C1 C2 C3 u v w)
  /\ (forall u v w, u + v + w = 1 ->
     colorVector (getColor Gradient sColor C1 C2 C3 u v w)
     = patchColor Straight C1 C2 C3 u v w)
  /\ getColor Gradient sColor C1 C2 C3 1 0 0 = C1
  /\ getColor Gradient sColor C1 C2 C3 0 1 0 = C2
  /\ getColor Gradient sColor C1 C2 C3 0 0 1 = C3
  /\ (let cell i j :=
        meshCell Gradient sColor P1 P2 P3 E1 E2 E3 C1 C2 C3 12 i j
          {| md_positions := []; md_colors := [] |} in
      take 3 (drop 3 (md_colors (cell 11 0)%nat)) = rgb C1
      /\ take 3 (drop 6 (md_colors (cell 0 11)%nat)) = rgb C2
      /\ take 3 (md_colors (cell 0 0)%nat) = rgb C3).
Proof.
  split; [intros; apply getColor_linear|].
  split; [intros; by apply getColor_patch_straight|].
  destruct (getColor_corners sColor C1 C2 C3) as (H1 & H2 & H3).
  repeat (split; [done|]).
  assert (INR 12 = 12) as H12 by (rewrite INR_IZR_INZ; reflexivity).
  assert (INR 11 = 11) as H11 by (rewrite INR_IZR_INZ; reflexivity).
  assert (INR 0 = 0) as H0 by reflexivity.
  cbv zeta. unfold meshCell. rewrite H12, H11, H0.
  cbn [Nat.ltb Nat.leb Nat.add md_colors pushTriangle app rgb drop take].
  repeat split.
  - replace ((11 + 1) / 12) with 1 by lra. replace (0 / 12) with 0 by lra.
    replace ((12 - 11 - 0 - 1) / 12) with 0 by lra. by rewrite H1.
  - replace ((11 + 1) / 12) with 1 by lra. replace (0 / 12) with 0 by lra.
    replace ((12 - 0 - 11 - 1) / 12) with 0 by lra. by rewrite H2.
  - replace ((12 - 0 - 0) / 12) with 1 by lra. replace (0 / 12) with 0 by lra.
    by rewrite H3.
Qed.

(** Against C7 as stated: on a curved face the colour is not the patch
    formula with cross terms curved like those of the position. Between
    two white corners the code gives white, the curved formula 0.85. *)
Lemma C7_colour_not_curved :
  x (colorVector (getColor Gradient Samples.white Samples.white Samples.white
                    Samples.white (1 / 2) (1 / 2) 0)) = 1
  /\ x (patchColor CurveIn Samples.white Samples.white Samples.white
          (1 / 2) (1 / 2) 0) = 0.85
  /\ colorVector (getColor Gradient Samples.white Samples.white Samples.white
                    Samples.white (1 / 2) (1 / 2) 0)
     <> patchColor CurveIn Samples.white Samples.white Samples.white
          (1 / 2) (1 / 2) 0.
Proof.
  assert (x (colorVector (getColor Gradient Samples.white Samples.white
               Samples.white Samples.white (1 / 2) (1 / 2) 0)) = 1) as H1
    by (simpl; lra).
  assert (x (patchColor CurveIn Samples.white Samples.white Samples.white
               (1 / 2) (1 / 2) 0) = 0.85) as H2
    by (simpl; lra).
  split; [done|]. split; [done|].
  intros Heq. rewrite Heq, H2 in H1. lra.
Qed.

End WithParser.

Lemma C10_opaque_flag_witness :
  exists el,
    SkillMesh Samples.black [Samples.face0]
      (Samples.settingsOf Straight Auto 3 Gradient 1) "key" = Some el
    /\ (depthWrite el = true <-> 0.99 <= 1).
Proof.
  eexists. split; [reflexivity|].
  eapply (C10_opaque_flag Samples.black [Samples.face0]
            (Samples.settingsOf Straight Auto 3 Gradient 1) "key").
  reflexivity.
Defined.

Lemma C6_vertex_counts_witness :
  exists el,
    SkillMesh Samples.black [Samples.face0]
      (Samples.settingsOf CurveIn Auto 3 Gradient 1) "key" = Some el
    /\ positionCount el = INR 432.
Proof.
  destruct (C6_vertex_counts Samples.black [Samples.face0]
              (Samples.settingsOf CurveIn Auto 3 Gradient 1) "key")
    as (_ & Hcurved & _); [reflexivity | done |].
  destruct Hcurved as (_ & el & Hel & Hp & _); [by left|].
  exists el. split; [exact Hel | exact Hp].
Defined.

Lemma C7_gradient_colour_witness :
  colorVector (getColor Gradient Samples.white Samples.white Samples.white
                 Samples.white (1 / 2) (1 / 2) 0)
  = patchColor Straight Samples.white Samples.white Samples.white
      (1 / 2) (1 / 2) 0.
Proof.
  apply (proj1 (proj2 (C7_gradient_colour Samples.white Samples.white
                  Samples.white Samples.white zero zero zero zero zero zero))).
  lra.
Defined.

End TessellatorProps.

(** ** Keys of edges *)

Module KeyProps.
Import SkillSphere GraphStatements.

(** Ids without the separator are recovered from the key. *)
Lemma edgeKeyOf_inj a b a' b' :
  dashFree a -> dashFree a' ->
  edgeKeyOf a b = edgeKeyOf a' b' -> a = a' /\ b = b'.
Proof.
  assert (forall s, "" +:+ s = s) as Hnil by reflexivity.
  assert (forall c s t, String c s +:+ t = String c (s +:+ t)) as Hcons
    by reflexivity.
  unfold edgeKeyOf. revert a'.
  induction a as [|c a IH]; intros [|c' a'] Ha Ha' H; simpl in Ha, Ha';
    rewrite ?Hcons, ?Hnil in H.
  - by injection H as ->.
  - injection H as <- _. by destruct Ha'.
  - injection H as -> _. by destruct Ha.
  - injection H as -> H. destruct Ha as [_ Ha], Ha' as [_ Ha'].
    destruct (IH a' Ha Ha' H) as [-> ->]. done.
Qed.

Lemma elem_of_keys (es : list EdgeData) key :
  key ∈ (list_to_set (edgeKeyE <$> es) : gset string) ->
  exists e, e ∈ es /\ edgeKeyE e = key.
Proof.
  rewrite elem_of_list_to_set, list_elem_of_fmap. intros (e & -> & He).
  by exists e.
Qed.

End KeyProps.

(** ** Exact hull *)

Module HullProps.
Import Three SkillSphere GraphStatements.

Lemma elem_of_range lo hi i : i ∈ range lo hi <-> (lo <= i < hi)%nat.
Proof. unfold range. rewrite elem_of_seq. lia. Qed.

Example triples_4 :
  triples 4 = [(0, (1, 2)); (0, (1, 3)); (0, (2, 3)); (1, (2, 3))]%nat.
Proof. reflexivity. Qed.

Lemma elem_of_triples n i j k :
  (i, (j, k)) ∈ triples n <-> (i < j < k)%nat /\ (k < n)%nat.
Proof.
  unfold triples. rewrite list_elem_of_bind. split.
  - intros (i' & Hin & Hi). apply list_elem_of_bind in Hin as (jk & Hin & Hjk).
    apply list_elem_of_singleton in Hin. simplify_eq.
    apply list_elem_of_bind in Hjk as (j' & Hin & Hj).
    apply list_elem_of_bind in Hin as (k' & Hin & Hk).
    apply list_elem_of_singleton in Hin. simplify_eq.
    apply elem_of_range in Hi, Hj, Hk. lia.
  - intros [[Hij Hjk] Hk]. exists i. split; [|apply elem_of_range; lia].
    apply list_elem_of_bind. exists (j, k). split; [set_solver|].
    apply list_elem_of_bind. exists j. split; [|apply elem_of_range; lia].
    apply list_elem_of_bind. exists k. split; [set_solver|].
    apply elem_of_range; lia.
Qed.

(** The three loops of the hull visit [triples n]. *)
Lemma computeConvexHull_triples nodes style :
  (4 <= List.length nodes)%nat ->
  computeConvexHull nodes style
  = s ← forEachM (fun t => hullTriple nodes style t.1 t.2.1 t.2.2)
          (triples (List.length nodes))
          {| hs_faces := []; hs_edgeSet := ∅; hs_edges := [] |};
    Some {| edges := hs_edges s; faces := hs_faces s |}.
Proof.
  intros Hn. unfold computeConvexHull.
  destruct (Nat.ltb_spec (List.length nodes) 4) as [|_]; [lia|].
  f_equal. unfold triples.
  rewrite <- (forEachM_nested
    (fun i => j ← range (i + 1) (List.length nodes);
              k ← range (j + 1) (List.length nodes); [(j, k)])
    (fun i jk => hullTriple nodes style i jk.1 jk.2)).
  apply forEachM_ext. intros i s.
  by rewrite <- (forEachM_nested
    (fun j => range (j + 1) (List.length nodes))
    (fun j k => hullTriple nodes style i j k)).
Qed.

(** *** The side test *)

Section SideTest.

Variables (nodes : list NodeData) (i j k : nat) (p1 normal : Vector3).

Lemma sideStep_Some m st :
  (m < List.length nodes)%nat ->
  exists st', sideStep nodes i j k p1 normal m st = Some st'.
Proof.
  intros Hm. destruct (lookup_lt_is_Some_2 nodes m Hm) as [nm Hnm].
  unfold sideStep. destruct st as [side isFace]. rewrite Hnm. simpl.
  repeat (case_match; try by eexists).
Qed.

Lemma sideLoop_Some l st :
  (forall m, m ∈ l -> (m < List.length nodes)%nat) ->
  exists st', forEachM (sideStep nodes i j k p1 normal) l st = Some st'.
Proof.
  intros Hl.
  destruct (forEachM_inv (fun _ => True) (sideStep nodes i j k p1 normal) l st)
    as (st' & H & _); [done| |by exists st'].
  intros m st0 Hm _. destruct (sideStep_Some m st0) as [st' H]; [by apply Hl|].
  by exists st'.
Qed.

(** Without a node at a significant distance of the plane, the triple
    remains a face. *)
Lemma sideLoop_no_significant l :
  (forall m nm, m ∈ l -> nodes !! m = Some nm ->
     Rabs (dot normal (subVectors (pos nm) p1)) <= 1e-4) ->
  (forall m, m ∈ l -> (m < List.length nodes)%nat) ->
  forEachM (sideStep nodes i j k p1 normal) l (0, true) = Some (0, true).
Proof.
  intros Hd Hl.
  destruct (forEachM_inv (fun st => st = (0, true))
              (sideStep nodes i j k p1 normal) l (0, true))
    as (st' & H & ->); [done| |done].
  intros m st0 Hm ->.
  destruct (lookup_lt_is_Some_2 nodes m (Hl m Hm)) as [nm Hnm].
  exists (0, true). split; [|done].
  unfold sideStep. rewrite Hnm. simpl.
  destruct (_ || _); [done|].
  rewrite (proj2 (Rltb_false _ _)); [done|]. by apply (Hd m).
Qed.

End SideTest.

(** The side test, characterised *)

Lemma Math_sign_significant d :
  significant d -> Math_sign d = 1 \/ Math_sign d = -1.
Proof.
  unfold significant, Math_sign, Rltb. intros Hd.
  destruct (Rlt_dec 0 d); [by left|].
  destruct (Rlt_dec d 0); [by right|].
  assert (d = 0) as -> by lra. rewrite Rabs_R0 in Hd. lra.
Qed.

Lemma Math_sign_opp d : Math_sign (- d) = - Math_sign d.
Proof.
  unfold Math_sign, Rltb.
  destruct (Rlt_dec 0 (- d)), (Rlt_dec (- d) 0), (Rlt_dec 0 d), (Rlt_dec d 0);
    lra.
Qed.

Lemma significant_opp d : significant (- d) <-> significant d.
Proof. unfold significant. by rewrite Rabs_Ropp. Qed.

Lemma sideLoop_char nodes i j k p1 normal l side isFace :
  (forall m, m ∈ l -> (m < List.length nodes)%nat) ->
  forEachM (sideStep nodes i j k p1 normal) l (0, true) = Some (side, isFace) ->
  isFace = true <-> sidesAgree nodes l i j k p1 normal.
Proof.
  intros Hl Hrun.
  set (other := fun m : nat => m <> i /\ m <> j /\ m <> k).
  set (dist := signedDistance normal p1).
  pose (Inv := fun (done : list nat) (st : R * bool) =>
    if st.2 then
      (forall m nm, m ∈ done -> nodes !! m = Some nm -> other m ->
         significant (dist nm) -> Math_sign (dist nm) = st.1)
      /\ (st.1 <> 0 -> exists m nm, m ∈ done /\ nodes !! m = Some nm /\ other m
            /\ significant (dist nm) /\ Math_sign (dist nm) = st.1)
    else
      exists m m' nm nm', m ∈ done /\ m' ∈ done
        /\ nodes !! m = Some nm /\ nodes !! m' = Some nm'
        /\ other m /\ other m'
        /\ significant (dist nm) /\ significant (dist nm')
        /\ Math_sign (dist nm) <> Math_sign (dist nm')).
  destruct (forEachM_prefix Inv (sideStep nodes i j k p1 normal) l (0, true))
    as (st & Hst & Hinv).
  - split; [by intros m nm Hm%elem_of_nil | done].
  - intros done m rest [sd isF] -> HI.
    destruct (lookup_lt_is_Some_2 nodes m) as [nm Hnm]; [apply Hl; set_solver|].
    unfold sideStep. unfold Inv in HI. destruct isF; simpl in HI |- *.
    2:{ eexists. split; [done|]. unfold Inv. simpl.
        destruct HI as (m0 & m0' & nm0 & nm0' & ? & ? & ?).
        exists m0, m0', nm0, nm0'. set_solver. }
    destruct HI as [Hall Hex].
    destruct (bool_decide (m = i) || bool_decide (m = j) || bool_decide (m = k))
      eqn:Hskip.
    { eexists. split; [done|]. unfold Inv. simpl. split.
      - intros m0 nm0 [Hm0 | ->%list_elem_of_singleton]%elem_of_app Hl0 Ho;
          [by eapply Hall|].
        destruct Ho as (? & ? & ?).
        rewrite !orb_true_iff, !bool_decide_eq_true in Hskip. tauto.
      - intros Hne. destruct (Hex Hne) as (m0 & nm0 & ? & ?).
        exists m0, nm0. set_solver. }
    assert (other m) as Hother.
    { rewrite !orb_false_iff, !bool_decide_eq_false in Hskip. unfold other. tauto. }
    clear Hskip.
    rewrite Hnm. cbn [mbind option_bind]. fold (signedDistance normal p1 nm).
    fold (dist nm).
    destruct (Rltb 1e-4 (Rabs (dist nm))) eqn:Hsig.
    2:{ apply Rltb_false in Hsig. eexists. split; [done|]. unfold Inv. simpl. split.
        - intros m0 nm0 [Hm0 | ->%list_elem_of_singleton]%elem_of_app Hl0 Ho Hs;
            [by eapply Hall|].
          rewrite Hnm in Hl0. injection Hl0 as <-. unfold significant in Hs. lra.
        - intros Hne. destruct (Hex Hne) as (m0 & nm0 & ? & ?).
          exists m0, nm0. set_solver. }
    apply Rltb_true in Hsig. fold (significant (dist nm)) in Hsig.
    case_bool_decide as Hzero.
    { subst sd. eexists. split; [done|]. unfold Inv. simpl. split.
      - intros m0 nm0 [Hm0 | ->%list_elem_of_singleton]%elem_of_app Hl0 Ho Hs.
        + pose proof (Hall m0 nm0 Hm0 Hl0 Ho Hs) as H0.
          destruct (Math_sign_significant _ Hs); lra.
        + rewrite Hnm in Hl0. by injection Hl0 as <-.
      - intros _. exists m, nm. set_solver. }
    case_bool_decide as Hdiff.
    { eexists. split; [done|]. unfold Inv. simpl.
      destruct (Hex Hzero) as (m0 & nm0 & Hm0 & Hl0 & Ho & Hs & Hsg).
      exists m0, m, nm0, nm. rewrite Hsg. set_solver. }
    eexists. split; [done|]. unfold Inv. simpl. split.
    + intros m0 nm0 [Hm0 | ->%list_elem_of_singleton]%elem_of_app Hl0 Ho Hs;
        [by eapply Hall|].
      rewrite Hnm in Hl0. injection Hl0 as <-.
      destruct (decide (sd = Math_sign (dist nm))); [done|]. by destruct Hdiff.
    + intros Hne. destruct (Hex Hne) as (m0 & nm0 & ? & ?).
      exists m0, nm0. set_solver.
  - rewrite Hrun in Hst. injection Hst as <-. unfold Inv in Hinv. simpl in Hinv.
    destruct isFace.
    + split; [|done]. intros _. destruct Hinv as [Hall _].
      intros m m' nm nm' Hm Hm' Hlm Hlm' Ho Ho' Hs Hs'.
      transitivity side;
        [exact (Hall m nm Hm Hlm Ho Hs) | symmetry; exact (Hall m' nm' Hm' Hlm' Ho' Hs')].
    + split; [done|]. intros Hagree.
      destruct Hinv as (m & m' & nm & nm' & Hm & Hm' & Hlm & Hlm' & Ho & Ho'
                        & Hs & Hs' & Hne).
      destruct Hne. by apply (Hagree m m' nm nm').
Qed.

(** *** The accumulators *)

Section HullInvariant.

Variables (nodes : list NodeData) (style : ConnectionStyle).

Lemma hullAddEdge_spec a b na nb pair s :
  (a < b)%nat -> nodes !! a = Some na -> nodes !! b = Some nb ->
  pair = (a, b) \/ pair = (b, a) ->
  hullEdgesInv nodes style s ->
  exists s', hullAddEdge nodes style pair s = Some s'
    /\ hullEdgesInv nodes style s'
    /\ hs_faces s' = hs_faces s
    /\ hs_edgeSet s ⊆ hs_edgeSet s'
    /\ edgeKeyOf (id na) (id nb) ∈ hs_edgeSet s'
    /\ (hs_edges s' = hs_edges s
        \/ ((edgeKeyOf (id na) (id nb) ∉ hs_edgeSet s)
            /\ hs_edges s' = hs_edges s ++ [hullEdge na nb style])).
Proof.
  intros Hab Ha Hb Hpair [Hset Hedges]. unfold hullAddEdge.
  assert (Nat.min pair.1 pair.2 = a /\ Nat.max pair.1 pair.2 = b) as [-> ->]
    by (destruct Hpair as [-> | ->]; simpl; lia).
  rewrite Ha, Hb. simpl. case_bool_decide as Hin.
  - exists s. repeat split; try done. by left.
  - eexists. split; [reflexivity|].
    unfold hullEdgesInv. cbn [hs_faces hs_edgeSet hs_edges]. repeat split.
    + rewrite fmap_app, list_to_set_app_L, <- Hset. simpl. set_solver.
    + intros e [He | He%list_elem_of_singleton]%elem_of_app; [by apply Hedges|].
      exists a, b, na, nb. by subst.
    + set_solver.
    + set_solver.
    + right. done.
Qed.

Lemma hullFacesInv_mono s s' :
  hs_faces s' = hs_faces s -> hs_edgeSet s ⊆ hs_edgeSet s' ->
  hullFacesInv nodes style s -> hullFacesInv nodes style s'.
Proof.
  intros Hf Hsub H f Hin. rewrite Hf in Hin.
  destruct (H f Hin) as (ni & nj & nk & ? & ? & ? & ? & ? & ? & ?).
  exists ni, nj, nk. repeat split; try done; by apply Hsub.
Qed.

(** One round of the innermost loop. *)
Lemma hullTriple_spec i j k s :
  (i < j < k)%nat -> (k < List.length nodes)%nat ->
  hullEdgesInv nodes style s -> hullFacesInv nodes style s ->
  hullEdgesFromFaces style s ->
  exists s', hullTriple nodes style i j k s = Some s'
    /\ hullEdgesInv nodes style s' /\ hullFacesInv nodes style s'
    /\ hullEdgesFromFaces style s'
    /\ hs_faces s'
       = hs_faces s ++ option_list (faceOfTriple nodes style (i, (j, k))).
Proof.
  intros Hijk Hk HE HF HEF.
  destruct (lookup_lt_is_Some_2 nodes i ltac:(lia)) as [ni Hni].
  destruct (lookup_lt_is_Some_2 nodes j ltac:(lia)) as [nj Hnj].
  destruct (lookup_lt_is_Some_2 nodes k ltac:(lia)) as [nk Hnk].
  unfold hullTriple, faceOfTriple, normalOf. rewrite Hni, Hnj, Hnk. simpl.
  set (normal := normalize _).
  destruct (sideLoop_Some nodes i j k (pos ni) normal
              (range 0 (List.length nodes)) (0, true)) as [[side isFace] Hside].
  { intros m Hm. apply elem_of_range in Hm. lia. }
  rewrite Hside. simpl. destruct isFace; simpl.
  2:{ exists s. rewrite app_nil_r. done. }
  set (s0 := {| hs_faces := hs_faces s ++ [hullFace ni nj nk style];
                hs_edgeSet := hs_edgeSet s; hs_edges := hs_edges s |}).
  destruct (hullAddEdge_spec i j ni nj (i, j) s0) as (s1 & H1 & HE1 & Hf1 & Hs1 & Hk1 & He1);
    [lia | done | done | by left | done |].
  destruct (hullAddEdge_spec j k nj nk (j, k) s1) as (s2 & H2 & HE2 & Hf2 & Hs2 & Hk2 & He2);
    [lia | done | done | by left | done |].
  destruct (hullAddEdge_spec i k ni nk (k, i) s2) as (s3 & H3 & HE3 & Hf3 & Hs3 & Hk3 & He3);
    [lia | done | done | by right | done |].
  exists s3. rewrite H1. simpl. rewrite H2. simpl. rewrite H3. simpl.
  split; [done|]. split; [done|]. split; [|split].
  2:{ intros e He. rewrite Hf3, Hf2, Hf1. simpl.
      assert (e ∈ hs_edges s \/ e = hullEdge ni nj style
              \/ e = hullEdge nj nk style \/ e = hullEdge ni nk style)
        as [Hold | Hnew].
      { destruct He3 as [E3 | [_ E3]], He2 as [E2 | [_ E2]],
          He1 as [E1 | [_ E1]];
          rewrite E3, ?E2, ?E1 in He; simpl in He; set_solver. }
      - destruct (HEF e Hold) as (mi & mj & mk & Hin & Hcases).
        exists mi, mj, mk. split; [set_solver | done].
      - exists ni, nj, nk. split; [set_solver | done]. }
  - intros f Hin. rewrite Hf3, Hf2, Hf1 in Hin. simpl in Hin.
    apply elem_of_app in Hin as [Hin | Hin%list_elem_of_singleton].
    + destruct (HF f Hin) as (mi & mj & mk & ? & ? & ? & ? & ? & ? & ?).
      exists mi, mj, mk. repeat split; try done; set_solver.
    + exists ni, nj, nk.
      repeat split; try done; try (by eapply list_elem_of_lookup_2); set_solver.
  - by rewrite Hf3, Hf2, Hf1.
Qed.

(** The whole run: no fault, and the faces are those of the triples that
    pass the side test, in the order of the visit. *)
Lemma hullLoop_spec :
  exists s,
    forEachM (fun t => hullTriple nodes style t.1 t.2.1 t.2.2)
      (triples (List.length nodes))
      {| hs_faces := []; hs_edgeSet := ∅; hs_edges := [] |} = Some s
    /\ hullEdgesInv nodes style s /\ hullFacesInv nodes style s
    /\ hullEdgesFromFaces style s
    /\ hs_faces s = omap (faceOfTriple nodes style) (triples (List.length nodes)).
Proof.
  apply (forEachM_prefix (fun done s =>
    hullEdgesInv nodes style s /\ hullFacesInv nodes style s
    /\ hullEdgesFromFaces style s
    /\ hs_faces s = omap (faceOfTriple nodes style) done)).
  - repeat split; try done.
    + intros e He. simpl in He. by apply elem_of_nil in He.
    + intros f Hf. simpl in Hf. by apply elem_of_nil in Hf.
    + intros e He. simpl in He. by apply elem_of_nil in He.
  - intros done [i [j k]] rest s Hl (HE & HF & HEF & Hfaces).
    assert ((i, (j, k)) ∈ triples (List.length nodes)) as Hin
      by (rewrite Hl; set_solver).
    apply elem_of_triples in Hin as [Hijk Hk].
    destruct (hullTriple_spec i j k s Hijk Hk HE HF HEF)
      as (s' & H & HE' & HF' & HEF' & Hf').
    exists s'. simpl. split; [done|]. split; [done|]. split; [done|].
    split; [done|].
    rewrite Hf', Hfaces, omap_app. simpl.
    by destruct (faceOfTriple nodes style (i, (j, k))).
Qed.

End HullInvariant.

(** The hull never faults, and its faces are those of the triples that
    pass the side test. *)
Lemma computeConvexHull_spec nodes style :
  exists g, computeConvexHull nodes style = Some g
    /\ ((List.length nodes < 4)%nat -> g = emptyGraph)
    /\ ((4 <= List.length nodes)%nat ->
        faces g = omap (faceOfTriple nodes style) (triples (List.length nodes))
        /\ exists s, hullEdgesInv nodes style s /\ hullFacesInv nodes style s
             /\ hullEdgesFromFaces style s
             /\ edges g = hs_edges s /\ faces g = hs_faces s).
Proof.
  destruct (Nat.lt_ge_cases (List.length nodes) 4) as [Hn | Hn].
  - exists emptyGraph. unfold computeConvexHull.
    rewrite (proj2 (Nat.ltb_lt _ _) Hn). split; [done|]. split; [done | lia].
  - rewrite computeConvexHull_triples by done.
    destruct (hullLoop_spec nodes style) as (s & Hs & HE & HF & HEF & Hfaces).
    rewrite Hs. simpl. eexists. split; [reflexivity|]. split; [lia|].
    intros _. simpl. split; [done|]. by exists s.
Qed.

(** *** Degenerate triples *)

Lemma lengthSq_nonneg v : 0 <= lengthSq v.
Proof. unfold lengthSq. nra. Qed.

Lemma length_zero_inv v : Three.length v = 0 -> x v = 0 /\ y v = 0 /\ z v = 0.
Proof.
  unfold Three.length. intros H.
  apply sqrt_eq_0 in H; [|apply lengthSq_nonneg].
  unfold lengthSq in H. repeat split; nra.
Qed.

Lemma normalize_zero_length v : Three.length v = 0 -> normalize v = zero.
Proof.
  intros H. unfold normalize. rewrite decide_True by done.
  destruct (length_zero_inv v H) as (Hx & Hy & Hz).
  unfold divideScalar, multiplyScalar, zero. rewrite Hx, Hy, Hz.
  f_equal; lra.
Qed.

Lemma dot_zero_l v : dot zero v = 0.
Proof. unfold dot, zero. simpl. lra. Qed.

(** A degenerate triple always passes the side test: its normal is the
    zero vector, so that no node is at a significant distance. *)
Lemma faceOfTriple_degenerate nodes style i j k ni nj nk :
  nodes !! i = Some ni -> nodes !! j = Some nj -> nodes !! k = Some nk ->
  degenerate (pos ni) (pos nj) (pos nk) ->
  faceOfTriple nodes style (i, (j, k)) = Some (hullFace ni nj nk style).
Proof.
  intros Hi Hj Hk Hdeg. unfold faceOfTriple, normalOf. rewrite Hi, Hj, Hk. simpl.
  rewrite (normalize_zero_length _ Hdeg).
  rewrite sideLoop_no_significant; [done| |].
  - intros m nm _ _. rewrite dot_zero_l, Rabs_R0. lra.
  - intros m Hm. apply elem_of_range in Hm. lia.
Qed.

Lemma degenerate_face_emitted nodes style g i j k ni nj nk :
  computeConvexHull nodes style = Some g ->
  (4 <= List.length nodes)%nat -> (i < j < k)%nat ->
  nodes !! i = Some ni -> nodes !! j = Some nj -> nodes !! k = Some nk ->
  degenerate (pos ni) (pos nj) (pos nk) ->
  hullFace ni nj nk style ∈ faces g.
Proof.
  intros Hg Hn Hijk Hi Hj Hk Hdeg.
  destruct (computeConvexHull_spec nodes style) as (g' & Hg' & _ & Hfaces).
  rewrite Hg in Hg'. injection Hg' as <-.
  destruct (Hfaces Hn) as [-> _].
  apply list_elem_of_omap. exists (i, (j, k)). split.
  - apply elem_of_triples. split; [done|]. by eapply lookup_lt_Some.
  - by apply faceOfTriple_degenerate.
Qed.

(** C2 (as amended): the hull never raises a fault; it has no guard
    against a zero normal, and a degenerate triple (of a list of at least
    4 nodes) is always emitted as a face, since the normalised zero
    vector puts every node at distance 0 of the plane. *)
Theorem C2_degenerate_triple_is_face (nodes : list NodeData)
    (style : ConnectionStyle) :
  exists g, computeConvexHull nodes style = Some g
    /\ forall i j k ni nj nk,
         (4 <= List.length nodes)%nat -> (i < j < k)%nat ->
         nodes !! i = Some ni -> nodes !! j = Some nj -> nodes !! k = Some nk ->
         degenerate (pos ni) (pos nj) (pos nk) ->
         hullFace ni nj nk style ∈ faces g.
Proof.
  destruct (computeConvexHull_spec nodes style) as (g & Hg & _).
  exists g. split; [done|]. intros. by eapply degenerate_face_emitted.
Qed.

Lemma collinearNodes_degenerate :
  degenerate (Samples.vec 0 0 0) (Samples.vec 1 0 0) (Samples.vec 2 0 0).
Proof.
  unfold degenerate, Three.length, lengthSq. simpl.
  match goal with |- sqrt ?e = 0 => replace e with 0 by ring end.
  apply sqrt_0.
Qed.

Lemma C2_degenerate_triple_is_face_witness :
  exists g, computeConvexHull Samples.collinearNodes CurveIn = Some g
    /\ hullFace (Samples.node "n0" (Samples.vec 0 0 0))
         (Samples.node "n1" (Samples.vec 1 0 0))
         (Samples.node "n2" (Samples.vec 2 0 0)) CurveIn ∈ faces g.
Proof.
  destruct (C2_degenerate_triple_is_face Samples.collinearNodes CurveIn)
    as (g & Hg & Hface).
  exists g. split; [exact Hg|].
  apply (Hface 0 1 2)%nat; [unfold Samples.collinearNodes; simpl; lia
                            | lia | reflexivity | reflexivity
                            | reflexivity | exact collinearNodes_degenerate].
Defined.

(** Against C2 as stated: the collinear triple of [collinearNodes] is a
    face of the hull. *)
Lemma C2_collinear_triple_emitted :
  exists g f, computeConvexHull Samples.collinearNodes CurveIn = Some g
    /\ f ∈ faces g
    /\ nodeIds f = ("n0", "n1", "n2")
    /\ (let '(p1, p2, p3) := positions f in degenerate p1 p2 p3).
Proof.
  destruct (computeConvexHull_spec Samples.collinearNodes CurveIn)
    as (g & Hg & _).
  exists g, (hullFace (Samples.node "n0" (Samples.vec 0 0 0))
               (Samples.node "n1" (Samples.vec 1 0 0))
               (Samples.node "n2" (Samples.vec 2 0 0)) CurveIn).
  split; [done|]. split; [|split; [reflexivity | exact collinearNodes_degenerate]].
  apply (degenerate_face_emitted Samples.collinearNodes CurveIn g 0 1 2)%nat;
    [done | unfold Samples.collinearNodes; simpl; lia | lia | reflexivity
     | reflexivity | reflexivity | exact collinearNodes_degenerate].
Qed.

(** *** The side test does not depend on the order of the three corners *)

Lemma elem_of_range_lookup (nodes : list NodeData) m nm :
  nodes !! m = Some nm -> m ∈ range 0 (List.length nodes).
Proof. intros H%lookup_lt_Some. apply elem_of_range. lia. Qed.

(** What [faceOfTriple] returns. *)
Lemma faceOfTriple_char nodes style i j k ni nj nk :
  nodes !! i = Some ni -> nodes !! j = Some nj -> nodes !! k = Some nk ->
  (forall f, faceOfTriple nodes style (i, (j, k)) = Some f ->
     f = hullFace ni nj nk style)
  /\ (faceOfTriple nodes style (i, (j, k)) = Some (hullFace ni nj nk style)
      <-> sidesAgree nodes (range 0 (List.length nodes)) i j k (pos ni)
            (normalOf (pos ni) (pos nj) (pos nk))).
Proof.
  intros Hi Hj Hk. unfold faceOfTriple. rewrite Hi, Hj, Hk.
  cbn [mbind option_bind].
  set (normal := normalOf _ _ _).
  assert (forall m, m ∈ range 0 (List.length nodes) -> (m < List.length nodes)%nat)
    as Hl by (intros m Hm%elem_of_range; lia).
  destruct (sideLoop_Some nodes i j k (pos ni) normal _ (0, true) Hl)
    as [[side isFace] Hrun].
  rewrite Hrun. cbn [mbind option_bind].
  pose proof (sideLoop_char nodes i j k (pos ni) normal _ side isFace Hl Hrun)
    as Hchar.
  destruct isFace.
  - split; [by intros f [= <-]|]. split; [intros _; by apply Hchar | done].
  - split; [done|]. split; [done|]. intros H%Hchar. done.
Qed.

Lemma normalize_scale v :
  exists t, normalize v = multiplyScalar v t
    /\ (forall w, lengthSq w = lengthSq v -> normalize w = multiplyScalar w t).
Proof.
  exists (1 / (if decide (Three.length v = 0) then 1 else Three.length v)).
  split; [done|]. intros w Hw. unfold normalize, divideScalar, Three.length.
  by rewrite Hw.
Qed.

Lemma signedDistance_swap23 p1 p2 p3 nm :
  signedDistance (normalOf p1 p3 p2) p1 nm
  = - signedDistance (normalOf p1 p2 p3) p1 nm.
Proof.
  unfold signedDistance, normalOf.
  destruct (normalize_scale (crossVectors (subVectors p2 p1) (subVectors p3 p1)))
    as (t & -> & Hother).
  rewrite (Hother (crossVectors (subVectors p3 p1) (subVectors p2 p1)))
    by (unfold lengthSq; simpl; ring).
  unfold dot. simpl. ring.
Qed.

Lemma signedDistance_swap12 p1 p2 p3 nm :
  signedDistance (normalOf p2 p1 p3) p2 nm
  = - signedDistance (normalOf p1 p2 p3) p1 nm.
Proof.
  unfold signedDistance, normalOf.
  destruct (normalize_scale (crossVectors (subVectors p2 p1) (subVectors p3 p1)))
    as (t & -> & Hother).
  rewrite (Hother (crossVectors (subVectors p1 p2) (subVectors p3 p2)))
    by (unfold lengthSq; simpl; ring).
  unfold dot. simpl. ring.
Qed.

(** The side test carries over along a renumbering of the nodes that
    keeps or flips every signed distance. *)
Lemma sidesAgree_transfer nodes nodes' (renumber : nat -> nat)
    i j k i' j' k' p1 normal p1' normal' eps :
  (forall m, nodes !! renumber m = nodes' !! m) ->
  (forall m, m <> i' /\ m <> j' /\ m <> k' ->
     renumber m <> i /\ renumber m <> j /\ renumber m <> k) ->
  eps = 1 \/ eps = -1 ->
  (forall nm, signedDistance normal' p1' nm = eps * signedDistance normal p1 nm) ->
  sidesAgree nodes (range 0 (List.length nodes)) i j k p1 normal ->
  sidesAgree nodes' (range 0 (List.length nodes')) i' j' k' p1' normal'.
Proof.
  intros Hre Hother Heps Hdist Hagree m m' nm nm' _ _ Hm Hm' Ho Ho' Hs Hs'.
  rewrite <- Hre in Hm, Hm'. rewrite !Hdist in *.
  assert (forall d, significant (eps * d) -> significant d) as Hsig.
  { intros d. destruct Heps as [-> | ->].
    - by rewrite Rmult_1_l.
    - replace (-1 * d) with (- d) by ring. apply significant_opp. }
  pose proof (Hagree _ _ nm nm' (elem_of_range_lookup _ _ _ Hm)
                (elem_of_range_lookup _ _ _ Hm') Hm Hm' (Hother _ Ho)
                (Hother _ Ho') (Hsig _ Hs) (Hsig _ Hs')) as Heq.
  destruct Heps as [-> | ->].
  - by rewrite !Rmult_1_l.
  - replace (-1 * signedDistance normal p1 nm)
      with (- signedDistance normal p1 nm) by ring.
    replace (-1 * signedDistance normal p1 nm')
      with (- signedDistance normal p1 nm') by ring.
    rewrite !Math_sign_opp. by rewrite Heq.
Qed.

(** *** Reordering the nodes: the faces *)

Lemma lookup_swapIndex {A} (l1 l2 : list A) x y m :
  (l1 ++ y :: x :: l2) !! swapIndex (List.length l1) m
  = (l1 ++ x :: y :: l2) !! m.
Proof.
  unfold swapIndex. repeat case_bool_decide; subst.
  - rewrite (lookup_app_r l1 _ (S _)) by lia.
    rewrite list_lookup_middle by done.
    by replace (S (List.length l1) - List.length l1)%nat with 1%nat by lia.
  - rewrite list_lookup_middle by done.
    rewrite (lookup_app_r l1) by lia.
    by replace (S (List.length l1) - List.length l1)%nat with 1%nat by lia.
  - destruct (Nat.lt_ge_cases m (List.length l1)) as [Hlt | Hge].
    + by rewrite !lookup_app_l.
    + rewrite !lookup_app_r by lia.
      destruct (m - List.length l1)%nat as [|[|r]] eqn:E; [lia | lia | done].
Qed.

Lemma swapIndex_involutive a m : swapIndex a (swapIndex a m) = m.
Proof. unfold swapIndex. repeat case_bool_decide; lia. Qed.

Lemma sameFace_refl f : sameFace f f.
Proof. unfold sameFace. reflexivity. Qed.

Lemma sameFace_trans f g h : sameFace f g -> sameFace g h -> sameFace f h.
Proof. unfold sameFace. intros H1 H2. by rewrite H1. Qed.

Lemma sameFace_swap12 ni nj nk style :
  sameFace (hullFace ni nj nk style) (hullFace nj ni nk style).
Proof. unfold sameFace, faceCorners, hullFace. simpl. apply Permutation_swap. Qed.

Lemma sameFace_swap23 ni nj nk style :
  sameFace (hullFace ni nj nk style) (hullFace ni nk nj style).
Proof.
  unfold sameFace, faceCorners, hullFace. simpl.
  apply Permutation_skip, Permutation_swap.
Qed.

Lemma facesIncluded_refl g : facesIncluded g g.
Proof. intros f Hf. exists f. split; [done | apply sameFace_refl]. Qed.

Lemma facesIncluded_trans g1 g2 g3 :
  facesIncluded g1 g2 -> facesIncluded g2 g3 -> facesIncluded g1 g3.
Proof.
  intros H12 H23 f Hf. destruct (H12 f Hf) as (f2 & Hf2 & Hs2).
  destruct (H23 f2 Hf2) as (f3 & Hf3 & Hs3).
  exists f3. split; [done|]. by eapply sameFace_trans.
Qed.

(** A face of the hull is the face of a triple that passes the side
    test. *)
Lemma elem_of_hull_faces nodes style g f :
  computeConvexHull nodes style = Some g ->
  f ∈ faces g <->
  (4 <= List.length nodes)%nat
  /\ exists i j k ni nj nk,
       (i < j < k)%nat /\ nodes !! i = Some ni /\ nodes !! j = Some nj
       /\ nodes !! k = Some nk /\ f = hullFace ni nj nk style
       /\ sidesAgree nodes (range 0 (List.length nodes)) i j k (pos ni)
            (normalOf (pos ni) (pos nj) (pos nk)).
Proof.
  intros Hg.
  destruct (computeConvexHull_spec nodes style) as (g' & Hg' & Hsmall & Hbig).
  rewrite Hg in Hg'. injection Hg' as <-.
  destruct (Nat.lt_ge_cases (List.length nodes) 4) as [Hn | Hn].
  { rewrite (Hsmall Hn). simpl. split; [by intros ?%elem_of_nil | lia]. }
  destruct (Hbig Hn) as [-> _]. rewrite list_elem_of_omap. split.
  - intros ([i [j k]] & Hin & Hface). split; [done|].
    apply elem_of_triples in Hin as [Hijk Hk].
    destruct (lookup_lt_is_Some_2 nodes i ltac:(lia)) as [ni Hi].
    destruct (lookup_lt_is_Some_2 nodes j ltac:(lia)) as [nj Hj].
    destruct (lookup_lt_is_Some_2 nodes k ltac:(lia)) as [nk Hk'].
    destruct (faceOfTriple_char nodes style i j k ni nj nk Hi Hj Hk')
      as [Hval Hiff].
    pose proof (Hval f Hface) as ->.
    exists i, j, k, ni, nj, nk. repeat split; try done; try lia.
    by apply Hiff.
  - intros (_ & i & j & k & ni & nj & nk & Hijk & Hi & Hj & Hk & -> & Hagree).
    exists (i, (j, k)). split.
    + apply elem_of_triples. split; [done|]. by eapply lookup_lt_Some.
    + by apply (faceOfTriple_char nodes style i j k ni nj nk).
Qed.

(** Exchanging two adjacent nodes keeps every face. *)
Lemma hull_faces_swap l1 l2 x y style g g' :
  computeConvexHull (l1 ++ x :: y :: l2) style = Some g ->
  computeConvexHull (l1 ++ y :: x :: l2) style = Some g' ->
  facesIncluded g g'.
Proof.
  intros Hg Hg' f Hf.
  apply (elem_of_hull_faces _ _ _ _ Hg) in Hf
    as (Hn & i & j & k & ni & nj & nk & Hijk & Hi & Hj & Hk & -> & Hagree).
  set (a := List.length l1).
  assert (List.length (l1 ++ y :: x :: l2) = List.length (l1 ++ x :: y :: l2))
    as Hlen by (rewrite !length_app; simpl; lia).
  assert (forall m, (l1 ++ x :: y :: l2) !! swapIndex a m
                    = (l1 ++ y :: x :: l2) !! m) as Hre.
  { intros m. apply (lookup_swapIndex l1 l2 y x). }
  assert (forall m nm, (l1 ++ x :: y :: l2) !! m = Some nm ->
            (l1 ++ y :: x :: l2) !! swapIndex a m = Some nm) as Hto.
  { intros m nm <-. apply lookup_swapIndex. }
  destruct (decide (i = a /\ j = S a)) as [[Hia Hja] | Hcase1];
    [|destruct (decide (j = a /\ k = S a)) as [[Hja Hka] | Hcase2]].
  - (* the first two corners are exchanged *)
    exists (hullFace nj ni nk style). split; [|apply sameFace_swap12].
    apply (elem_of_hull_faces _ _ _ _ Hg'). split; [lia|].
    exists i, j, k, nj, ni, nk.
    pose proof (Hto _ _ Hi) as Hi'. pose proof (Hto _ _ Hj) as Hj'.
    pose proof (Hto _ _ Hk) as Hk'. unfold swapIndex in Hi', Hj', Hk'.
    rewrite !bool_decide_eq_true_2 in Hi' by lia.
    rewrite (bool_decide_eq_false_2 (j = a)),
      (bool_decide_eq_true_2 (j = S a)) in Hj' by lia.
    rewrite !bool_decide_eq_false_2 in Hk' by lia.
    subst i j.
    split; [lia|]. split; [done|]. split; [done|]. split; [done|]. split; [done|].
    apply (sidesAgree_transfer (l1 ++ x :: y :: l2) (l1 ++ y :: x :: l2)
             (swapIndex a) a (S a) k a (S a) k
             (pos ni) (normalOf (pos ni) (pos nj) (pos nk))
             (pos nj) (normalOf (pos nj) (pos ni) (pos nk)) (-1));
      [exact Hre | | by right | | exact Hagree].
    + intros m. unfold swapIndex. repeat case_bool_decide; lia.
    + intros nm. rewrite signedDistance_swap12. ring.
  - (* the last two corners are exchanged *)
    exists (hullFace ni nk nj style). split; [|apply sameFace_swap23].
    apply (elem_of_hull_faces _ _ _ _ Hg'). split; [lia|].
    exists i, j, k, ni, nk, nj.
    pose proof (Hto _ _ Hi) as Hi'. pose proof (Hto _ _ Hj) as Hj'.
    pose proof (Hto _ _ Hk) as Hk'. unfold swapIndex in Hi', Hj', Hk'.
    rewrite !bool_decide_eq_false_2 in Hi' by lia.
    rewrite (bool_decide_eq_true_2 (j = a)) in Hj' by lia.
    rewrite (bool_decide_eq_false_2 (k = a)),
      (bool_decide_eq_true_2 (k = S a)) in Hk' by lia.
    subst j k.
    split; [lia|]. split; [done|]. split; [done|]. split; [done|]. split; [done|].
    apply (sidesAgree_transfer (l1 ++ x :: y :: l2) (l1 ++ y :: x :: l2)
             (swapIndex a) i a (S a) i a (S a)
             (pos ni) (normalOf (pos ni) (pos nj) (pos nk))
             (pos ni) (normalOf (pos ni) (pos nk) (pos nj)) (-1));
      [exact Hre | | by right | | exact Hagree].
    + intros m. unfold swapIndex. repeat case_bool_decide; lia.
    + intros nm. rewrite signedDistance_swap23. ring.
  - (* the corners keep their order *)
    exists (hullFace ni nj nk style). split; [|apply sameFace_refl].
    apply (elem_of_hull_faces _ _ _ _ Hg'). split; [lia|].
    exists (swapIndex a i), (swapIndex a j), (swapIndex a k), ni, nj, nk.
    split; [unfold swapIndex; repeat case_bool_decide; lia|].
    split; [by apply Hto|]. split; [by apply Hto|]. split; [by apply Hto|].
    split; [done|].
    apply (sidesAgree_transfer (l1 ++ x :: y :: l2) (l1 ++ y :: x :: l2)
             (swapIndex a) i j k (swapIndex a i) (swapIndex a j) (swapIndex a k)
             (pos ni) (normalOf (pos ni) (pos nj) (pos nk))
             (pos ni) (normalOf (pos ni) (pos nj) (pos nk)) 1);
      [exact Hre | | by left | | exact Hagree].
    + intros m. unfold swapIndex. repeat case_bool_decide; lia.
    + intros nm. ring.
Qed.

(** The faces of the hull do not depend on the order of the nodes. *)
Lemma hull_faces_Permutation nodes nodes' style g g' :
  nodes ≡ₚ nodes' ->
  computeConvexHull nodes style = Some g ->
  computeConvexHull nodes' style = Some g' ->
  facesIncluded g g'.
Proof.
  intros Hperm. revert g g'.
  induction Hperm as [l | a b l1 l2 | l l' l'' _ IH1 _ IH2]
    using Permutation_ind_transp; intros g g' Hg Hg'.
  - rewrite Hg in Hg'. injection Hg' as <-. apply facesIncluded_refl.
  - by eapply hull_faces_swap.
  - destruct (computeConvexHull_spec l' style) as (g0 & Hg0 & _).
    eapply facesIncluded_trans; [by eapply IH1 | by eapply IH2].
Qed.

(** *** Faces and edges, for ids without the separator *)

Lemma hull_faces_have_edges nodes style g f :
  Forall (fun nd => dashFree (id nd)) nodes ->
  computeConvexHull nodes style = Some g ->
  f ∈ faces g -> faceEdgesPresent g f.
Proof.
  intros Hdash Hg Hf. rewrite Forall_forall in Hdash.
  destruct (computeConvexHull_spec nodes style) as (g' & Hg' & Hsmall & Hbig).
  rewrite Hg in Hg'. injection Hg' as <-.
  destruct (Nat.lt_ge_cases (List.length nodes) 4) as [Hn | Hn].
  { rewrite (Hsmall Hn) in Hf. simpl in Hf. by apply elem_of_nil in Hf. }
  destruct (Hbig Hn) as (_ & s & [Hset Hedges] & HF & _ & Hge & Hgf).
  rewrite Hgf in Hf.
  destruct (HF f Hf) as (ni & nj & nk & Hi & Hj & Hk & -> & Kij & Kjk & Kik).
  assert (forall na nb, na ∈ nodes -> nb ∈ nodes ->
            edgeKeyOf (id na) (id nb) ∈ hs_edgeSet s ->
            exists e, e ∈ edges g /\ nodeAId e = id na /\ nodeBId e = id nb) as Hpresent.
  { intros na nb Ha Hb Hkey. rewrite Hset in Hkey.
    apply KeyProps.elem_of_keys in Hkey as (e & He & Hk').
    destruct (Hedges e He) as (a & b & ma & mb & _ & Hma & Hmb & ->).
    apply list_elem_of_lookup_2 in Hma, Hmb.
    apply KeyProps.edgeKeyOf_inj in Hk' as [Hida Hidb];
      [|by apply Hdash|by apply Hdash].
    eexists. rewrite Hge. split; [exact He|]. done. }
  unfold faceEdgesPresent, pairPresent. simpl.
  destruct (Hpresent ni nj Hi Hj Kij) as (e1 & ? & ? & ?).
  destruct (Hpresent nj nk Hj Hk Kjk) as (e2 & ? & ? & ?).
  destruct (Hpresent ni nk Hi Hk Kik) as (e3 & ? & ? & ?).
  split; [|split]; [exists e1 | exists e2 | exists e3]; naive_solver.
Qed.

(** *** Reordering the nodes: the edges, for unique ids without the
    separator *)

Lemma getEdgeControlPoint_comm p q style :
  getEdgeControlPoint p q style = getEdgeControlPoint q p style.
Proof.
  unfold getEdgeControlPoint.
  assert (addVectors p q = addVectors q p) as ->; [|done].
  unfold addVectors. f_equal; ring.
Qed.

Lemma pairPresent_comm es a b : pairPresent es a b -> pairPresent es b a.
Proof. intros (e & He & H). exists e. tauto. Qed.

Lemma NoDup_ids_lookup (nodes : list NodeData) a b na nb :
  NoDup (id <$> nodes) ->
  nodes !! a = Some na -> nodes !! b = Some nb -> id na = id nb -> a = b.
Proof.
  intros Hnd Ha Hb Hid. eapply NoDup_lookup; [exact Hnd| |].
  - by rewrite list_lookup_fmap, Ha.
  - rewrite list_lookup_fmap, Hb. simpl. by rewrite Hid.
Qed.

Lemma NoDup_ids_elem_of (nodes : list NodeData) na nb :
  NoDup (id <$> nodes) -> na ∈ nodes -> nb ∈ nodes -> id na = id nb -> na = nb.
Proof.
  intros Hnd [a Ha]%list_elem_of_lookup_1 [b Hb]%list_elem_of_lookup_1 Hid.
  pose proof (NoDup_ids_lookup nodes a b na nb Hnd Ha Hb Hid) as ->.
  congruence.
Qed.

Lemma face_pair_present g m1 m2 m3 style ms mt :
  faceEdgesPresent g (hullFace m1 m2 m3 style) ->
  ms ∈ [m1; m2; m3] -> mt ∈ [m1; m2; m3] -> id ms <> id mt ->
  pairPresent (edges g) (id ms) (id mt).
Proof.
  unfold faceEdgesPresent, hullFace. simpl. intros (H12 & H23 & H31) Hs Ht Hne.
  pose proof (pairPresent_comm _ _ _ H12). pose proof (pairPresent_comm _ _ _ H23).
  pose proof (pairPresent_comm _ _ _ H31).
  repeat (apply elem_of_cons in Hs as [-> | Hs]);
    repeat (apply elem_of_cons in Ht as [-> | Ht]);
    try done; by apply elem_of_nil in Hs || by apply elem_of_nil in Ht.
Qed.

Lemma hull_edges_Permutation nodes nodes' style g g' :
  Forall (fun nd => dashFree (id nd)) nodes ->
  NoDup (id <$> nodes) ->
  nodes ≡ₚ nodes' ->
  computeConvexHull nodes style = Some g ->
  computeConvexHull nodes' style = Some g' ->
  edgesIncluded g g'.
Proof.
  intros Hdash Hnd Hperm Hg Hg' e He.
  assert (Forall (fun nd => dashFree (id nd)) nodes') as Hdash'
    by (by rewrite <- Hperm).
  assert (NoDup (id <$> nodes')) as Hnd' by (by rewrite <- Hperm).
  (* the edge is a side of a face of [g] *)
  destruct (computeConvexHull_spec nodes style) as (g0 & Hg0 & Hsmall & Hbig).
  rewrite Hg in Hg0. injection Hg0 as <-.
  destruct (Nat.lt_ge_cases (List.length nodes) 4) as [Hn | Hn].
  { rewrite (Hsmall Hn) in He. simpl in He. by apply elem_of_nil in He. }
  destruct (Hbig Hn) as (_ & s & _ & _ & HEF & Hge & Hgf).
  rewrite Hge in He. destruct (HEF e He) as (wi & wj & wk & Hface & Hside).
  rewrite <- Hgf in Hface.
  pose proof Hface as Hface0.
  apply (elem_of_hull_faces _ _ _ _ Hg) in Hface0
    as (_ & i & j & k & ni & nj & nk & Hijk & Hi & Hj & Hk & Heq & _).
  assert (exists a b na nb, a <> b /\ nodes !! a = Some na /\ nodes !! b = Some nb
            /\ e = hullEdge na nb style
            /\ cornerOf na ∈ faceCorners (hullFace wi wj wk style)
            /\ cornerOf nb ∈ faceCorners (hullFace wi wj wk style))
    as (a & b & na & nb & Hab & Ha & Hb & -> & Hca & Hcb).
  { pose proof Heq as Heq0.
    injection Heq0 as Hid1 Hid2 Hid3 Hp1 Hp2 Hp3 _ _ _ Hc1 Hc2 Hc3.
    rewrite Heq. unfold faceCorners, hullFace, cornerOf. simpl.
    destruct Hside as [-> | [-> | ->]].
    - exists i, j, ni, nj. unfold hullEdge.
      rewrite Hid1, Hid2, Hp1, Hp2, Hc1. 
      split; [lia|]. split; [done|]. split; [done|]. split; [done|].
      split; set_solver.
    - exists j, k, nj, nk. unfold hullEdge.
      rewrite Hid2, Hid3, Hp2, Hp3, Hc2. 
      split; [lia|]. split; [done|]. split; [done|]. split; [done|].
      split; set_solver.
    - exists i, k, ni, nk. unfold hullEdge.
      rewrite Hid1, Hid3, Hp1, Hp3, Hc1. 
      split; [lia|]. split; [done|]. split; [done|]. split; [done|].
      split; set_solver. }
  assert (id na <> id nb) as Hne.
  { intros Hid. apply Hab.
    exact (NoDup_ids_lookup nodes a b na nb Hnd Ha Hb Hid). }
  (* the same face in [g'] *)
  destruct (hull_faces_Permutation nodes nodes' style g g' Hperm Hg Hg' _ Hface)
    as (f' & Hf' & Hsame).
  pose proof Hf' as Hf'0.
  apply (elem_of_hull_faces _ _ _ _ Hg') in Hf'0
    as (Hn' & i' & j' & k' & m1 & m2 & m3 & _ & Hm1 & Hm2 & Hm3 & -> & _).
  unfold sameFace in Hsame. rewrite Hsame in Hca, Hcb.
  assert (forall nd, cornerOf nd ∈ faceCorners (hullFace m1 m2 m3 style) ->
            exists ms, ms ∈ [m1; m2; m3] /\ cornerOf ms = cornerOf nd) as Hcorner.
  { intros nd Hin. unfold faceCorners, hullFace in Hin. simpl in Hin.
    change [(id m1, pos m1, color m1); (id m2, pos m2, color m2);
            (id m3, pos m3, color m3)] with (cornerOf <$> [m1; m2; m3]) in Hin.
    apply list_elem_of_fmap in Hin as (ms & Heq' & Hms). by exists ms. }
  destruct (Hcorner na Hca) as (ms & Hms & Hcs).
  destruct (Hcorner nb Hcb) as (mt & Hmt & Hct).
  injection Hcs as Hids Hps _. injection Hct as Hidt Hpt _.
  assert (ms ∈ nodes' /\ mt ∈ nodes') as [Hms' Hmt'].
  { assert (forall m, m ∈ [m1; m2; m3] -> m ∈ nodes') as Hin.
    { intros m Hm. repeat (apply elem_of_cons in Hm as [-> | Hm]);
        try (by eapply list_elem_of_lookup_2). by apply elem_of_nil in Hm. }
    split; by apply Hin. }
  (* its side between the two corners is an edge of [g'] *)
  pose proof (hull_faces_have_edges nodes' style g' _ Hdash' Hg' Hf') as Hpresent.
  destruct (face_pair_present g' m1 m2 m3 style ms mt Hpresent Hms Hmt)
    as (e' & He' & Hids'); [congruence|].
  exists e'. split; [done|].
  destruct (computeConvexHull_spec nodes' style) as (g0 & Hg0 & _ & Hbig').
  rewrite Hg' in Hg0. injection Hg0 as <-.
  destruct (Hbig' Hn') as (_ & s' & [_ Hedges'] & _ & _ & Hge' & _).
  rewrite Hge' in He'.
  destruct (Hedges' e' He') as (a' & b' & ma & mb & _ & Hma & Hmb & ->).
  apply list_elem_of_lookup_2 in Hma, Hmb. simpl in Hids'.
  unfold sameEdge, edgeEnds, hullEdge. simpl.
  destruct Hids' as [[HA HB] | [HA HB]].
  - pose proof (NoDup_ids_elem_of nodes' ma ms Hnd' Hma Hms' HA) as ->.
    pose proof (NoDup_ids_elem_of nodes' mb mt Hnd' Hmb Hmt' HB) as ->.
    rewrite Hids, Hidt, Hps, Hpt. done.
  - pose proof (NoDup_ids_elem_of nodes' ma mt Hnd' Hma Hmt' HA) as ->.
    pose proof (NoDup_ids_elem_of nodes' mb ms Hnd' Hmb Hms' HB) as ->.
    rewrite Hids, Hidt, Hps, Hpt. split; [apply Permutation_swap|].
    apply getEdgeControlPoint_comm.
Qed.

(** For unique ids without the separator, the hull of a reordered list
    has the same faces and the same edges, up to the order of the
    corners of a face and of the ends of an edge. *)
Lemma hull_Permutation nodes nodes' style g g' :
  Forall (fun nd => dashFree (id nd)) nodes ->
  NoDup (id <$> nodes) ->
  nodes ≡ₚ nodes' ->
  computeConvexHull nodes style = Some g ->
  computeConvexHull nodes' style = Some g' ->
  (facesIncluded g g' /\ facesIncluded g' g)
  /\ (edgesIncluded g g' /\ edgesIncluded g' g).
Proof.
  intros Hdash Hnd Hperm Hg Hg'.
  assert (Forall (fun nd => dashFree (id nd)) nodes') as Hdash'
    by (by rewrite <- Hperm).
  assert (NoDup (id <$> nodes')) as Hnd' by (by rewrite <- Hperm).
  assert (nodes' ≡ₚ nodes) as Hperm' by done.
  repeat split.
  - exact (hull_faces_Permutation nodes nodes' style g g' Hperm Hg Hg').
  - exact (hull_faces_Permutation nodes' nodes style g' g Hperm' Hg' Hg).
  - exact (hull_edges_Permutation nodes nodes' style g g' Hdash Hnd Hperm Hg Hg').
  - exact (hull_edges_Permutation nodes' nodes style g' g Hdash' Hnd' Hperm' Hg' Hg).
Qed.

(** *** Lists of four nodes

    With four nodes the side test of a triple meets a single other node,
    so that every triple is a face; the edges then depend on the keys
    only. *)

Lemma hullTriple_face nodes style i j k s f :
  faceOfTriple nodes style (i, (j, k)) = Some f ->
  hullTriple nodes style i j k s
  = forEachM (hullAddEdge nodes style) [(i, j); (j, k); (k, i)]
      {| hs_faces := hs_faces s ++ [f]; hs_edgeSet := hs_edgeSet s;
         hs_edges := hs_edges s |}.
Proof.
  unfold faceOfTriple, hullTriple, normalOf.
  destruct (nodes !! i) as [ni|]; [|done].
  destruct (nodes !! j) as [nj|]; [|done].
  destruct (nodes !! k) as [nk|]; [|done]. simpl.
  destruct (forEachM _ _ _) as [[side isFace]|]; [|done]. simpl.
  destruct isFace; [|done]. by intros [= <-].
Qed.

Lemma sideStep_skip nodes i j k p1 normal m st :
  m = i \/ m = j \/ m = k ->
  sideStep nodes i j k p1 normal m st = Some st.
Proof.
  intros Hm. unfold sideStep. destruct st as [side isFace].
  destruct isFace; [|done]. simpl.
  repeat case_bool_decide; simpl; try done. all: try lia.
Qed.

Lemma sideStep_first nodes i j k p1 normal m nm :
  nodes !! m = Some nm ->
  exists side, sideStep nodes i j k p1 normal m (0, true) = Some (side, true).
Proof.
  intros Hm. unfold sideStep. simpl. rewrite Hm. simpl.
  destruct (_ || _); [by eexists|].
  destruct (Rltb _ _); [|by eexists].
  rewrite bool_decide_eq_true_2 by done. by eexists.
Qed.

Lemma faceOfTriple_four n0 n1 n2 n3 style i j k ni nj nk :
  (i < j < k)%nat -> (k < 4)%nat ->
  [n0; n1; n2; n3] !! i = Some ni -> [n0; n1; n2; n3] !! j = Some nj ->
  [n0; n1; n2; n3] !! k = Some nk ->
  faceOfTriple [n0; n1; n2; n3] style (i, (j, k)) = Some (hullFace ni nj nk style).
Proof.
  intros Hijk Hk Hi Hj Hk'. unfold faceOfTriple, normalOf. rewrite Hi, Hj, Hk'.
  cbn [mbind option_bind].
  change (List.length [n0; n1; n2; n3]) with 4%nat.
  set (normal := normalize _). set (nodes := [n0; n1; n2; n3]).
  assert (exists side, forEachM (sideStep nodes i j k (pos ni) normal)
             (range 0 4) (0, true) = Some (side, true)) as [side ->]; [|done].
  change (range 0 4) with [0; 1; 2; 3]%nat.
  assert ((i = 0 /\ j = 1 /\ k = 2) \/ (i = 0 /\ j = 1 /\ k = 3)
          \/ (i = 0 /\ j = 2 /\ k = 3) \/ (i = 1 /\ j = 2 /\ k = 3))%nat
    as [H | [H | [H | H]]] by lia; destruct H as (-> & -> & ->).
  all: cbn [forEachM];
    repeat (first
      [ rewrite sideStep_skip by lia
      | match goal with
        | |- context [sideStep ?nds ?a ?b ?c ?p ?nrm ?m (0, true)] =>
            let sd := fresh "sd" in
            let H := fresh "H" in
            destruct (sideStep_first nds a b c p nrm m _ eq_refl) as [sd H];
            rewrite H; clear H
        end ];
      cbn [mbind option_bind]).
  all: by eexists.
Qed.

Ltac eval_member :=
  repeat match goal with
  | |- context [bool_decide (?k ∈ ?S)] =>
      let b := eval vm_compute in (bool_decide (k ∈ S)) in
      replace (bool_decide (k ∈ S)) with b by (vm_compute; reflexivity);
      cbn match
  end.


Ltac hull_eval :=
  cbn [forEachM fst snd];
  repeat match goal with
  | |- context [hullTriple ?nds ?st ?i ?j ?k ?s] =>
      rewrite (hullTriple_face nds st i j k s _
                 (faceOfTriple_four _ _ _ _ st i j k _ _ _
                    ltac:(lia) ltac:(lia) eq_refl eq_refl eq_refl));
      cbn [forEachM]; unfold hullAddEdge;
      cbn [fst snd Nat.min Nat.max lookup list_lookup mbind option_bind
           hs_edgeSet hs_edges hs_faces Samples.node id pos color];
      repeat (eval_member;
              cbn [mbind option_bind hs_edgeSet hs_edges hs_faces])
  end.

Lemma hull_dashed style :
  exists g, computeConvexHull Samples.dashedNodes style = Some g /\ 
   (edgeIds <$> edges g) = [("a", "b-c"); ("b-c", "a-b"); ("a", "a-b"); ("b-c", "c"); ("a", "c")]
   /\ nodeIds <$> faces g = [("a", "b-c", "a-b"); ("a", "b-c", "c"); ("a", "a-b", "c"); ("b-c", "a-b", "c")].
Proof.
  rewrite computeConvexHull_triples by (unfold Samples.dashedNodes; simpl; lia).
  unfold Samples.dashedNodes.
  change (triples (List.length _)) with [(0,(1,2)); (0,(1,3)); (0,(2,3)); (1,(2,3))]%nat.
  hull_eval. eexists. split; [reflexivity|]. split; reflexivity.
Qed.

Lemma hull_dashed_swapped style :
  exists g, computeConvexHull Samples.dashedNodesSwapped style = Some g /\ 
   (edgeIds <$> edges g) = [("a", "b-c"); ("b-c", "c"); ("a", "c"); ("b-c", "a-b"); ("a", "a-b"); ("c", "a-b")]
   /\ nodeIds <$> faces g = [("a", "b-c", "c"); ("a", "b-c", "a-b"); ("a", "c", "a-b"); ("b-c", "c", "a-b")].
Proof.
  rewrite computeConvexHull_triples by (unfold Samples.dashedNodesSwapped; simpl; lia).
  unfold Samples.dashedNodesSwapped.
  change (triples (List.length _)) with [(0,(1,2)); (0,(1,3)); (0,(2,3)); (1,(2,3))]%nat.
  hull_eval. eexists. split; [reflexivity|]. split; reflexivity.
Qed.

Lemma pairPresent_edgeIds es a b :
  pairPresent es a b <-> (a, b) ∈ edgeIds <$> es \/ (b, a) ∈ edgeIds <$> es.
Proof.
  unfold pairPresent. rewrite !list_elem_of_fmap. unfold edgeIds. split.
  - intros (e & He & [[<- <-] | [<- <-]]); [left | right]; by exists e.
  - intros [(e & [= -> ->] & He) | (e & [= -> ->] & He)]; exists e; naive_solver.
Qed.

(** C3, at a list of four nodes with unique ids of which two contain the
    separator: the hull returns the face of the nodes ["a"], ["a-b"],
    ["c"], and no edge between ["a-b"] and ["c"], whose key ["a-b-c"] is
    also the key of the edge between ["a"] and ["b-c"]. *)
Theorem C3_face_without_edge :
  exists g f, useGraphData Samples.dashedNodes Samples.hullSettings = Some g
    /\ f ∈ faces g
    /\ nodeIds f = ("a", "a-b", "c")
    /\ ~ pairPresent (edges g) "a-b" "c"
    /\ ~ faceEdgesPresent g f.
Proof.
  destruct (hull_dashed CurveIn) as (g & Hg & He & Hf).
  assert (~ pairPresent (edges g) "a-b" "c") as Hno.
  { rewrite pairPresent_edgeIds, He. set_solver. }
  assert (("a", "a-b", "c") ∈ nodeIds <$> faces g) as Hin
    by (rewrite Hf; set_solver).
  apply list_elem_of_fmap in Hin as (f & Hids & Hin).
  exists g, f. split; [exact Hg|]. split; [done|]. split; [done|].
  split; [done|].
  unfold faceEdgesPresent. rewrite <- Hids. tauto.
Qed.

(** C9, at the same list and the list with its last two nodes exchanged:
    the hull of the second has an edge between ["a-b"] and ["c"] (the key
    is now ["c-a-b"]), the hull of the first has none, so that the edges
    of the second are not all edges of the first. *)
Theorem C9_reordering_changes_edges :
  Samples.dashedNodes ≡ₚ Samples.dashedNodesSwapped
  /\ exists g g',
       computeConvexHull Samples.dashedNodes CurveIn = Some g
       /\ computeConvexHull Samples.dashedNodesSwapped CurveIn = Some g'
       /\ ~ pairPresent (edges g) "a-b" "c"
       /\ pairPresent (edges g') "a-b" "c"
       /\ List.length (edges g) = 5%nat /\ List.length (edges g') = 6%nat
       /\ ~ edgesIncluded g' g.
Proof.
  split.
  { unfold Samples.dashedNodes, Samples.dashedNodesSwapped.
    do 2 apply Permutation_skip. apply Permutation_swap. }
  destruct (hull_dashed CurveIn) as (g & Hg & He & _).
  destruct (hull_dashed_swapped CurveIn) as (g' & Hg' & He' & _).
  exists g, g'. split; [done|]. split; [done|].
  assert (~ pairPresent (edges g) "a-b" "c") as Hno
    by (rewrite pairPresent_edgeIds, He; set_solver).
  assert (pairPresent (edges g') "a-b" "c") as Hyes
    by (rewrite pairPresent_edgeIds, He'; set_solver).
  split; [done|]. split; [done|].
  split; [by rewrite <- (length_fmap edgeIds), He|].
  split; [by rewrite <- (length_fmap edgeIds), He'|].
  intros Hincl. apply Hno.
  destruct Hyes as (e' & He'in & Hids).
  destruct (Hincl e' He'in) as (e & Hein & Hends & _).
  exists e. split; [done|].
  unfold edgeEnds in Hends. apply Permutation_length_2 in Hends.
  destruct Hends as [[[= HA _] [= HB _]] | [[= HA _] [= HB _]]];
    rewrite <- HA, <- HB; tauto.
Qed.

End HullProps.

(** ** k nearest neighbours *)

Module KnnProps.
Import Three SkillSphere GraphStatements.

(** *** Sorting and filtering *)

Lemma insertSorted_Permutation {A} (leb : A -> A -> bool) a l :
  insertSorted leb a l ≡ₚ a :: l.
Proof.
  induction l as [|b l IH]; simpl; [done|].
  destruct (leb a b); [done|]. rewrite IH. apply Permutation_swap.
Qed.

Lemma sortBy_Permutation {A} (leb : A -> A -> bool) l : sortBy leb l ≡ₚ l.
Proof.
  induction l as [|a l IH]; simpl; [done|].
  by rewrite insertSorted_Permutation, IH.
Qed.

Lemma sortStrings_pair a b :
  sortStrings [a; b] = if String.leb a b then [a; b] else [b; a].
Proof. reflexivity. Qed.

Lemma pairKey_leb a b : String.leb a b = true -> pairKey a b = edgeKeyOf a b.
Proof. intros H. unfold pairKey. rewrite sortStrings_pair, H. done. Qed.

Lemma pairKey_comm a b : pairKey a b = pairKey b a.
Proof.
  unfold pairKey. rewrite !sortStrings_pair.
  destruct (String.leb a b) eqn:Hab, (String.leb b a) eqn:Hba; try done.
  - by rewrite (String.leb_antisym a b Hab Hba).
  - destruct (String.leb_total a b); congruence.
Qed.

(** The two ids of the key of a pair, smaller first. *)
Lemma pairKey_sorted a b :
  exists a' b', pairKey a b = edgeKeyOf a' b' /\ String.leb a' b' = true
    /\ ((a' = a /\ b' = b) \/ (a' = b /\ b' = a)).
Proof.
  unfold pairKey. rewrite sortStrings_pair.
  destruct (String.leb a b) eqn:Hab.
  - exists a, b. naive_solver.
  - exists b, a. split; [done|]. split; [|naive_solver].
    destruct (String.leb_total a b); congruence.
Qed.

Lemma elem_of_filterIndex {A} (keep : nat -> bool) (l : list A) a :
  a ∈ filterIndex keep l <-> exists j, keep j = true /\ l !! j = Some a.
Proof.
  unfold filterIndex. rewrite list_elem_of_bind. split.
  - intros ([j b] & Hin & Hjb). simpl in Hin.
    apply elem_of_lookup_imap in Hjb as (j' & b' & [= <- <-] & Hl).
    destruct (keep j) eqn:Hk; [|by apply elem_of_nil in Hin].
    apply list_elem_of_singleton in Hin as ->. by exists j.
  - intros (j & Hk & Hl). exists (j, a). simpl. rewrite Hk.
    split; [set_solver|]. apply elem_of_lookup_imap. by exists j, a.
Qed.

(** *** The neighbour pass *)

Lemma adjAdd_spec a b adj :
  exists adj', adjAdd a b adj = Some adj'
    /\ (forall x sx y, adj' !! x = Some sx -> y ∈ sx ->
          (x = a /\ y = b) \/ exists sx0, adj !! x = Some sx0 /\ y ∈ sx0)
    /\ (forall x sx0 y, adj !! x = Some sx0 -> y ∈ sx0 ->
          exists sx, adj' !! x = Some sx /\ y ∈ sx)
    /\ (exists sa, adj' !! a = Some sa /\ b ∈ sa).
Proof.
  unfold adjAdd. case_bool_decide as Hs.
  - destruct Hs as [sa Hsa]. rewrite Hsa. simpl. eexists. split; [done|].
    split; [|split].
    + intros x sx y Hx Hy. destruct (decide (x = a)) as [-> | Hne].
      * rewrite lookup_insert_eq in Hx. injection Hx as <-.
        apply elem_of_union in Hy as [Hy | Hy%elem_of_singleton]; [|by left].
        right. by exists sa.
      * rewrite lookup_insert_ne in Hx by done. right. by exists sx.
    + intros x sx0 y Hx Hy. destruct (decide (x = a)) as [-> | Hne].
      * rewrite lookup_insert_eq. eexists. split; [done|].
        rewrite Hsa in Hx. injection Hx as <-. set_solver.
      * rewrite lookup_insert_ne by done. by exists sx0.
    + rewrite lookup_insert_eq. eexists. split; [done|]. set_solver.
  - rewrite lookup_insert_eq. simpl. eexists. split; [done|].
    assert (adj !! a = None) as Hnone
      by (destruct (adj !! a) eqn:E; [by destruct Hs; eexists | done]).
    split; [|split].
    + intros x sx y Hx Hy. destruct (decide (x = a)) as [-> | Hne].
      * rewrite lookup_insert_eq in Hx. injection Hx as <-. left. set_solver.
      * rewrite !lookup_insert_ne in Hx by done. right. by exists sx.
    + intros x sx0 y Hx Hy. destruct (decide (x = a)) as [-> | Hne].
      * congruence.
      * rewrite !lookup_insert_ne by done. by exists sx0.
    + rewrite lookup_insert_eq. eexists. split; [done|]. set_solver.
Qed.

Lemma find_id_Some (nodes : list NodeData) (name : string) :
  name ∈ id <$> nodes ->
  exists nd, List.find (fun x => bool_decide (id x = name)) nodes = Some nd
    /\ nd ∈ nodes /\ id nd = name.
Proof.
  intros (nd0 & -> & Hin)%list_elem_of_fmap.
  destruct (List.find _ nodes) as [nd|] eqn:Hfind.
  - apply find_some in Hfind as [Hin' Hid].
    exists nd. split; [done|]. split; [by apply list_elem_of_In|].
    by apply bool_decide_eq_true_1 in Hid.
  - apply list_elem_of_In in Hin.
    pose proof (find_none _ _ Hfind nd0 Hin) as Hf. simpl in Hf.
    by rewrite bool_decide_eq_true_2 in Hf.
Qed.

Section NeighbourPass.

Variables (nodes : list NodeData) (style : ConnectionStyle).

Lemma knnNeighbor_spec i j nodeA nj (n : string * R) s :
  i <> j -> nodes !! i = Some nodeA -> nodes !! j = Some nj -> n.1 = id nj ->
  knnInv nodes s ->
  exists s', knnNeighbor nodes style nodeA n s = Some s'
    /\ knnInv nodes s'
    /\ ks_uniqueEdgeKeys s ⊆ ks_uniqueEdgeKeys s'
    /\ pairKey (id nodeA) (id nj) ∈ ks_uniqueEdgeKeys s'.
Proof.
  intros Hij Hi Hj Hn (Hset & Hnodup & Hedges & Hadj). unfold knnNeighbor.
  destruct (find_id_Some nodes n.1) as (nodeB & -> & HB & HidB).
  { rewrite Hn. apply list_elem_of_fmap. exists nj. split; [done|].
    by eapply list_elem_of_lookup_2. }
  rewrite Hn in HidB. cbn [mbind option_bind].
  destruct (adjAdd_spec (id nodeA) (id nodeB) (ks_symmetricAdj s))
    as (adj1 & -> & Hold1 & Hmono1 & Hnew1).
  cbn [mbind option_bind].
  destruct (adjAdd_spec (id nodeB) (id nodeA) adj1)
    as (adj2 & -> & Hold2 & Hmono2 & Hnew2).
  cbn [mbind option_bind]. fold (pairKey (id nodeA) (id nodeB)).
  rewrite HidB in *.
  assert (id nodeA ∈ id <$> nodes /\ id nj ∈ id <$> nodes) as [HAin HBin].
  { split; apply list_elem_of_fmap; [exists nodeA | exists nj];
      (split; [done | by eapply list_elem_of_lookup_2]). }
  (* the adjacency after the two insertions *)
  assert (forall keys', ks_uniqueEdgeKeys s ⊆ keys' ->
            pairKey (id nodeA) (id nj) ∈ keys' ->
            forall a sa b, adj2 !! a = Some sa -> b ∈ sa ->
              a ∈ id <$> nodes /\ b ∈ id <$> nodes /\ pairKey a b ∈ keys')
    as Hadj2.
  { intros keys' Hsub Hkey a sa b Ha Hb.
    destruct (Hold2 a sa b Ha Hb) as [[-> ->] | (sa1 & Ha1 & Hb1)].
    { by rewrite pairKey_comm. }
    destruct (Hold1 a sa1 b Ha1 Hb1) as [[-> ->] | (sa0 & Ha0 & Hb0)]; [done|].
    destruct (Hadj a sa0 b Ha0 Hb0) as (? & ? & ?). set_solver. }
  case_bool_decide as Hin.
  - eexists. split; [done|]. cbn [ks_uniqueEdgeKeys].
    split; [|split; [done|done]].
    unfold knnInv. cbn [ks_edges ks_uniqueEdgeKeys ks_symmetricAdj].
    split; [done|]. split; [done|]. split; [done|]. by apply Hadj2.
  - eexists. split; [done|]. cbn [ks_uniqueEdgeKeys].
    split; [|split; [set_solver|set_solver]].
    unfold knnInv. cbn [ks_edges ks_uniqueEdgeKeys ks_symmetricAdj].
    split; [|split; [|split]].
    + rewrite fmap_app, list_to_set_app_L, <- Hset. simpl.
      unfold edgeKeyE, pairKey. simpl. set_solver.
    + rewrite fmap_app. apply NoDup_app. split; [done|]. split.
      * intros k Hk [->|[]%elem_of_nil]%elem_of_cons.
        apply Hin. rewrite Hset. by apply elem_of_list_to_set.
      * apply NoDup_singleton.
    + intros e [He | ->%list_elem_of_singleton]%elem_of_app; [by apply Hedges|].
      cbn [nodeAId nodeBId]. rewrite sortStrings_pair.
      destruct (String.leb (id nodeA) (id nj)) eqn:Hleb; simpl.
      * split; [done|]. by exists i, j, nodeA, nj.
      * split; [destruct (String.leb_total (id nodeA) (id nj)); congruence|].
        by exists j, i, nj, nodeA.
    + apply Hadj2; set_solver.
Qed.

End NeighbourPass.

(** The pairs (node, neighbour) visited by the neighbour pass. *)

Lemma elem_of_knnNeighbors nodes k i nodeA (n : string * R) :
  n ∈ knnNeighbors nodes k i nodeA ->
  exists j nj, i <> j /\ nodes !! j = Some nj /\ n.1 = id nj.
Proof.
  unfold knnNeighbors. intros (p & Hp & _)%elem_of_take.
  apply list_elem_of_lookup_2 in Hp. rewrite sortBy_Permutation in Hp.
  apply list_elem_of_fmap in Hp as (nj & -> & Hnj).
  apply elem_of_filterIndex in Hnj as (j & Hj & Hl).
  apply bool_decide_eq_true_1 in Hj. by exists j, nj.
Qed.

Lemma knnNeighborLoop_spec nodes style k :
  exists s,
    forEachM (fun '(i, nodeA) =>
        forEachM (knnNeighbor nodes style nodeA) (knnNeighbors nodes k i nodeA))
      (imap (fun i nodeA => (i, nodeA)) nodes)
      {| ks_edges := []; ks_uniqueEdgeKeys := ∅; ks_symmetricAdj := ∅ |} = Some s
    /\ knnInv nodes s
    /\ forall i nodeA n, nodes !! i = Some nodeA ->
         n ∈ knnNeighbors nodes k i nodeA ->
         pairKey (id nodeA) n.1 ∈ ks_uniqueEdgeKeys s.
Proof.
  set (body := fun (p : nat * NodeData) => knnNeighbor nodes style p.2).
  set (nbrs := fun (p : nat * NodeData) => knnNeighbors nodes k p.1 p.2).
  rewrite (forEachM_ext _ (fun p => forEachM (body p) (nbrs p)))
    by (by intros [i nodeA] s).
  rewrite forEachM_nested.
  set (L := _ ≫= _).
  destruct (forEachM_prefix (fun done s =>
      knnInv nodes s
      /\ forall x, x ∈ done -> pairKey (id x.1.2) x.2.1 ∈ ks_uniqueEdgeKeys s)
      (fun ab => body ab.1 ab.2) L
      {| ks_edges := []; ks_uniqueEdgeKeys := ∅; ks_symmetricAdj := ∅ |})
    as (s & Hs & Hinv & Hdone).
  - split; [|by intros x Hx%elem_of_nil].
    unfold knnInv. simpl. split; [done|]. split; [constructor|].
    split; [by intros e He%elem_of_nil|].
    intros a sa b Ha. by rewrite lookup_empty in Ha.
  - intros done [[i nodeA] n] rest s HL [Hinv Hdone].
    assert (((i, nodeA), n) ∈ L) as Hin by (rewrite HL; set_solver).
    apply list_elem_of_bind in Hin as ([i' nodeA'] & Hin & Hp).
    apply list_elem_of_bind in Hin as (n' & Hin & Hn).
    apply list_elem_of_singleton in Hin as [= <- <- <-].
    apply elem_of_lookup_imap in Hp as (i'' & nd & [= <- <-] & Hi).
    destruct (elem_of_knnNeighbors _ _ _ _ _ Hn) as (j & nj & Hij & Hj & Hid).
    destruct (knnNeighbor_spec nodes style i j nodeA nj n s Hij Hi Hj Hid Hinv)
      as (s' & Hs' & Hinv' & Hsub & Hkey).
    exists s'. split; [done|]. split; [done|].
    intros x [Hx | ->%list_elem_of_singleton]%elem_of_app.
    + apply Hsub. by apply Hdone.
    + simpl. by rewrite Hid.
  - exists s. split; [done|]. split; [done|].
    intros i nodeA n Hi Hn.
    apply (Hdone ((i, nodeA), n)). unfold L.
    apply list_elem_of_bind. exists (i, nodeA). split.
    + apply list_elem_of_bind. exists n. split; [set_solver|done].
    + apply elem_of_lookup_imap. by exists i, nodeA.
Qed.

(** *** The face pass *)

Lemma sortStrings_triple a b c :
  let l := sortStrings [a; b; c] in
  l = [a; b; c] \/ l = [a; c; b] \/ l = [b; a; c]
  \/ l = [b; c; a] \/ l = [c; a; b] \/ l = [c; b; a].
Proof.
  unfold sortStrings. simpl.
  destruct (String.leb b c); simpl; destruct (String.leb a _); simpl;
    try destruct (String.leb a _); simpl; tauto.
Qed.

Section FacePass.

Variables (nodes : list NodeData) (style : ConnectionStyle) (keys : gset string).

Lemma knnFaceNode_spec idA idB (neighborsA neighborsB : gset string) nodeC fs :
  idA ∈ id <$> nodes -> idB ∈ id <$> nodes -> nodeC ∈ nodes ->
  pairKey idA idB ∈ keys ->
  (forall c, c ∈ neighborsA -> pairKey idA c ∈ keys) ->
  (forall c, c ∈ neighborsB -> pairKey idB c ∈ keys) ->
  knnFacesInv nodes keys fs ->
  exists fs', knnFaceNode nodes style idA idB neighborsA neighborsB nodeC fs
              = Some fs'
    /\ knnFacesInv nodes keys fs'.
Proof.
  intros HA HB HC KAB KA KB Hinv. unfold knnFaceNode.
  assert (id nodeC ∈ id <$> nodes) as HCid
    by (apply list_elem_of_fmap; by exists nodeC).
  destruct (_ && _); [|by exists fs].
  destruct (bool_decide (id nodeC ∈ neighborsA) && _) eqn:Hadj; [|by exists fs].
  apply andb_true_iff in Hadj as [HinA%bool_decide_eq_true_1 HinB%bool_decide_eq_true_1].
  pose proof (KA _ HinA) as KAC. pose proof (KB _ HinB) as KBC.
  cbv zeta. case_bool_decide; [by exists fs|].
  assert (exists x y z, sortStrings [idA; idB; id nodeC] = [x; y; z]
            /\ x ∈ id <$> nodes /\ y ∈ id <$> nodes /\ z ∈ id <$> nodes
            /\ pairKey x y ∈ keys /\ pairKey y z ∈ keys /\ pairKey z x ∈ keys)
    as (x & y & z & -> & Hx & Hy & Hz & Kxy & Kyz & Kzx).
  { pose proof (pairKey_comm idA idB). pose proof (pairKey_comm idA (id nodeC)).
    pose proof (pairKey_comm idB (id nodeC)).
    destruct (sortStrings_triple idA idB (id nodeC))
      as [-> | [-> | [-> | [-> | [-> | ->]]]]];
      eexists _, _, _; (split; [reflexivity|]);
      repeat split; first [done | congruence]. }
  change ([x; y; z] !!! 0%nat) with x. change ([x; y; z] !!! 1%nat) with y.
  change ([x; y; z] !!! 2%nat) with z.
  destruct (find_id_Some nodes x Hx) as (nx & -> & _).
  destruct (find_id_Some nodes y Hy) as (ny & -> & _).
  destruct (find_id_Some nodes z Hz) as (nz & -> & _).
  cbn [mbind option_bind]. eexists. split; [done|].
  intros f [Hf | ->%list_elem_of_singleton]%elem_of_app; [by apply Hinv|].
  simpl. done.
Qed.

Lemma knnFaceEdge_spec (adj : gmap string (gset string)) edge fs :
  nodeAId edge ∈ id <$> nodes -> nodeBId edge ∈ id <$> nodes ->
  pairKey (nodeAId edge) (nodeBId edge) ∈ keys ->
  (forall a sa b, adj !! a = Some sa -> b ∈ sa -> pairKey a b ∈ keys) ->
  knnFacesInv nodes keys fs ->
  exists fs', knnFaceEdge nodes style adj edge fs = Some fs'
    /\ knnFacesInv nodes keys fs'.
Proof.
  intros HA HB KAB Hadj Hinv. unfold knnFaceEdge.
  destruct (adj !! nodeAId edge) as [neighborsA|] eqn:EA; [|by exists fs].
  destruct (adj !! nodeBId edge) as [neighborsB|] eqn:EB; [|by exists fs].
  apply (forEachM_inv (knnFacesInv nodes keys)); [done|].
  intros nodeC fs0 HC Hinv0.
  apply knnFaceNode_spec; try done.
  - intros c Hc. by eapply Hadj.
  - intros c Hc. by eapply Hadj.
Qed.

End FacePass.

(** The neighbour graph never faults; its edges and faces satisfy the
    invariants. *)
Lemma computeNearestNeighborGraph_spec nodes settings :
  exists g s, computeNearestNeighborGraph nodes settings = Some g
    /\ edges g = ks_edges s
    /\ knnInv nodes s
    /\ knnFacesInv nodes (ks_uniqueEdgeKeys s)
         {| fs_faces := faces g; fs_processedFaces := ∅ |}
    /\ forall i nodeA n, nodes !! i = Some nodeA ->
         n ∈ knnNeighbors nodes (effectiveNeighborsOf nodes settings) i nodeA ->
         pairKey (id nodeA) n.1 ∈ ks_uniqueEdgeKeys s.
Proof.
  unfold computeNearestNeighborGraph.
  destruct (knnNeighborLoop_spec nodes (connectionStyle settings)
              (effectiveNeighborsOf nodes settings)) as (s & -> & Hinv & Hkeys).
  cbn [mbind option_bind].
  destruct Hinv as (Hset & Hnodup & Hedges & Hadj).
  destruct (forEachM_inv (knnFacesInv nodes (ks_uniqueEdgeKeys s))
              (knnFaceEdge nodes (connectionStyle settings) (ks_symmetricAdj s))
              (ks_edges s) {| fs_faces := []; fs_processedFaces := ∅ |})
    as (fs & -> & Hfs).
  - by intros f Hf%elem_of_nil.
  - intros e fs0 He Hinv0.
    destruct (Hedges e He) as (Hleb & i & j & ni & nj & Hij & Hi & Hj & HA & HB).
    apply knnFaceEdge_spec; try done.
    + rewrite HA. apply list_elem_of_fmap. exists ni.
      split; [done | by eapply list_elem_of_lookup_2].
    + rewrite HB. apply list_elem_of_fmap. exists nj.
      split; [done | by eapply list_elem_of_lookup_2].
    + rewrite pairKey_leb by done. rewrite Hset.
      apply elem_of_list_to_set, list_elem_of_fmap. by exists e.
    + intros a sa b Ha Hb. by destruct (Hadj a sa b Ha Hb) as (_ & _ & ?).
  - cbn [mbind option_bind]. eexists _, s. split; [done|]. simpl.
    split; [done|]. split; [done|]. split; [|done]. exact Hfs.
Qed.

(** *** Faces and edges, for ids without the separator *)

Lemma knn_key_present nodes s a b :
  Forall (fun nd => dashFree (id nd)) nodes ->
  knnInv nodes s -> a ∈ id <$> nodes -> b ∈ id <$> nodes ->
  pairKey a b ∈ ks_uniqueEdgeKeys s ->
  pairPresent (ks_edges s) a b.
Proof.
  intros Hdash (Hset & _ & Hedges & _) Ha Hb Hkey.
  assert (forall x, x ∈ id <$> nodes -> dashFree x) as Hfree.
  { intros x (nd & -> & Hnd)%list_elem_of_fmap.
    rewrite Forall_forall in Hdash. by apply Hdash. }
  rewrite Hset in Hkey.
  apply KeyProps.elem_of_keys in Hkey as (e & He & Hk).
  destruct (Hedges e He) as (_ & i & j & ni & nj & _ & Hi & Hj & HA & HB).
  destruct (pairKey_sorted a b) as (a' & b' & Hab & _ & Hcases).
  rewrite Hab in Hk. unfold edgeKeyE in Hk.
  apply KeyProps.edgeKeyOf_inj in Hk as [HA' HB'].
  - exists e. split; [done|]. naive_solver.
  - rewrite HA. apply Hfree, list_elem_of_fmap. exists ni.
    split; [done | by eapply list_elem_of_lookup_2].
  - destruct Hcases as [[-> _] | [-> _]]; by apply Hfree.
Qed.

Lemma knn_faces_have_edges nodes settings g f :
  Forall (fun nd => dashFree (id nd)) nodes ->
  computeNearestNeighborGraph nodes settings = Some g ->
  f ∈ faces g -> faceEdgesPresent g f.
Proof.
  intros Hdash Hg Hf.
  destruct (computeNearestNeighborGraph_spec nodes settings)
    as (g' & s & Hg' & He & Hinv & Hfaces & _).
  rewrite Hg in Hg'. injection Hg' as <-.
  specialize (Hfaces f Hf). unfold faceEdgesPresent.
  destruct (nodeIds f) as [[a b] c].
  destruct Hfaces as (Ha & Hb & Hc & Kab & Kbc & Kca).
  rewrite He. repeat split; by apply (knn_key_present nodes).
Qed.

(** *** All neighbours requested *)

Lemma effectiveNeighbors_clamped nodes settings :
  (2 <= List.length nodes)%nat ->
  (1 <= effectiveNeighborsOf nodes settings <= Z.of_nat (List.length nodes) - 1)%Z.
Proof. unfold effectiveNeighborsOf. lia. Qed.

Lemma effectiveNeighbors_all nodes settings :
  (2 <= List.length nodes)%nat ->
  (Z.of_nat (List.length nodes) - 1 <= connectionNeighbors settings)%Z ->
  Z.to_nat (effectiveNeighborsOf nodes settings) = (List.length nodes - 1)%nat.
Proof. unfold effectiveNeighborsOf. lia. Qed.

Lemma filterIndex_keep_all {A} (l : list A) (skip off : nat) :
  (forall j, skip <> (off + j)%nat) ->
  (imap (fun j a => ((off + j)%nat, a)) l
     ≫= fun ja => if bool_decide (skip <> ja.1) then [ja.2] else []) = l.
Proof.
  revert off. induction l as [|a l IH]; intros off Hskip; [done|].
  rewrite imap_cons. cbn [mbind list_bind fst snd].
  rewrite bool_decide_eq_true_2 by apply Hskip. cbn [app]. f_equal.
  rewrite (imap_ext _ (fun j a => ((S off + j)%nat, a)))
    by (intros j b _; simpl; f_equal; lia).
  apply (IH (S off)). intros j. specialize (Hskip (S j)). lia.
Qed.

Lemma filterIndex_offset {A} (l : list A) (i off : nat) :
  (imap (fun j a => ((off + j)%nat, a)) l
     ≫= fun ja => if bool_decide ((off + i)%nat <> ja.1) then [ja.2] else [])
  = delete i l.
Proof.
  revert i off. induction l as [|a l IH]; intros i off; [done|].
  rewrite imap_cons. cbn [mbind list_bind fst snd].
  rewrite (imap_ext _ (fun j a => ((S off + j)%nat, a)))
    by (intros j b _; simpl; f_equal; lia).
  destruct i as [|i].
  - rewrite bool_decide_eq_false_2 by lia. cbn [app].
    apply (filterIndex_keep_all l (off + 0) (S off)). intros j. lia.
  - rewrite bool_decide_eq_true_2 by lia. cbn [app delete list_delete]. f_equal.
    replace (off + S i)%nat with (S off + i)%nat by lia.
    apply (IH i (S off)).
Qed.

Lemma filterIndex_ne {A} (l : list A) i :
  filterIndex (fun j => bool_decide (i <> j)) l = delete i l.
Proof. apply (filterIndex_offset l i 0). Qed.

Lemma knnNeighbors_all nodes k i j ni nj :
  (List.length nodes - 1 <= Z.to_nat k)%nat ->
  i <> j -> nodes !! i = Some ni -> nodes !! j = Some nj ->
  exists d, (id nj, d) ∈ knnNeighbors nodes k i ni.
Proof.
  intros Hk Hij Hi Hj. exists (distanceTo (pos ni) (pos nj)).
  unfold knnNeighbors. rewrite take_ge.
  - rewrite sortBy_Permutation. apply list_elem_of_fmap. exists nj.
    split; [done|]. apply elem_of_filterIndex. exists j.
    split; [by apply bool_decide_eq_true_2 | done].
  - rewrite (Permutation_length (sortBy_Permutation _ _)), length_fmap.
    rewrite filterIndex_ne, length_delete by (by eexists). lia.
Qed.

(** For ids without the separator, asking for all the neighbours gives
    the complete graph. *)
Lemma knn_complete_dashFree nodes settings g :
  Forall (fun nd => dashFree (id nd)) nodes ->
  (2 <= List.length nodes)%nat ->
  (Z.of_nat (List.length nodes) - 1 <= connectionNeighbors settings)%Z ->
  computeNearestNeighborGraph nodes settings = Some g ->
  completeGraph nodes (edges g).
Proof.
  intros Hdash Hn Hk Hg.
  destruct (computeNearestNeighborGraph_spec nodes settings)
    as (g' & s & Hg' & He & Hinv & _ & Hkeys).
  rewrite Hg in Hg'. injection Hg' as <-. rewrite He.
  pose proof Hinv as (Hset & Hnodup & Hedges & _).
  split; [|split].
  - intros i j ni nj Hij Hi Hj.
    destruct (knnNeighbors_all nodes (effectiveNeighborsOf nodes settings)
                i j ni nj) as [d Hd]; try done.
    { rewrite effectiveNeighbors_all by done. lia. }
    apply (knn_key_present nodes); try done.
    + apply list_elem_of_fmap. exists ni.
      split; [done | by eapply list_elem_of_lookup_2].
    + apply list_elem_of_fmap. exists nj.
      split; [done | by eapply list_elem_of_lookup_2].
    + apply (Hkeys i ni (id nj, d) Hi Hd).
  - intros e He'. destruct (Hedges e He') as (_ & H). exact H.
  - intros p q e e' Hp Hq Hids.
    assert (edgeKeyE e = edgeKeyE e') as Hkey.
    { destruct (Hedges e (list_elem_of_lookup_2 _ _ _ Hp)) as (Hle & _).
      destruct (Hedges e' (list_elem_of_lookup_2 _ _ _ Hq)) as (Hle' & _).
      unfold edgeIds, edgeKeyE in *.
      destruct Hids as [[= -> ->] | [= HA HB]]; [done|].
      rewrite HA, HB in Hle.
      pose proof (String.leb_antisym _ _ Hle Hle') as Heq. congruence. }
    eapply NoDup_lookup; [exact Hnodup| |].
    + rewrite list_lookup_fmap, Hp. done.
    + rewrite list_lookup_fmap, Hq. simpl. by rewrite Hkey.
Qed.

(** C5, at the list of four nodes with unique ids of which two contain
    the separator: with all 3 neighbours requested, the edges are not
    those of the complete graph, since the pairs ["a"], ["b-c"] and
    ["a-b"], ["c"] have the same key ["a-b-c"]. *)
Theorem C5_complete_graph_fails :
  (Z.of_nat (List.length Samples.dashedNodes) - 1
     <= connectionNeighbors Samples.knnSettings)%Z
  /\ exists g,
       computeNearestNeighborGraph Samples.dashedNodes Samples.knnSettings = Some g
       /\ ~ (pairPresent (edges g) "a" "b-c" /\ pairPresent (edges g) "a-b" "c")
       /\ ~ completeGraph Samples.dashedNodes (edges g).
Proof.
  split; [unfold Samples.dashedNodes; simpl; lia|].
  destruct (computeNearestNeighborGraph_spec Samples.dashedNodes Samples.knnSettings)
    as (g & s & Hg & He & (Hset & Hnodup & Hedges & _) & _).
  exists g. split; [done|].
  assert (~ (pairPresent (edges g) "a" "b-c" /\ pairPresent (edges g) "a-b" "c"))
    as Hno.
  { rewrite He. intros [(e1 & He1 & H1) (e2 & He2 & H2)].
    destruct (Hedges e1 He1) as (Hle1 & _).
    destruct (Hedges e2 He2) as (Hle2 & _).
    destruct H1 as [[HA1 HB1] | [HA1 HB1]];
      [|rewrite HA1, HB1 in Hle1; by vm_compute in Hle1].
    destruct H2 as [[HA2 HB2] | [HA2 HB2]];
      [|rewrite HA2, HB2 in Hle2; by vm_compute in Hle2].
    apply list_elem_of_lookup_1 in He1 as [p Hp], He2 as [q Hq].
    assert (p = q) as ->.
    { eapply NoDup_lookup; [exact Hnodup| |].
      - rewrite list_lookup_fmap, Hp. done.
      - rewrite list_lookup_fmap, Hq. simpl. unfold edgeKeyE.
        by rewrite HA1, HB1, HA2, HB2. }
    rewrite Hp in Hq. injection Hq as <-. by rewrite HA1 in HA2. }
  split; [done|].
  intros (Hall & _). apply Hno. split.
  - by apply (Hall 0 1 (Samples.node "a" (Samples.vec 1 1 1))
                (Samples.node "b-c" (Samples.vec 1 (-1) (-1))))%nat.
  - by apply (Hall 2 3 (Samples.node "a-b" (Samples.vec (-1) 1 (-1)))
                (Samples.node "c" (Samples.vec (-1) (-1) 1)))%nat.
Qed.

End KnnProps.

(** ** The graph builder as a whole *)

Module GraphProps.
Import Three SkillSphere GraphStatements.

(** In every mode the graph builder returns a graph: no loop reads a
    property of [undefined]. *)
Lemma useGraphData_total nodes settings :
  exists g, useGraphData nodes settings = Some g.
Proof.
  unfold useGraphData. repeat case_bool_decide.
  - by eexists.
  - destruct (HullProps.computeConvexHull_spec nodes (connectionStyle settings))
      as (g & Hg & _). by exists g.
  - destruct (KnnProps.computeNearestNeighborGraph_spec nodes settings)
      as (g & s & Hg & _). by exists g.
Qed.

(** For ids without the separator ["-"], in both modes every face has its
    three pairs of ids among the edges of the same graph. *)
Lemma faces_have_edges nodes settings g f :
  Forall (fun nd => dashFree (id nd)) nodes ->
  useGraphData nodes settings = Some g ->
  f ∈ faces g -> faceEdgesPresent g f.
Proof.
  intros Hdash. unfold useGraphData. repeat case_bool_decide.
  - intros [= <-] Hf. by apply elem_of_nil in Hf.
  - by apply HullProps.hull_faces_have_edges.
  - by apply KnnProps.knn_faces_have_edges.
Qed.

End GraphProps.
(** * Properties of the scene *)

Module SceneProps.
Import Three MathUtils Spherical Types SkillSphere SceneContent SceneStatements.
Import LayoutTable LayoutProps HullProps TessellatorProps.

Lemma lengthSq_getVectorFromSpherical radius phi theta :
  lengthSq (getVectorFromSpherical radius phi theta) = radius * radius.
Proof.
  unfold lengthSq, getVectorFromSpherical. cbn [x y z].
  pose proof (sin2_cos2 phi) as Hp. pose proof (sin2_cos2 theta) as Ht.
  unfold Rsqr in Hp, Ht.
  replace (radius * sin phi * cos theta * (radius * sin phi * cos theta)
           + radius * cos phi * (radius * cos phi)
           + radius * sin phi * sin theta * (radius * sin phi * sin theta))
    with (radius * radius
          * (sin phi * sin phi * (sin theta * sin theta + cos theta * cos theta)
             + cos phi * cos phi)) by ring.
  rewrite Ht, Rmult_1_r, Hp. ring.
Qed.

Lemma length_getVectorFromSpherical radius phi theta :
  Three.length (getVectorFromSpherical radius phi theta) = Rabs radius.
Proof.
  unfold Three.length. rewrite lengthSq_getVectorFromSpherical.
  apply sqrt_Rsqr_abs.
Qed.

Lemma getVectorFromSpherical_sub r1 r2 phi theta :
  subVectors (getVectorFromSpherical r1 phi theta)
    (getVectorFromSpherical r2 phi theta)
  = getVectorFromSpherical (r1 - r2) phi theta.
Proof.
  unfold subVectors, getVectorFromSpherical. cbn [x y z].
  apply Vector3_eq; cbn [x y z]; ring.
Qed.

(** X1: [getVectorFromSpherical] puts the point on the sphere of the
    given radius: its distance to the centre is the absolute value of
    [radius], whatever the two angles; at inclination [0] it is the point
    [(0, radius, 0)] of the vertical axis, whatever the azimuth. *)
Theorem X1_point_on_sphere (radius phi theta : R) :
  Three.length (getVectorFromSpherical radius phi theta) = Rabs radius
  /\ distanceTo (getVectorFromSpherical radius phi theta) zero = Rabs radius
  /\ getVectorFromSpherical radius 0 theta = {| x := 0; y := radius; z := 0 |}.
Proof.
  split; [apply length_getVectorFromSpherical|]. split.
  - unfold distanceTo.
    replace (subVectors (getVectorFromSpherical radius phi theta) zero)
      with (getVectorFromSpherical radius phi theta)
      by (apply Vector3_eq; cbn [x y z subVectors zero]; ring).
    apply length_getVectorFromSpherical.
  - unfold getVectorFromSpherical. rewrite sin_0, cos_0.
    apply Vector3_eq; cbn [x y z]; ring.
Qed.

Lemma getVectorFromSpherical_middle r1 r2 phi theta :
  multiplyScalar
    (addVectors (getVectorFromSpherical r1 phi theta)
       (getVectorFromSpherical r2 phi theta)) 0.5
  = getVectorFromSpherical ((r1 + r2) / 2) phi theta.
Proof.
  unfold multiplyScalar, addVectors, getVectorFromSpherical. cbn [x y z].
  assert (0.5 = 1 / 2) as -> by lra.
  apply Vector3_eq; cbn [x y z]; field.
Qed.

(** X2: the nodes of the scene are the capabilities, in their order,
    with their ids and colours, and the bar of each is radial and as
    long as its score tells: the tip of the node is at the distance
    [|coreRadius + barBaseLength + score * scoreScale|] of the centre,
    its foot at the distance [|coreRadius|], the bar between them has the
    length [|barBaseLength + score * scoreScale|] and its middle at the
    distance [|coreRadius + (barBaseLength + score * scoreScale) / 2|],
    and foot, tip and centre are on one line. *)
Theorem X2_bars_of_nodes (capabilities : list Capability)
    (settings : BarSettings) :
  Forall2
    (fun cap nd =>
       let reach := barBaseLength settings + c_score cap * scoreScale settings in
       id nd = c_id cap /\ color nd = c_color cap
       /\ Three.length (pos nd) = Rabs (coreRadius settings + reach)
       /\ Three.length (surfacePos nd) = Rabs (coreRadius settings)
       /\ SkillBar.barLength (surfacePos nd) (pos nd) = Rabs reach
       /\ Three.length (SkillBar.position (surfacePos nd) (pos nd))
          = Rabs (coreRadius settings + reach / 2)
       /\ crossVectors (surfacePos nd) (pos nd) = zero)
    capabilities (nodes capabilities settings).
Proof.
  unfold nodes. apply Forall2_fmap_r, Forall_Forall2_diag, Forall_forall.
  intros cap _. cbn zeta. unfold compose, nodeOf. cbn [id color pos surfacePos].
  split; [done|]. split; [done|].
  split; [rewrite length_getVectorFromSpherical; f_equal; ring|].
  split; [apply length_getVectorFromSpherical|]. split; [|split].
  - unfold SkillBar.barLength, SkillBar.direction.
    rewrite getVectorFromSpherical_sub, length_getVectorFromSpherical.
    f_equal. ring.
  - unfold SkillBar.position.
    rewrite getVectorFromSpherical_middle, length_getVectorFromSpherical.
    f_equal. field.
  - unfold crossVectors, getVectorFromSpherical, zero. cbn [x y z].
    apply Vector3_eq; cbn [x y z]; ring.
Qed.

Lemma lengthSq_multiplyScalar v s :
  lengthSq (multiplyScalar v s) = s * s * lengthSq v.
Proof. unfold lengthSq, multiplyScalar. cbn [x y z]. ring. Qed.

Lemma length_multiplyScalar v s :
  Three.length (multiplyScalar v s) = Rabs s * Three.length v.
Proof.
  unfold Three.length. rewrite lengthSq_multiplyScalar.
  rewrite sqrt_mult; [|nra|apply lengthSq_nonneg].
  f_equal. apply sqrt_Rsqr_abs.
Qed.

Lemma length_nonneg v : 0 <= Three.length v.
Proof. apply sqrt_pos. Qed.

(** X3: the label of a node is on the ray of its tip, [LABEL_TIP_OFFSET]
    further from the centre; a tip at the centre itself, which has no
    direction, keeps its label at the centre. *)
Theorem X3_label_beyond_tip (tipPosition : Vector3) :
  (0 < Three.length tipPosition ->
     SkillNode.labelPos tipPosition
     = multiplyScalar tipPosition
         (1 + SkillNode.LABEL_TIP_OFFSET / Three.length tipPosition)
     /\ Three.length (SkillNode.labelPos tipPosition)
        = Three.length tipPosition + SkillNode.LABEL_TIP_OFFSET)
  /\ (Three.length tipPosition = 0 ->
        SkillNode.labelPos tipPosition = tipPosition).
Proof.
  split.
  - intros Hpos.
    assert (SkillNode.labelPos tipPosition
            = multiplyScalar tipPosition
                (1 + SkillNode.LABEL_TIP_OFFSET / Three.length tipPosition))
      as Heq.
    { unfold SkillNode.labelPos, normalize, divideScalar.
      destruct (decide (Three.length tipPosition = 0)) as [H0|_]; [lra|].
      unfold addVectors, multiplyScalar. cbn [x y z].
      apply Vector3_eq; cbn [x y z]; field; lra. }
    split; [exact Heq|]. rewrite Heq, length_multiplyScalar.
    unfold SkillNode.LABEL_TIP_OFFSET in *.
    assert (0 < 0.4 / Three.length tipPosition)
      by (apply Rdiv_lt_0_compat; lra).
    rewrite Rabs_pos_eq by lra. field. lra.
  - intros H0. unfold SkillNode.labelPos.
    rewrite (normalize_zero_length _ H0).
    apply Vector3_eq; cbn [x y z addVectors multiplyScalar zero]; ring.
Qed.

Lemma X3_label_beyond_tip_witness :
  0 < Three.length (Samples.vec 0 3 0)
  /\ Three.length (SkillNode.labelPos (Samples.vec 0 3 0))
     = Three.length (Samples.vec 0 3 0) + SkillNode.LABEL_TIP_OFFSET.
Proof.
  assert (0 < Three.length (Samples.vec 0 3 0)) as Hpos.
  { unfold Three.length, lengthSq, Samples.vec. cbn [x y z].
    apply sqrt_lt_R0. lra. }
  split; [exact Hpos|].
  exact (proj2 (proj1 (X3_label_beyond_tip (Samples.vec 0 3 0)) Hpos)).
Defined.

(** X4: whatever the count, every point of the layout has its
    inclination between [0] and [pi] and an azimuth that is not
    negative. *)
Theorem X4_layout_angle_ranges (count : nat) :
  Forall (fun p => 0 <= phi p <= PI /\ 0 <= theta p)
    (distributePointsOnSphere count).
Proof.
  pose proof PI_RGT_0 as Hpi.
  pose proof (acos_bound (-1 / 3)) as Hac.
  destruct (decide (7 <= count)%nat) as [Hbig|Hsmall].
  - rewrite distributePointsOnSphere_spiral by done.
    apply Forall_fmap, Forall_forall. intros i _. cbn [phi theta fibonacciPoint].
    split; [apply acos_bound|apply (spiralAzimuth_nonneg i)].
  - do 7 (destruct count as [|count]; [
      unfold distributePointsOnSphere;
      repeat (apply Forall_cons; split; [cbn [phi theta]; lra|]);
      by apply Forall_nil|]).
    lia.
Qed.

Lemma spiral_cosine (N i : nat) :
  (i < N)%nat -> cos (phi (fibonacciPoint N i)) = 1 - (2 * INR i + 1) / INR N.
Proof.
  intros Hi. cbn [phi fibonacciPoint].
  assert (0 < INR N) as HN by (apply lt_0_INR; lia).
  assert (INR i + 1 <= INR N) as Hle.
  { rewrite <- S_INR. apply le_INR. lia. }
  assert (0 <= INR i) as Hi0 by apply pos_INR.
  replace (2 * (INR i + 0.5)) with (2 * INR i + 1) by lra.
  assert (0 <= (2 * INR i + 1) / INR N <= 2) as Hb.
  { unfold Rdiv.
    assert (0 < / INR N) as Ht by (apply Rinv_0_lt_compat; done).
    assert (INR N * / INR N = 1) as HNt by (apply Rinv_r; lra).
    split; nra. }
  apply cos_acos. lra.
Qed.

(** X5: on the spiral layout ([count >= 7]) the heights of the points,
    at a common radius, go down by equal steps from the top: the point of
    index [i] is at the height [radius * (1 - (2 i + 1) / count)], so that
    points of different indices are at different positions. *)
Theorem X5_spiral_heights (count i j : nat) (radius : R) :
  (7 <= count)%nat -> (i < j < count)%nat -> 0 < radius ->
  exists p q,
    distributePointsOnSphere count !! i = Some p
    /\ distributePointsOnSphere count !! j = Some q
    /\ y (placed radius p) = radius * (1 - (2 * INR i + 1) / INR count)
    /\ y (placed radius q) = radius * (1 - (2 * INR j + 1) / INR count)
    /\ y (placed radius q) < y (placed radius p)
    /\ placed radius p <> placed radius q.
Proof.
  intros HN Hij Hr.
  exists (fibonacciPoint count i), (fibonacciPoint count j).
  rewrite !distributePointsOnSphere_lookup by lia.
  assert (y (placed radius (fibonacciPoint count i))
          = radius * (1 - (2 * INR i + 1) / INR count)) as Hyi.
  { unfold placed, getVectorFromSpherical. cbn [y].
    rewrite spiral_cosine by lia. reflexivity. }
  assert (y (placed radius (fibonacciPoint count j))
          = radius * (1 - (2 * INR j + 1) / INR count)) as Hyj.
  { unfold placed, getVectorFromSpherical. cbn [y].
    rewrite spiral_cosine by lia. reflexivity. }
  assert (y (placed radius (fibonacciPoint count j))
          < y (placed radius (fibonacciPoint count i))) as Hlt.
  { rewrite Hyi, Hyj.
    assert (0 < INR count) as Hc by (apply lt_0_INR; lia).
    assert (INR i < INR j) as Hlt by (apply lt_INR; lia).
    apply Rmult_lt_compat_l; [done|].
    apply Rplus_lt_compat_l, Ropp_lt_contravar.
    apply Rmult_lt_compat_r; [apply Rinv_0_lt_compat; done|lra]. }
  repeat (split; [done|]).
  intros Heq. rewrite Heq in Hlt. lra.
Qed.

Lemma X5_spiral_heights_witness :
  exists p q,
    distributePointsOnSphere 7 !! 0%nat = Some p
    /\ distributePointsOnSphere 7 !! 1%nat = Some q
    /\ y (placed 1 p) = 1 * (1 - (2 * INR 0 + 1) / INR 7)
    /\ y (placed 1 q) = 1 * (1 - (2 * INR 1 + 1) / INR 7)
    /\ y (placed 1 q) < y (placed 1 p)
    /\ placed 1 p <> placed 1 q.
Proof. apply (X5_spiral_heights 7 0 1 1); [lia|lia|lra]. Defined.

Lemma trig_third_turns :
  cos (2 * PI / 3) = -1 / 2 /\ sin (2 * PI / 3) = sqrt 3 / 2
  /\ cos (4 * PI / 3) = -1 / 2 /\ sin (4 * PI / 3) = - (sqrt 3 / 2)
  /\ cos (3 * PI / 2) = 0 /\ sin (3 * PI / 2) = -1.
Proof.
  replace (2 * PI / 3) with (2 * (PI / 3)) by field.
  replace (4 * PI / 3) with (PI / 3 + PI) by field.
  replace (3 * PI / 2) with (3 * (PI / 2)) by field.
  rewrite cos_2PI3, sin_2PI3, neg_cos, neg_sin, cos_PI3, sin_PI3,
    cos_3PI2, sin_3PI2.
  repeat split; lra.
Qed.

(** X6: each of the five shapes used for the counts 2 to 6 (two poles,
    a triangle, a tetrahedron, a bipyramid, an octahedron) is balanced:
    at a common radius, the positions of its points sum to the centre. *)
Theorem X6_small_layouts_balanced (radius : R) :
  Forall (fun count =>
            sumOfPositions radius (distributePointsOnSphere count) = zero)
    [2; 3; 4; 5; 6]%nat.
Proof.
  destruct trig_third_turns as (Hc2 & Hs2 & Hc4 & Hs4 & Hc3 & Hs3).
  assert (cos (acos (-1 / 3)) = -1 / 3) as Hca by (apply cos_acos; lra).
  repeat (apply Forall_cons; split); try (by apply Forall_nil);
    unfold sumOfPositions, distributePointsOnSphere, placed,
      getVectorFromSpherical;
    cbn [fmap list_fmap foldr phi theta];
    rewrite ?Hc2, ?Hs2, ?Hc4, ?Hs4, ?Hc3, ?Hs3, ?Hca,
      ?sin_0, ?cos_0, ?sin_PI, ?cos_PI, ?sin_PI2, ?cos_PI2;
    unfold addVectors, zero; cbn [x y z];
    apply Vector3_eq; cbn [x y z]; field.
Qed.

End SceneProps.

(** * Properties of the handlers of the application *)

Module AppProps.
Import MathUtils Types App AppStatements LayoutProps.

Lemma placedAt_profile cap p : profile (placedAt cap p) = profile cap.
Proof. reflexivity. Qed.

Lemma placedAt_angles cap p : angles (placedAt cap p) = p.
Proof. by destruct p. Qed.

Lemma placedAt_placedAt cap p q : placedAt (placedAt cap p) q = placedAt cap q.
Proof. reflexivity. Qed.

Lemma capability_eq (c c' : Capability) :
  profile c = profile c' -> angles c = angles c' -> c = c'.
Proof.
  destruct c, c'. unfold profile, angles. cbn. intros [= -> -> -> -> -> ->] [= -> ->].
  reflexivity.
Qed.

(** The loop of [updateCapabilitiesLayout] over any list of points that
    is long enough. *)
Lemma layout_loop (caps : list Capability) (points : list SpherePoint) :
  (List.length caps <= List.length points)%nat ->
  mapM (fun ic : nat * Capability =>
          p ← points !! ic.1;
          Some (withAngles ic.2 (phi p) (theta p)))
       (imap (fun index cap => (index, cap)) caps)
  = Some (zip_with placedAt caps points).
Proof.
  intros Hlen. apply mapM_Some.
  apply Forall2_same_length_lookup_2.
  - rewrite length_imap, length_zip_with. lia.
  - intros i [j c] c' Hi Hz.
    rewrite list_lookup_imap in Hi.
    destruct (caps !! i) as [c0|] eqn:Hc; [|done].
    cbn in Hi. injection Hi as <- <-.
    apply lookup_zip_with_Some in Hz as (c1 & p & -> & Hc1 & Hp).
    rewrite Hc in Hc1. injection Hc1 as <-.
    cbn [fst snd]. rewrite Hp. reflexivity.
Qed.

Lemma updateCapabilitiesLayout_zip caps :
  updateCapabilitiesLayout caps
  = Some (zip_with placedAt caps (distributePointsOnSphere (List.length caps))).
Proof.
  unfold updateCapabilitiesLayout. apply layout_loop.
  by rewrite distributePointsOnSphere_length.
Qed.

Lemma zip_placedAt_profile caps points :
  (List.length caps <= List.length points)%nat ->
  profile <$> zip_with placedAt caps points = profile <$> caps.
Proof.
  revert points. induction caps as [|c caps IH]; intros [|p points] Hlen;
    cbn in *; try done; try lia.
  f_equal. apply IH. lia.
Qed.

Lemma zip_placedAt_angles caps points :
  List.length caps = List.length points ->
  angles <$> zip_with placedAt caps points = points.
Proof.
  revert points. induction caps as [|c caps IH]; intros [|p points] Hlen;
    cbn in *; try done.
  rewrite placedAt_angles. f_equal. apply IH. lia.
Qed.

Lemma zip_placedAt_again caps points points' :
  zip_with placedAt (zip_with placedAt caps points') points
  = zip_with placedAt (take (List.length points') caps) points.
Proof.
  revert points points'.
  induction caps as [|c caps IH]; intros points [|p' points']; cbn.
  - by destruct points.
  - by destruct points.
  - by destruct points.
  - destruct points as [|p points]; [done|]. cbn. by rewrite IH.
Qed.

Lemma zip_placedAt_ext caps caps' points :
  profile <$> caps = profile <$> caps' ->
  zip_with placedAt caps points = zip_with placedAt caps' points.
Proof.
  revert caps' points.
  induction caps as [|c caps IH]; intros [|c' caps'] points Heq;
    cbn in *; try done.
  destruct points as [|p points]; [done|]. cbn.
  assert (profile c = profile c' /\ profile <$> caps = profile <$> caps')
    as [Hc Hrest] by (split; congruence).
  f_equal; [|by apply IH].
  apply capability_eq; [by rewrite !placedAt_profile|by rewrite !placedAt_angles].
Qed.

(** X7: laying the capabilities out never faults; it keeps every
    capability, in its place, with all its fields but the two angles;
    the angles become those of [distributePointsOnSphere] for their
    count; and laying out again changes nothing. *)
Theorem X7_layout_update (caps : list Capability) :
  exists updated,
    updateCapabilitiesLayout caps = Some updated
    /\ profile <$> updated = profile <$> caps
    /\ angles <$> updated = distributePointsOnSphere (List.length caps)
    /\ updateCapabilitiesLayout updated = Some updated.
Proof.
  pose proof (distributePointsOnSphere_length (List.length caps)) as Hlen.
  eexists. split; [apply updateCapabilitiesLayout_zip|].
  split; [apply zip_placedAt_profile; lia|].
  split; [apply zip_placedAt_angles; lia|].
  rewrite updateCapabilitiesLayout_zip. f_equal.
  rewrite length_zip_with, Hlen, Nat.min_id.
  rewrite zip_placedAt_again, Hlen. by rewrite firstn_all.
Qed.

Lemma profile_id c c' : profile c = profile c' -> c_id c = c_id c'.
Proof. unfold profile. congruence. Qed.

Lemma filter_id_profile (x : string) (l l' : list Capability) :
  profile <$> l = profile <$> l' ->
  profile <$> filter (fun c => c_id c ≠ x) l
  = profile <$> filter (fun c => c_id c ≠ x) l'.
Proof.
  revert l'. induction l as [|c l IH]; intros [|c' l'] Heq;
    rewrite ?fmap_nil, ?fmap_cons in Heq; try done.
  assert (profile c = profile c' /\ profile <$> l = profile <$> l')
    as [Hc Hrest] by (split; congruence).
  rewrite !filter_cons, (profile_id _ _ Hc).
  destruct (decide (c_id c' ≠ x)).
  - rewrite !fmap_cons, Hc. f_equal. by apply IH.
  - by apply IH.
Qed.

Lemma filter_id_fresh (x : string) (l : list Capability) :
  x ∉ c_id <$> l -> filter (fun c => c_id c ≠ x) l = l.
Proof.
  induction l as [|c l IH]; intros Hx; [done|].
  rewrite fmap_cons, not_elem_of_cons in Hx. destruct Hx as [Hc Hl].
  rewrite filter_cons. destruct (decide (c_id c ≠ x)); [|naive_solver].
  f_equal. by apply IH.
Qed.

Lemma filter_id_absent (x : string) (l : list Capability) :
  x ∉ c_id <$> filter (fun c => c_id c ≠ x) l.
Proof.
  intros Hin. apply list_elem_of_fmap in Hin as (c & -> & Hc).
  apply list_elem_of_filter in Hc as [Hne _]. done.
Qed.

Lemma profile_ids (l l' : list Capability) :
  profile <$> l = profile <$> l' -> c_id <$> l = c_id <$> l'.
Proof.
  intros Heq.
  assert (forall k, c_id <$> k = (fun q => q.1.1.1.1.1) <$> (profile <$> k))
    as Hk by (intros k; rewrite <- list_fmap_compose; reflexivity).
  by rewrite !Hk, Heq.
Qed.

(** X8: adding a capability never faults; it leaves the tasks alone,
    keeps the capabilities there were, in their order, with their names,
    colours and scores, puts the new one behind them with the score [0],
    and gives them all the angles of the layout for one point more. *)
Theorem X8_add_capability (newId name color description criteria : string)
    (st : AppState) :
  exists st',
    handleAddCapability newId name color description criteria st = Some st'
    /\ tasks st' = tasks st
    /\ profile <$> capabilities st'
       = (profile <$> capabilities st)
         ++ [(newId, name, color, 0, Some description, Some criteria)]
    /\ angles <$> capabilities st'
       = distributePointsOnSphere (S (List.length (capabilities st))).
Proof.
  unfold handleAddCapability. rewrite updateCapabilitiesLayout_zip.
  eexists. split; [reflexivity|]. cbn [capabilities tasks].
  split; [reflexivity|].
  rewrite length_app, Nat.add_1_r. cbn [List.length].
  pose proof (distributePointsOnSphere_length
                (S (List.length (capabilities st)))) as Hlen.
  split.
  - rewrite zip_placedAt_profile
      by (rewrite length_app, Hlen; cbn [List.length]; lia).
    by rewrite fmap_app.
  - apply zip_placedAt_angles. rewrite length_app, Hlen. cbn [List.length]. lia.
Qed.

(** X9: removing a capability never faults; it leaves the tasks alone
    (also those that target the capability), removes every capability of
    the id and no other, keeps the names, colours and scores of the
    others, and gives them the angles of the layout for their count.
    Removing a capability right after it was added, under an id no other
    capability has, gives the capabilities there were before, laid out
    again. *)
Theorem X9_remove_capability (id : string) (st : AppState) :
  (exists st',
     handleRemoveCapability id st = Some st'
     /\ tasks st' = tasks st
     /\ profile <$> capabilities st'
        = profile <$> filter (fun c => c_id c ≠ id) (capabilities st)
     /\ (id ∉ c_id <$> capabilities st')
     /\ angles <$> capabilities st'
        = distributePointsOnSphere (List.length (capabilities st')))
  /\ forall name color description criteria,
       id ∉ c_id <$> capabilities st ->
       (handleAddCapability id name color description criteria st
          ≫= handleRemoveCapability id)
       = (updated ← updateCapabilitiesLayout (capabilities st);
          Some {| capabilities := updated; tasks := tasks st |}).
Proof.
  split.
  - unfold handleRemoveCapability. rewrite updateCapabilitiesLayout_zip.
    eexists. split; [reflexivity|]. cbn [capabilities tasks].
    set (kept := filter (fun c => c_id c ≠ id) (capabilities st)).
    pose proof (distributePointsOnSphere_length (List.length kept)) as Hlen.
    assert (profile <$> zip_with placedAt kept
                          (distributePointsOnSphere (List.length kept))
            = profile <$> kept) as Hprof
      by (apply zip_placedAt_profile; lia).
    split; [reflexivity|]. split; [exact Hprof|]. split.
    + rewrite (profile_ids _ _ Hprof). apply filter_id_absent.
    + rewrite length_zip_with, Hlen, Nat.min_id.
      apply zip_placedAt_angles. lia.
  - intros name color description criteria Hfresh.
    unfold handleAddCapability, handleRemoveCapability.
    rewrite !updateCapabilitiesLayout_zip. cbn [mbind option_bind capabilities tasks].
    rewrite updateCapabilitiesLayout_zip. cbn [mbind option_bind].
    do 2 f_equal.
    set (newCap := {| c_id := id; c_name := name;
                      c_color := color; c_score := 0;
                      c_description := Some description;
                      c_criteria := Some criteria;
                      c_phi := 0; c_theta := 0 |}).
    set (added := zip_with placedAt (capabilities st ++ [newCap]) _).
    assert (profile <$> filter (fun c => c_id c ≠ id) added
            = profile <$> capabilities st) as Hprof.
    { rewrite (filter_id_profile id added (capabilities st ++ [newCap])).
      - rewrite filter_app, filter_id_fresh by done.
        rewrite filter_cons. cbn [c_id newCap].
        destruct (decide (id ≠ id)); [done|].
        by rewrite filter_nil, app_nil_r.
      - apply zip_placedAt_profile.
        rewrite distributePointsOnSphere_length. lia. }
    assert (List.length (filter (fun c => c_id c ≠ id) added)
            = List.length (capabilities st)) as Hlen.
    { rewrite <- (length_fmap profile), Hprof. apply length_fmap. }
    rewrite Hlen. by apply zip_placedAt_ext.
Qed.

Lemma X9_remove_capability_witness :
  let st := {| capabilities := []; tasks := [] |} in
  ("a" ∉ c_id <$> capabilities st)
  /\ (handleAddCapability "a" "Strength" "#ef4444" "" "" st
        ≫= handleRemoveCapability "a")
     = (updated ← updateCapabilitiesLayout (capabilities st);
        Some {| capabilities := updated; tasks := tasks st |}).
Proof.
  cbn zeta.
  assert ("a" ∉ c_id <$> capabilities {| capabilities := []; tasks := [] |})
    as Hfresh by (cbn; apply not_elem_of_nil).
  split; [exact Hfresh|].
  exact (proj2 (X9_remove_capability "a" {| capabilities := []; tasks := [] |})
           "Strength" "#ef4444" "" "" Hfresh).
Defined.

(** ** Completing, cancelling and deleting tasks *)

Lemma find_marked (P : Task -> bool) (F : nat -> Task -> Task) l :
  (forall i t, P (F i t) = P t) ->
  match List.find P l with
  | Some t => exists i, List.find P (imap (fun i t => if P t then F i t else t) l)
                        = Some (F i t)
  | None => List.find P (imap (fun i t => if P t then F i t else t) l) = None
  end.
Proof.
  intros HP. revert F HP. induction l as [|t l IH]; intros F HP; [done|].
  cbn [List.find imap].
  destruct (P t) eqn:Ht.
  - rewrite HP, Ht. by exists 0%nat.
  - rewrite Ht. specialize (IH (F ∘ S) (fun i t => HP (S i) t)).
    destruct (List.find P l) as [t'|].
    + destruct IH as [i Hi]. exists (S i). exact Hi.
    + exact IH.
Qed.

Lemma find_filtered (taskId : string) (l : list Task) :
  List.find (fun t => bool_decide (t_id t = taskId))
    (filter (fun t => t_id t ≠ taskId) l) = None.
Proof.
  induction l as [|t l IH]; [done|]. rewrite filter_cons.
  destruct (decide (t_id t ≠ taskId)) as [Hne|Heq]; [|done].
  cbn [List.find]. by rewrite bool_decide_eq_false_2.
Qed.

(** X10: a task is completed at most once: handling the completion of
    the same task id a second time, at any later reading of the clock,
    changes neither the tasks nor the scores. *)
Theorem X10_completed_once (clock clock' : nat -> string) (taskId : string)
    (st : AppState) :
  handleCompleteTask clock' taskId (handleCompleteTask clock taskId st)
  = handleCompleteTask clock taskId st.
Proof.
  unfold handleCompleteTask at 2 3.
  pose proof (find_marked (fun t => bool_decide (t_id t = taskId))
                (fun i t => completed t (clock i)) (tasks st)
                (fun _ _ => eq_refl)) as Hfind.
  destruct (List.find _ (tasks st)) as [task|] eqn:Hf.
  - case_bool_decide as Hstatus.
    + unfold handleCompleteTask. rewrite Hf. by rewrite bool_decide_eq_true_2.
    + destruct Hfind as [i Hi]. unfold handleCompleteTask. cbn [tasks].
      rewrite Hi. cbn [t_status completed].
      by rewrite bool_decide_eq_true_2.
  - unfold handleCompleteTask. by rewrite Hf.
Qed.

(** X11: a task that was cancelled, or deleted, can no longer be
    completed: after either, handling the completion of its id changes
    nothing, so that no score is added for it. *)
Theorem X11_cancel_or_delete_blocks (clock clock' : nat -> string)
    (taskId : string) (st : AppState) :
  handleCompleteTask clock' taskId (handleCancelTask clock taskId st)
  = handleCancelTask clock taskId st
  /\ handleCompleteTask clock' taskId (handleDeleteTask taskId st)
     = handleDeleteTask taskId st.
Proof.
  split.
  - pose proof (find_marked (fun t => bool_decide (t_id t = taskId))
                  (fun i t => canceled t (clock i)) (tasks st)
                  (fun _ _ => eq_refl)) as Hfind.
    unfold handleCompleteTask, handleCancelTask. cbn [tasks].
    destruct (List.find _ (tasks st)) as [task|].
    + destruct Hfind as [i ->]. cbn [t_status canceled].
      by rewrite bool_decide_eq_true_2.
    + by rewrite Hfind.
  - unfold handleCompleteTask, handleDeleteTask. cbn [tasks].
    by rewrite find_filtered.
Qed.

End AppProps.

(** * Properties of the form of a new task *)

Module FormProps.
Import Types TaskList FormStatements App AppStatements.

Lemma clamp_inRange v : inRange (Rmin 99 (Rmax 1 v)).
Proof.
  unfold inRange, Rmin, Rmax.
  destruct (Rle_dec 1 v); destruct (Rle_dec 99 _); lra.
Qed.

Lemma list_to_set_filter_ne (id : string) (l : list string) :
  list_to_set (filter (fun c => c ≠ id) l) =@{gset string} list_to_set l ∖ {[ id ]}.
Proof.
  apply set_eq. intros x.
  rewrite elem_of_difference, !elem_of_list_to_set, list_elem_of_filter,
    elem_of_singleton.
  tauto.
Qed.

Lemma filter_ne_fresh (id : string) (l : list string) :
  id ∉ l -> filter (fun c => c ≠ id) l = l.
Proof.
  induction l as [|c l IH]; intros Hx; [done|].
  rewrite not_elem_of_cons in Hx. destruct Hx as [Hc Hl].
  rewrite filter_cons. destruct (decide (c ≠ id)); [|naive_solver].
  f_equal. by apply IH.
Qed.

Lemma toggleCapSelection_inv capabilities id st :
  id ∈ c_id <$> capabilities ->
  formInv capabilities st -> formInv capabilities (toggleCapSelection id st).
Proof.
  intros Hknown (Hnd & Hsel & Hdom & Hval & Himp).
  unfold toggleCapSelection. case_bool_decide as Hin.
  - split; [by apply NoDup_filter|]. split.
    { intros x Hx. apply list_elem_of_filter in Hx as [_ Hx]. by apply Hsel. }
    split; [|split; [|done]]; cbn [impactMap setSelection selectedCapIds].
    + by rewrite dom_delete_L, Hdom, list_to_set_filter_ne.
    + by apply map_Forall_delete.
  - split.
    { cbn [selectedCapIds setSelection]. apply NoDup_app. split; [done|].
      split; [|apply NoDup_singleton].
      intros x Hx Hx'. apply list_elem_of_singleton in Hx' as ->. done. }
    split.
    { intros x Hx. cbn [selectedCapIds setSelection] in Hx.
      apply elem_of_app in Hx as [Hx|Hx]; [by apply Hsel|].
      by apply list_elem_of_singleton in Hx as ->. }
    split; [|split; [|done]]; cbn [impactMap setSelection selectedCapIds].
    + rewrite dom_insert_L, Hdom, list_to_set_app_L. cbn. set_solver.
    + apply map_Forall_insert_2; [unfold inRange; lra|done].
Qed.

Lemma updateIndividualImpact_inv capabilities id value st :
  id ∈ selectedCapIds st ->
  formInv capabilities st ->
  formInv capabilities (updateIndividualImpact id value st).
Proof.
  intros Hin (Hnd & Hsel & Hdom & Hval & Himp).
  unfold updateIndividualImpact.
  split; [done|]. split; [done|].
  split; [|split; [|done]]; cbn [impactMap setSelection selectedCapIds].
  - rewrite dom_insert_L, Hdom.
    assert (id ∈ (list_to_set (selectedCapIds st) : gset string))
      by by apply elem_of_list_to_set.
    set_solver.
  - apply map_Forall_insert_2; [apply clamp_inRange|done].
Qed.

Lemma setImpact_inv capabilities v st :
  inRange v -> formInv capabilities st -> formInv capabilities (setImpact st v).
Proof.
  intros Hv (Hnd & Hsel & Hdom & Hval & Himp).
  split; [done|]. split; [done|]. split; [done|]. split; done.
Qed.

Lemma initialForm_inv capabilities : formInv capabilities initialForm.
Proof.
  split; [apply NoDup_nil_2|]. split; [by intros x Hx%elem_of_nil|].
  split; [cbn; by rewrite dom_empty_L|].
  split; [apply map_Forall_empty|]. unfold inRange. cbn. lra.
Qed.

Section WithForm.

Variable trim : string -> string.
Variable capabilities : list Capability.

Lemma handleSubmit_inv st :
  formInv capabilities st -> formInv capabilities (handleSubmit trim st).2.
Proof.
  intros Hinv. unfold handleSubmit.
  destruct (_ || _); [done|]. apply initialForm_inv.
Qed.

Lemma reachable_formInv st :
  reachable trim capabilities st -> formInv capabilities st.
Proof.
  induction 1 as [|st ev Hreach IH Hrend]; [apply initialForm_inv|].
  pose proof IH as (Hnd & Hsel & Hdom & Hval & Himp).
  destruct ev as [|text|id| | | |parsed| |id|id parsed|id|];
    cbn [handle snd]; cbn [rendered] in Hrend;
    repeat (apply andb_prop in Hrend as [Hrend ?]);
    repeat match goal with
           | H : bool_decide _ = true |- _ => apply bool_decide_eq_true in H
           | H : known _ _ = true |- _ => apply bool_decide_eq_true in H
           end;
    try done.
  - by apply toggleCapSelection_inv.
  - apply setImpact_inv; [|done]. unfold inRange in *. unfold Rmax.
    destruct (Rle_dec _ _); lra.
  - apply setImpact_inv; [apply clamp_inRange|done].
  - apply setImpact_inv; [|done]. unfold inRange in *. unfold Rmin.
    destruct (Rle_dec _ _); lra.
  - by apply updateIndividualImpact_inv.
  - by apply updateIndividualImpact_inv.
  - by apply updateIndividualImpact_inv.
  - by apply handleSubmit_inv.
Qed.

Lemma toggleCapSelection_core id st :
  formCore st -> formCore (toggleCapSelection id st).
Proof.
  intros (Hnd & Hdom & Hval & Himp).
  unfold toggleCapSelection. case_bool_decide as Hin.
  - split; [by apply NoDup_filter|].
    split; [|split; [|done]]; cbn [impactMap setSelection selectedCapIds].
    + by rewrite dom_delete_L, Hdom, list_to_set_filter_ne.
    + by apply map_Forall_delete.
  - split.
    { cbn [selectedCapIds setSelection]. apply NoDup_app. split; [done|].
      split; [|apply NoDup_singleton].
      intros x Hx Hx'. apply list_elem_of_singleton in Hx' as ->. done. }
    split; [|split; [|done]]; cbn [impactMap setSelection selectedCapIds].
    + rewrite dom_insert_L, Hdom, list_to_set_app_L. cbn. set_solver.
    + apply map_Forall_insert_2; [unfold inRange; lra|done].
Qed.

Lemma updateIndividualImpact_core id value st :
  id ∈ selectedCapIds st ->
  formCore st -> formCore (updateIndividualImpact id value st).
Proof.
  intros Hin (Hnd & Hdom & Hval & Himp).
  unfold updateIndividualImpact. split; [done|].
  split; [|split; [|done]]; cbn [impactMap setSelection selectedCapIds].
  - rewrite dom_insert_L, Hdom.
    assert (id ∈ (list_to_set (selectedCapIds st) : gset string))
      by by apply elem_of_list_to_set.
    set_solver.
  - apply map_Forall_insert_2; [apply clamp_inRange|done].
Qed.

Lemma setImpact_core v st :
  inRange v -> formCore st -> formCore (setImpact st v).
Proof.
  intros Hv (Hnd & Hdom & Hval & Himp).
  split; [done|]. split; [done|]. split; done.
Qed.

Lemma initialForm_core : formCore initialForm.
Proof.
  split; [apply NoDup_nil_2|]. split; [cbn; by rewrite dom_empty_L|].
  split; [apply map_Forall_empty|]. unfold inRange. cbn. lra.
Qed.

Lemma reachableWithChanges_core shown st :
  reachableWithChanges trim shown st -> formCore st.
Proof.
  induction 1 as [|caps shown st ev Hreach IH Hrend]; [apply initialForm_core|].
  pose proof IH as (Hnd & Hdom & Hval & Himp).
  destruct ev as [|text|id| | | |parsed| |id|id parsed|id|];
    cbn [handle snd]; cbn [rendered] in Hrend;
    repeat (apply andb_prop in Hrend as [Hrend ?]);
    repeat match goal with
           | H : bool_decide _ = true |- _ => apply bool_decide_eq_true in H
           end;
    try done.
  - by apply toggleCapSelection_core.
  - apply setImpact_core; [|done]. unfold inRange in *. unfold Rmax.
    destruct (Rle_dec _ _); lra.
  - apply setImpact_core; [apply clamp_inRange|done].
  - apply setImpact_core; [|done]. unfold inRange in *. unfold Rmin.
    destruct (Rle_dec _ _); lra.
  - by apply updateIndividualImpact_core.
  - by apply updateIndividualImpact_core.
  - by apply updateIndividualImpact_core.
  - unfold handleSubmit. destruct (_ || _); [done|]. apply initialForm_core.
Qed.

(** An id selected after an event was selected before it, or is the id
    of a capability the form was rendered with at the event. *)
Lemma handle_selected caps st ev id :
  rendered caps st ev = true ->
  id ∈ selectedCapIds (handle trim ev st).2 ->
  id ∈ selectedCapIds st \/ id ∈ c_id <$> caps.
Proof.
  intros Hrend Hid.
  destruct ev as [|text|id0| | | |parsed| |id0|id0 parsed|id0|];
    cbn [handle snd] in Hid; try (by left).
  - cbn [rendered] in Hrend. apply andb_prop in Hrend as [_ Hknown].
    apply bool_decide_eq_true in Hknown.
    unfold toggleCapSelection in Hid. case_bool_decide as Hin;
      cbn [selectedCapIds setSelection] in Hid.
    + apply list_elem_of_filter in Hid as [_ Hid]. by left.
    + apply elem_of_app in Hid as [Hid|Hid]; [by left|].
      apply list_elem_of_singleton in Hid as ->. by right.
  - unfold handleSubmit in Hid. destruct (_ || _); [by left|].
    cbn in Hid. by apply elem_of_nil in Hid.
Qed.

Lemma reachableWithChanges_shown shown st id :
  reachableWithChanges trim shown st ->
  id ∈ selectedCapIds st -> id ∈ c_id <$> shown.
Proof.
  intros Hreach. revert id.
  induction Hreach as [|caps shown st ev Hreach IH Hrend]; intros id Hid.
  - cbn in Hid. by apply elem_of_nil in Hid.
  - rewrite fmap_app. apply elem_of_app.
    destruct (handle_selected caps st ev id Hrend Hid) as [Hold|Hnew].
    + right. by apply IH.
    + by left.
Qed.

(** A trace under one list of capabilities is a trace under lists that
    may change. *)
Lemma reachable_with_changes st :
  reachable trim capabilities st ->
  exists shown, reachableWithChanges trim shown st.
Proof.
  induction 1 as [|st ev Hreach [shown IH] Hrend];
    [exists []; apply changes_initial|].
  exists (capabilities ++ shown). by apply changes_step.
Qed.

(** X12: in every state the form can reach from its initial state by
    events on the controls it shows, whatever the capabilities it is
    rendered with at each event (the list may change while the form is
    open, and the form keeps its state), no id is selected twice, every
    selected id is the id of a capability the form was rendered with at
    one of the events (which may since have been removed), a custom
    impact is kept for each selected id and for no other, and the
    uniform impact and all custom impacts are between 1 and 99. *)
Theorem X12_form_invariant (shown : list Capability) (st : FormState) :
  reachableWithChanges trim shown st ->
  NoDup (selectedCapIds st)
  /\ (forall id, id ∈ selectedCapIds st -> id ∈ c_id <$> shown)
  /\ (forall id, id ∈ selectedCapIds st <-> is_Some (impactMap st !! id))
  /\ (forall id v, impactMap st !! id = Some v -> 1 <= v <= 99)
  /\ 1 <= impact st <= 99.
Proof.
  intros Hreach. destruct (reachableWithChanges_core shown st Hreach)
    as (Hnd & Hdom & Hval & Himp).
  split; [done|]. split; [|split; [|split; [|done]]].
  - intros id. by apply reachableWithChanges_shown.
  - intros id. rewrite <- elem_of_dom, Hdom, elem_of_list_to_set. done.
  - intros id v Hv. exact (Hval id v Hv).
Qed.

(** The map built by [handleSubmit] in the custom mode. *)
Lemma finalMap_lookup (m : gmap string R) (l : list string)
    (acc : gmap string R) (k : string) :
  foldl (fun acc id => <[id := default 1 (m !! id)]> acc) acc l !! k
  = if decide (k ∈ l) then Some (default 1 (m !! k)) else acc !! k.
Proof.
  revert acc. induction l as [|x l IH]; intros acc; cbn [foldl].
  - destruct (decide (k ∈ [])) as [Hin|_]; [by apply elem_of_nil in Hin|done].
  - rewrite IH. destruct (decide (k ∈ l)) as [Hin|Hnin].
    + rewrite decide_True by (by right). done.
    + destruct (decide (k = x)) as [->|Hne].
      * rewrite decide_True by (by left). by rewrite lookup_insert_eq.
      * rewrite decide_False by (rewrite elem_of_cons; tauto).
        by rewrite lookup_insert_ne.
Qed.

Lemma finalMap_eq (m : gmap string R) (l : list string) :
  dom m =@{gset string} list_to_set l ->
  foldl (fun acc id => <[id := default 1 (m !! id)]> acc) ∅ l = m.
Proof.
  intros Hdom. apply map_eq. intros k. rewrite finalMap_lookup.
  destruct (decide (k ∈ l)) as [Hin|Hnin].
  - assert (k ∈ dom m) as Hk by (rewrite Hdom; by apply elem_of_list_to_set).
    apply elem_of_dom in Hk as [v Hv]. by rewrite Hv.
  - rewrite lookup_empty. symmetry. apply not_elem_of_dom.
    rewrite Hdom, elem_of_list_to_set. done.
Qed.

Lemma handleSubmit_Some st st' sub :
  handleSubmit trim st = (Some sub, st') ->
  st' = initialForm
  /\ trim (newTaskTitle st) <> "" /\ selectedCapIds st <> []
  /\ sub_title sub = newTaskTitle st /\ sub_capIds sub = selectedCapIds st
  /\ sub_impact sub = impact st
  /\ (formInv capabilities st ->
        sub_impactMap sub
        = (if isAdvancedImpact st then Some (impactMap st) else None)).
Proof.
  unfold handleSubmit. intros Hsub.
  destruct (bool_decide (trim (newTaskTitle st) = "")) eqn:Hblank;
    [|destruct (bool_decide (List.length (selectedCapIds st) = 0%nat)) eqn:Hnone];
    cbn [orb] in Hsub; [done|done|]. injection Hsub as <- <-.
  apply bool_decide_eq_false in Hblank, Hnone.
  cbn [sub_title sub_capIds sub_impact sub_impactMap].
  split; [done|]. split; [done|].
  split; [by intros Heq; rewrite Heq in Hnone|].
  split; [done|]. split; [done|]. split; [done|].
  intros (Hnd & Hsel & Hdom & Hval & Himp).
  destruct (isAdvancedImpact st); [|done]. by rewrite finalMap_eq.
Qed.

Lemma handleSubmit_None st st' :
  handleSubmit trim st = (None, st') ->
  st' = st /\ (trim (newTaskTitle st) = "" \/ selectedCapIds st = []).
Proof.
  unfold handleSubmit. intros Hsub.
  destruct (bool_decide (trim (newTaskTitle st) = "")) eqn:Hblank;
    [|destruct (bool_decide (List.length (selectedCapIds st) = 0%nat)) eqn:Hnone];
    cbn [orb] in Hsub; [| |done]; injection Hsub as <-.
  - split; [done|]. left. by apply bool_decide_eq_true in Hblank.
  - split; [done|]. right. apply bool_decide_eq_true in Hnone.
    by apply length_zero_iff_nil.
Qed.

(** X13: what the form submits.  A submission is made only with a title
    that is not blank and at least one selected capability, and it
    resets the form; otherwise nothing is submitted and the form stays
    as it is.  From a reachable state, the submitted targets have no
    duplicate, the submitted impact is between 1 and 99, and the
    submitted map is absent in the uniform mode and, in the custom mode,
    exactly the map of custom impacts, with one value between 1 and 99
    for each target and none for another id. *)
Theorem X13_submission (st st' : FormState) (sub : option Submission) :
  handleSubmit trim st = (sub, st') ->
  match sub with
  | None =>
      st' = st /\ (trim (newTaskTitle st) = "" \/ selectedCapIds st = [])
  | Some sub =>
      st' = initialForm
      /\ trim (sub_title sub) <> "" /\ sub_capIds sub <> []
      /\ sub_title sub = newTaskTitle st /\ sub_capIds sub = selectedCapIds st
      /\ sub_impact sub = impact st
      /\ (reachable trim capabilities st ->
            NoDup (sub_capIds sub)
            /\ 1 <= sub_impact sub <= 99
            /\ sub_impactMap sub
               = (if isAdvancedImpact st then Some (impactMap st) else None)
            /\ forall m, sub_impactMap sub = Some m ->
                 forall id, id ∈ sub_capIds sub <->
                            exists v, m !! id = Some v /\ 1 <= v <= 99)
  end.
Proof.
  intros Hsub. destruct sub as [sub|]; [|by apply handleSubmit_None].
  destruct (handleSubmit_Some st st' sub Hsub)
    as (Hst' & Htitle & Hsel' & Ht & Hids & Himpact & Hmap).
  split; [done|]. rewrite Ht, Hids, Himpact.
  split; [done|]. split; [done|]. split; [done|]. split; [done|]. split; [done|].
  intros Hreach.
  pose proof (reachable_formInv st Hreach) as Hinv.
  rewrite (Hmap Hinv).
  destruct Hinv as (Hnd & Hsel & Hdom & Hval & Himp).
  split; [done|]. split; [done|]. split; [done|]. intros m Hm id.
  destruct (isAdvancedImpact st); [|done]. injection Hm as <-.
  rewrite <- (elem_of_list_to_set (C := gset string)), <- Hdom, elem_of_dom.
  split.
  - intros [v Hv]. exists v. split; [done|]. exact (Hval id v Hv).
  - intros (v & Hv & _). by exists v.
Qed.

(** X14: a task filed through the form and then completed raises the
    score of each capability it targets by what the form showed for it
    (its custom impact in the custom mode, the uniform impact
    otherwise), which is between 1 and 99, and changes no other score
    and nothing else of a capability; this whatever other tasks there
    are, also when one of them has the id of the new task. *)
Theorem X14_filed_task_scores (st st' : FormState) (sub : Submission)
    (newId now : string) (clock : nat -> string) (app : AppState) :
  reachable trim capabilities st ->
  handleSubmit trim st = (Some sub, st') ->
  let filed := handleAddTask newId now (sub_title sub) (sub_capIds sub)
                 (Some (sub_impact sub)) (sub_impactMap sub) app in
  let done_ := handleCompleteTask clock newId filed in
  App.capabilities done_
  = (fun cap => withScore cap
                  (scoreAfter (selectedCapIds st) (worth st) cap))
      <$> App.capabilities app
  /\ forall id, id ∈ selectedCapIds st -> 1 <= worth st id <= 99.
Proof.
  intros Hreach Hsub. cbn zeta.
  pose proof (reachable_formInv st Hreach) as Hinv.
  destruct (handleSubmit_Some st st' sub Hsub)
    as (_ & _ & _ & _ & Hids & Himpact & Hmap).
  specialize (Hmap Hinv).
  destruct Hinv as (Hnd & Hsel & Hdom & Hval & Himp).
  split.
  - unfold handleCompleteTask, handleAddTask. cbn [App.tasks List.find t_id].
    rewrite bool_decide_eq_true_2 by done.
    cbn [t_status]. rewrite bool_decide_eq_false_2 by (by intros []).
    cbn [App.capabilities t_capabilityIds]. rewrite Hids.
    apply list_fmap_ext. intros _ cap _. unfold scoreAfter.
    case_bool_decide as Hin; [|by destruct cap].
    f_equal. f_equal. unfold impactFor, worth.
    cbn [t_impact t_impactMap]. rewrite Hmap, Himpact.
    by destruct (isAdvancedImpact st).
  - intros id Hin. unfold worth. destruct (isAdvancedImpact st); [|done].
    assert (id ∈ dom (impactMap st)) as Hk
      by (rewrite Hdom; by apply elem_of_list_to_set).
    apply elem_of_dom in Hk as [v Hv]. rewrite Hv. exact (Hval id v Hv).
Qed.

End WithForm.

Lemma toggle_selected id st :
  id ∈ selectedCapIds st ->
  toggleCapSelection id st
  = setSelection st (filter (fun c => c ≠ id) (selectedCapIds st))
      (delete id (impactMap st)).
Proof. intros Hin. unfold toggleCapSelection. by rewrite bool_decide_eq_true_2. Qed.

Lemma toggle_unselected id st :
  id ∉ selectedCapIds st ->
  toggleCapSelection id st
  = setSelection st (selectedCapIds st ++ [id]) (<[id := 1]> (impactMap st)).
Proof. intros Hin. unfold toggleCapSelection. by rewrite bool_decide_eq_false_2. Qed.

(** X15: selecting a capability and deselecting it at once leaves a
    reachable form as it was; deselecting a selected capability and
    selecting it again moves it behind the other selected ones and
    resets its custom impact to 1. *)
Theorem X15_toggle_twice (trim : string -> string)
    (capabilities : list Capability) (id : string) (st : FormState) :
  (reachable trim capabilities st -> id ∉ selectedCapIds st ->
     toggleCapSelection id (toggleCapSelection id st) = st)
  /\ (id ∈ selectedCapIds st ->
        let st' := toggleCapSelection id (toggleCapSelection id st) in
        selectedCapIds st' = filter (fun c => c ≠ id) (selectedCapIds st) ++ [id]
        /\ impactMap st' !! id = Some 1).
Proof.
  split.
  - intros Hreach Hnin.
    destruct (reachable_formInv trim capabilities st Hreach)
      as (Hnd & Hsel & Hdom & Hval & Himp).
    rewrite (toggle_unselected id st Hnin).
    rewrite toggle_selected
      by (cbn [selectedCapIds setSelection]; apply elem_of_app; right; by left).
    unfold setSelection.
    cbn [newTaskTitle impact isAdding isAdvancedImpact selectedCapIds impactMap].
    rewrite filter_app, filter_cons, decide_False by (by intros ?).
    rewrite filter_nil, app_nil_r.
    rewrite (filter_ne_fresh id (selectedCapIds st)) by done.
    rewrite delete_insert_id
      by (apply not_elem_of_dom; rewrite Hdom, elem_of_list_to_set; done).
    by destruct st.
  - intros Hin. cbn zeta.
    rewrite (toggle_selected id st Hin).
    rewrite toggle_unselected.
    + cbn [selectedCapIds setSelection impactMap].
      split; [done|]. by rewrite lookup_insert_eq.
    + cbn [selectedCapIds setSelection].
      intros Hx. by apply list_elem_of_filter in Hx as [Hne _].
Qed.

Lemma filledForm_reachable :
  reachable AppSamples.keep AppSamples.oneCapability AppSamples.filledForm.
Proof.
  pose proof (reachable_initial AppSamples.keep AppSamples.oneCapability) as H0.
  pose proof (reachable_step _ _ _ ClickAdd H0 eq_refl) as H1.
  pose proof (reachable_step _ _ _ (TypeTitle "run") H1 eq_refl) as H2.
  assert (rendered AppSamples.oneCapability
            (handle AppSamples.keep (TypeTitle "run")
               (handle AppSamples.keep ClickAdd initialForm).2).2
            (ClickCapability "a") = true) as Hrend.
  { cbn [rendered handle snd fst setNewTaskTitle setIsAdding isAdding
         initialForm negb andb].
    apply bool_decide_eq_true_2. apply list_elem_of_fmap.
    exists (AppSamples.capability "a"). split; [done|]. by left. }
  pose proof (reachable_step _ _ _ (ClickCapability "a") H2 Hrend) as H3.
  cbn [handle snd] in H3.
  rewrite toggle_unselected in H3 by apply not_elem_of_nil.
  exact H3.
Qed.

Lemma filledForm_submit :
  handleSubmit AppSamples.keep AppSamples.filledForm
  = (Some AppSamples.filledSubmission, initialForm).
Proof.
  unfold handleSubmit, AppSamples.filledForm, AppSamples.keep.
  cbn [newTaskTitle selectedCapIds List.length isAdvancedImpact impact].
  rewrite !bool_decide_eq_false_2 by done. reflexivity.
Qed.

Lemma staleForm_reachable :
  reachableWithChanges AppSamples.keep
    (AppSamples.oneCapability ++ AppSamples.oneCapability
       ++ AppSamples.oneCapability)
    AppSamples.staleForm.
Proof.
  pose proof (changes_initial AppSamples.keep) as H0.
  pose proof (changes_step _ AppSamples.oneCapability _ _ ClickAdd H0 eq_refl)
    as H1.
  pose proof (changes_step _ AppSamples.oneCapability _ _ (TypeTitle "run")
                H1 eq_refl) as H2.
  assert (rendered AppSamples.oneCapability
            (handle AppSamples.keep (TypeTitle "run")
               (handle AppSamples.keep ClickAdd initialForm).2).2
            (ClickCapability "a") = true) as Hrend.
  { cbn [rendered handle snd fst setNewTaskTitle setIsAdding isAdding
         initialForm negb andb].
    apply bool_decide_eq_true_2. apply list_elem_of_fmap.
    exists (AppSamples.capability "a"). split; [done|]. by left. }
  pose proof (changes_step _ AppSamples.oneCapability _ _ (ClickCapability "a")
                H2 Hrend) as H3.
  cbn [handle snd] in H3.
  rewrite toggle_unselected in H3 by apply not_elem_of_nil.
  pose proof (changes_step _ [] _ _ ClickCustom H3 eq_refl) as H4.
  exact H4.
Qed.

Lemma X12_form_invariant_witness :
  reachableWithChanges AppSamples.keep
    (AppSamples.oneCapability ++ AppSamples.oneCapability
       ++ AppSamples.oneCapability)
    AppSamples.staleForm
  /\ 1 <= impact AppSamples.staleForm <= 99.
Proof.
  split; [exact staleForm_reachable|].
  apply (X12_form_invariant AppSamples.keep _ AppSamples.staleForm
           staleForm_reachable).
Defined.

Lemma X13_submission_witness :
  handleSubmit AppSamples.keep AppSamples.filledForm
  = (Some AppSamples.filledSubmission, initialForm)
  /\ AppSamples.keep (sub_title AppSamples.filledSubmission) <> ""
  /\ sub_capIds AppSamples.filledSubmission <> [].
Proof.
  split; [exact filledForm_submit|].
  pose proof (X13_submission AppSamples.keep AppSamples.oneCapability
                AppSamples.filledForm initialForm
                (Some AppSamples.filledSubmission) filledForm_submit) as H.
  cbn match in H. split; apply H.
Defined.

Lemma X14_filed_task_scores_witness :
  reachable AppSamples.keep AppSamples.oneCapability AppSamples.filledForm
  /\ handleSubmit AppSamples.keep AppSamples.filledForm
     = (Some AppSamples.filledSubmission, initialForm)
  /\ forall id, id ∈ selectedCapIds AppSamples.filledForm ->
       1 <= worth AppSamples.filledForm id <= 99.
Proof.
  split; [exact filledForm_reachable|]. split; [exact filledForm_submit|].
  apply (X14_filed_task_scores AppSamples.keep AppSamples.oneCapability
           AppSamples.filledForm initialForm AppSamples.filledSubmission
           "t1" "2026-01-01" (fun _ => "2026-01-02") AppSamples.emptyApp
           filledForm_reachable filledForm_submit).
Defined.

Lemma X15_toggle_twice_witness :
  (reachable AppSamples.keep AppSamples.oneCapability initialForm
   /\ ("a" ∉ selectedCapIds initialForm)
   /\ toggleCapSelection "a" (toggleCapSelection "a" initialForm) = initialForm)
  /\ ("a" ∈ selectedCapIds AppSamples.filledForm
      /\ impactMap (toggleCapSelection "a"
                      (toggleCapSelection "a" AppSamples.filledForm)) !! "a"
         = Some 1).
Proof.
  split.
  - split; [apply reachable_initial|]. split; [apply not_elem_of_nil|].
    apply (X15_toggle_twice AppSamples.keep AppSamples.oneCapability "a"
             initialForm); [apply reachable_initial|apply not_elem_of_nil].
  - assert ("a" ∈ selectedCapIds AppSamples.filledForm) as Hin by (by left).
    split; [exact Hin|].
    apply (X15_toggle_twice AppSamples.keep AppSamples.oneCapability "a"
             AppSamples.filledForm). exact Hin.
Defined.

End FormProps.

(** * More properties of the graph builder *)

Module GraphMore.
Import Three SkillSphere GraphStatements OrderStatements.
Import KeyProps HullProps KnnProps GraphProps.

Lemma knn_small nodes settings :
  (List.length nodes <= 1)%nat ->
  computeNearestNeighborGraph nodes settings = Some emptyGraph.
Proof.
  intros Hlen. destruct nodes as [|n [|n' l]]; [reflexivity| |cbn in Hlen; lia].
  unfold computeNearestNeighborGraph.
  cbn [imap forEachM]. unfold knnNeighbors.
  rewrite filterIndex_ne. cbn [delete list_delete fmap list_fmap sortBy].
  rewrite take_nil. reflexivity.
Qed.

(** X16: building the graph never faults, whatever the nodes (also with
    repeated ids) and the settings; and it gives the empty graph for the
    style 'none', for fewer than four nodes in hull mode, and for at
    most one node in neighbour mode. *)
Theorem X16_graph_never_faults (nodes : list NodeData)
    (settings : VisualSettings) :
  exists g, useGraphData nodes settings = Some g
    /\ (connectionStyle settings = StyleNone
        \/ (connectionMode settings = Auto /\ (List.length nodes < 4)%nat)
        \/ (connectionMode settings = Fixed /\ (List.length nodes <= 1)%nat) ->
        g = emptyGraph).
Proof.
  destruct (useGraphData_total nodes settings) as [g Hg].
  exists g. split; [done|]. unfold useGraphData in Hg.
  intros [Hnone | [[Hauto Hlen] | [Hfixed Hlen]]].
  - rewrite bool_decide_eq_true_2 in Hg by done. congruence.
  - case_bool_decide; [congruence|].
    rewrite bool_decide_eq_true_2 in Hg by done.
    destruct (computeConvexHull_spec nodes (connectionStyle settings))
      as (g' & Hg' & Hsmall & _).
    rewrite Hg' in Hg. injection Hg as <-. by apply Hsmall.
  - case_bool_decide; [congruence|].
    rewrite bool_decide_eq_false_2 in Hg by (rewrite Hfixed; done).
    rewrite knn_small in Hg by done. congruence.
Qed.

(** X17: the faces of the hull are the supporting triangles: with at
    least four nodes, a face is returned for the nodes at the indices
    [i < j < k] exactly when all the other nodes that are at a
    significant distance (more than [1e-4]) of the plane through the
    three are on the same side of it; each such triple gives the face of
    its three nodes, in the order of the indices. *)
Theorem X17_hull_faces_support (nodes : list NodeData)
    (style : ConnectionStyle) :
  exists g, computeConvexHull nodes style = Some g
    /\ forall f, f ∈ faces g <->
         (4 <= List.length nodes)%nat
         /\ exists i j k ni nj nk,
              (i < j < k)%nat /\ nodes !! i = Some ni /\ nodes !! j = Some nj
              /\ nodes !! k = Some nk /\ f = hullFace ni nj nk style
              /\ sidesAgree nodes (range 0 (List.length nodes)) i j k (pos ni)
                   (normalOf (pos ni) (pos nj) (pos nk)).
Proof.
  destruct (computeConvexHull_spec nodes style) as (g & Hg & _).
  exists g. split; [done|]. intros f. by apply elem_of_hull_faces.
Qed.

(** X18: every edge of the hull is a side of one of its faces: it joins
    two nodes of the list, the one of smaller index first, carries the
    colour of the first and the control point of the connection style,
    and some returned face has both nodes among its corners. *)
Theorem X18_hull_edges_of_faces (nodes : list NodeData)
    (style : ConnectionStyle) :
  exists g, computeConvexHull nodes style = Some g
    /\ forall e, e ∈ edges g ->
         (exists a b na nb, (a < b)%nat /\ nodes !! a = Some na
            /\ nodes !! b = Some nb
            /\ e = {| e_start := pos na; e_end := pos nb;
                      e_mid := getEdgeControlPoint (pos na) (pos nb) style;
                      e_color := color na;
                      nodeAId := id na; nodeBId := id nb |})
         /\ (exists ni nj nk, hullFace ni nj nk style ∈ faces g
               /\ (e = hullEdge ni nj style \/ e = hullEdge nj nk style
                   \/ e = hullEdge ni nk style)).
Proof.
  destruct (computeConvexHull_spec nodes style) as (g & Hg & Hsmall & Hbig).
  exists g. split; [done|]. intros e He.
  destruct (decide (List.length nodes < 4)%nat) as [Hlt|Hge].
  - rewrite (Hsmall Hlt) in He. by apply elem_of_nil in He.
  - destruct Hbig as (_ & s & [_ Hedges] & _ & Hfrom & Hes & Hfs); [lia|].
    rewrite Hes in He. split; [exact (Hedges e He)|].
    rewrite Hfs. exact (Hfrom e He).
Qed.

(** X19: when no id contains the separator ['-'] of the keys, every face
    of the graph, in hull mode and in neighbour mode, has each of its
    three pairs of ids among the edges of the graph. *)
Theorem X19_faces_have_edges (nodes : list NodeData)
    (settings : VisualSettings) :
  Forall (fun nd => dashFree (id nd)) nodes ->
  exists g, useGraphData nodes settings = Some g
    /\ forall f, f ∈ faces g -> faceEdgesPresent g f.
Proof.
  intros Hdash. destruct (useGraphData_total nodes settings) as [g Hg].
  exists g. split; [done|]. intros f. by apply (faces_have_edges nodes settings).
Qed.

(** X20: in neighbour mode, when no id contains the separator ['-'],
    there are at least two nodes and [connectionNeighbors] is at least
    their number minus one, the edges are those of the complete graph:
    every pair of nodes is an edge, every edge is such a pair, and none
    is repeated. *)
Theorem X20_all_neighbours_complete (nodes : list NodeData)
    (settings : VisualSettings) :
  Forall (fun nd => dashFree (id nd)) nodes ->
  (2 <= List.length nodes)%nat ->
  (Z.of_nat (List.length nodes) - 1 <= connectionNeighbors settings)%Z ->
  exists g, computeNearestNeighborGraph nodes settings = Some g
    /\ completeGraph nodes (edges g).
Proof.
  intros Hdash Hlen Hk.
  destruct (computeNearestNeighborGraph_spec nodes settings) as (g & s & Hg & _).
  exists g. split; [done|]. by apply (knn_complete_dashFree nodes settings).
Qed.

Lemma hull_edge_form nodes style g e :
  computeConvexHull nodes style = Some g -> e ∈ edges g ->
  exists a b na nb, (a < b)%nat /\ nodes !! a = Some na
    /\ nodes !! b = Some nb /\ e = hullEdge na nb style.
Proof.
  intros Hg He.
  destruct (computeConvexHull_spec nodes style) as (g0 & Hg0 & Hsmall & Hbig).
  rewrite Hg in Hg0. injection Hg0 as <-.
  destruct (decide (List.length nodes < 4)%nat) as [Hlt|Hge].
  - rewrite (Hsmall Hlt) in He. by apply elem_of_nil in He.
  - destruct Hbig as (_ & s & [_ Hedges] & _ & _ & Hes & _); [lia|].
    rewrite Hes in He. exact (Hedges e He).
Qed.

Lemma hull_edge_reordered nodes nodes' style g g' e :
  Forall (fun nd => dashFree (id nd)) nodes ->
  NoDup (id <$> nodes) ->
  nodes ≡ₚ nodes' ->
  computeConvexHull nodes style = Some g ->
  computeConvexHull nodes' style = Some g' ->
  e ∈ edges g -> edgeReordered nodes nodes' style g' e.
Proof.
  intros Hdash Hnd Hperm Hg Hg' He.
  assert (NoDup (id <$> nodes')) as Hnd' by (by rewrite <- Hperm).
  destruct (hull_edge_form nodes style g e Hg He)
    as (a & b & na & nb & Hab & Ha & Hb & ->).
  destruct (hull_edges_Permutation nodes nodes' style g g' Hdash Hnd Hperm
              Hg Hg' _ He) as (e' & He' & Hends & _).
  destruct (hull_edge_form nodes' style g' e' Hg' He')
    as (a' & b' & ma & mb & Hab' & Hma & Hmb & ->).
  assert (na ∈ nodes' /\ nb ∈ nodes') as [Hna Hnb].
  { rewrite <- Hperm. split; by eapply list_elem_of_lookup_2. }
  assert (ma ∈ nodes' /\ mb ∈ nodes') as [Hma' Hmb']
    by (split; by eapply list_elem_of_lookup_2).
  unfold edgeEnds, hullEdge in Hends. cbn [nodeAId nodeBId e_start e_end] in Hends.
  exists a, b, na, nb.
  apply Permutation_length_2_inv in Hends as [Heq|Heq].
  - assert (id ma = id na /\ id mb = id nb) as [H1 H2] by (split; congruence).
    pose proof (NoDup_ids_elem_of nodes' ma na Hnd' Hma' Hna H1) as ->.
    pose proof (NoDup_ids_elem_of nodes' mb nb Hnd' Hmb' Hnb H2) as ->.
    exists a', b'. split; [done|]. split; [done|]. split; [done|].
    split; [done|]. split; [done|]. split; [done|]. by left.
  - assert (id ma = id nb /\ id mb = id na) as [H1 H2] by (split; congruence).
    pose proof (NoDup_ids_elem_of nodes' ma nb Hnd' Hma' Hnb H1) as ->.
    pose proof (NoDup_ids_elem_of nodes' mb na Hnd' Hmb' Hna H2) as ->.
    exists b', a'. split; [done|]. split; [done|]. split; [done|].
    split; [done|]. split; [done|]. split; [done|]. by right.
Qed.

(** X21: when the ids are unique and none contains the separator ['-'],
    the hulls of a list and of a reordering of it have the same faces,
    up to the order of the corners of a face, and join the same pairs
    of nodes: an edge of one hull is, in the other, the edge of the same
    two nodes, with the same control point and the same ends, the end
    that comes first in a list being the start of the edge in the hull
    of that list.  In each hull the edge has the colour of its start:
    when the two ends change order, the edge takes the colour of its
    other end. *)
Theorem X21_hull_order_independent (nodes nodes' : list NodeData)
    (style : ConnectionStyle) :
  Forall (fun nd => dashFree (id nd)) nodes ->
  NoDup (id <$> nodes) ->
  nodes ≡ₚ nodes' ->
  exists g g', computeConvexHull nodes style = Some g
    /\ computeConvexHull nodes' style = Some g'
    /\ (facesIncluded g g' /\ facesIncluded g' g)
    /\ (edgesIncluded g g' /\ edgesIncluded g' g)
    /\ (forall e, e ∈ edges g -> edgeReordered nodes nodes' style g' e)
    /\ (forall e, e ∈ edges g' -> edgeReordered nodes' nodes style g e).
Proof.
  intros Hdash Hnd Hperm.
  assert (Forall (fun nd => dashFree (id nd)) nodes') as Hdash'
    by (by rewrite <- Hperm).
  assert (NoDup (id <$> nodes')) as Hnd' by (by rewrite <- Hperm).
  destruct (computeConvexHull_spec nodes style) as (g & Hg & _).
  destruct (computeConvexHull_spec nodes' style) as (g' & Hg' & _).
  exists g, g'. split; [done|]. split; [done|].
  destruct (hull_Permutation nodes nodes' style g g' Hdash Hnd Hperm Hg Hg')
    as [Hfaces Hedges].
  split; [done|]. split; [done|]. split.
  - intros e. by apply hull_edge_reordered.
  - intros e. by apply hull_edge_reordered.
Qed.

Lemma knnNeighbors_nonempty nodes k i ni :
  (2 <= List.length nodes)%nat -> (1 <= k)%Z -> nodes !! i = Some ni ->
  exists n, n ∈ knnNeighbors nodes k i ni.
Proof.
  intros Hlen Hk Hi. unfold knnNeighbors.
  set (l := sortBy _ _).
  assert (List.length l = (List.length nodes - 1)%nat) as Hl.
  { unfold l. rewrite (Permutation_length (sortBy_Permutation _ _)), length_fmap.
    rewrite filterIndex_ne, length_delete by (by eexists). done. }
  destruct l as [|n l']; [cbn in Hl; lia|].
  exists n. destruct (Z.to_nat k) as [|m] eqn:Hm; [lia|]. cbn [take]. by left.
Qed.

(** X22: the edges of the neighbour mode.  Whatever the nodes and the
    settings, every edge joins the ids of two nodes at different places
    of the list, the smaller id first, and no two edges have the same
    key.  When no id contains the separator ['-'] and there are at least
    two nodes, every node has an edge, whatever [connectionNeighbors]
    (a value below 1 counts as 1). *)
Theorem X22_neighbour_edges (nodes : list NodeData)
    (settings : VisualSettings) :
  exists g, computeNearestNeighborGraph nodes settings = Some g
    /\ NoDup (edgeKeyE <$> edges g)
    /\ (forall e, e ∈ edges g ->
          String.leb (nodeAId e) (nodeBId e) = true
          /\ exists i j ni nj, i <> j /\ nodes !! i = Some ni
               /\ nodes !! j = Some nj
               /\ nodeAId e = id ni /\ nodeBId e = id nj)
    /\ (Forall (fun nd => dashFree (id nd)) nodes ->
        (2 <= List.length nodes)%nat ->
        forall nd, nd ∈ nodes ->
          exists other, other ∈ id <$> nodes
            /\ pairPresent (edges g) (id nd) other).
Proof.
  destruct (computeNearestNeighborGraph_spec nodes settings)
    as (g & s & Hg & Hes & Hinv & _ & Hnear).
  exists g. split; [done|]. rewrite Hes.
  pose proof Hinv as (Hkeys & Hnd & Hedges & Hadj).
  split; [done|]. split; [done|].
  intros Hdash Hlen nd Hin.
  apply list_elem_of_lookup_1 in Hin as [i Hi].
  destruct (knnNeighbors_nonempty nodes (effectiveNeighborsOf nodes settings)
              i nd Hlen) as [n Hn]; [unfold effectiveNeighborsOf; lia|done|].
  destruct (elem_of_knnNeighbors _ _ _ _ _ Hn) as (j & nj & Hij & Hj & Hnj).
  exists (id nj).
  assert (id nj ∈ id <$> nodes) as Hjin.
  { apply list_elem_of_fmap. exists nj. split; [done|].
    by apply list_elem_of_lookup_2 with j. }
  split; [done|].
  apply (knn_key_present nodes s); [done|done| |done|].
  - apply list_elem_of_fmap. exists nd. split; [done|].
    by apply list_elem_of_lookup_2 with i.
  - rewrite <- Hnj. by apply (Hnear i nd n).
Qed.

Lemma collinearNodes_dashFree :
  Forall (fun nd => dashFree (id nd)) Samples.collinearNodes.
Proof.
  unfold Samples.collinearNodes.
  repeat (apply Forall_cons; split; [cbn; repeat split; discriminate|]).
  by apply Forall_nil.
Qed.

Lemma collinearNodes_NoDup : NoDup (id <$> Samples.collinearNodes).
Proof.
  unfold Samples.collinearNodes. cbn [fmap list_fmap Samples.node id].
  repeat (apply NoDup_cons_2;
          [rewrite ?not_elem_of_cons; repeat split;
           try discriminate; apply not_elem_of_nil|]).
  apply NoDup_nil_2.
Qed.

Lemma X19_faces_have_edges_witness :
  exists g, useGraphData Samples.collinearNodes Samples.hullSettings = Some g
    /\ forall f, f ∈ faces g -> faceEdgesPresent g f.
Proof.
  exact (X19_faces_have_edges Samples.collinearNodes Samples.hullSettings
           collinearNodes_dashFree).
Defined.

Lemma X20_all_neighbours_complete_witness :
  exists g,
    computeNearestNeighborGraph Samples.collinearNodes Samples.knnSettings = Some g
    /\ completeGraph Samples.collinearNodes (edges g).
Proof.
  apply (X20_all_neighbours_complete Samples.collinearNodes Samples.knnSettings
           collinearNodes_dashFree).
  - unfold Samples.collinearNodes. cbn [List.length]. lia.
  - unfold Samples.collinearNodes, Samples.knnSettings, Samples.settingsOf.
    cbn [List.length connectionNeighbors]. lia.
Defined.

Lemma X21_hull_order_independent_witness :
  exists g g',
    computeConvexHull Samples.collinearNodes Straight = Some g
    /\ computeConvexHull
         [ Samples.node "n1" (Samples.vec 1 0 0);
           Samples.node "n0" (Samples.vec 0 0 0);
           Samples.node "n2" (Samples.vec 2 0 0);
           Samples.node "n3" (Samples.vec 0 1 0) ] Straight = Some g'
    /\ (facesIncluded g g' /\ facesIncluded g' g)
    /\ (edgesIncluded g g' /\ edgesIncluded g' g)
    /\ (forall e, e ∈ edges g ->
          edgeReordered Samples.collinearNodes
            [ Samples.node "n1" (Samples.vec 1 0 0);
              Samples.node "n0" (Samples.vec 0 0 0);
              Samples.node "n2" (Samples.vec 2 0 0);
              Samples.node "n3" (Samples.vec 0 1 0) ] Straight g' e)
    /\ (forall e, e ∈ edges g' ->
          edgeReordered
            [ Samples.node "n1" (Samples.vec 1 0 0);
              Samples.node "n0" (Samples.vec 0 0 0);
              Samples.node "n2" (Samples.vec 2 0 0);
              Samples.node "n3" (Samples.vec 0 1 0) ]
            Samples.collinearNodes Straight g e).
Proof.
  apply (X21_hull_order_independent Samples.collinearNodes _ Straight
           collinearNodes_dashFree collinearNodes_NoDup).
  unfold Samples.collinearNodes. apply perm_swap.
Defined.

End GraphMore.

(** * More properties of the tessellator *)

Module MeshMore.
Import Three SkillSphere TessellatorStatements MeshStatements.
Import TessellatorProps HullProps KnnProps GraphStatements.

Lemma forRange_inv {S : Type} (P : S -> Prop) lo hi
    (body : nat -> S -> S) (s : S) :
  P s ->
  (forall i s, (lo <= i < hi)%nat -> P s -> P (body i s)) ->
  P (forRange lo hi body s).
Proof.
  intros H0 Hstep. unfold forRange.
  assert (forall l s, (forall i, i ∈ l -> (lo <= i < hi)%nat) -> P s ->
            P (foldl (fun s i => body i s) s l)) as H.
  { induction l as [|i l IH]; intros s0 Hl HP; [done|].
    cbn [foldl]. apply IH.
    - intros j Hj. apply Hl. by right.
    - apply Hstep; [apply Hl; by left|done]. }
  apply H; [|done]. intros i Hi. by apply elem_of_range in Hi.
Qed.

Lemma div_nonneg a s : 0 <= a -> 0 < s -> 0 <= a / s.
Proof.
  intros Ha Hs. unfold Rdiv. apply Rmult_le_pos; [done|].
  left. by apply Rinv_0_lt_compat.
Qed.

Section Colours.

Variable parseColor : string -> Color.
Variables lo hi : R.
Hypothesis parseColor_within : forall css, colorWithin lo hi (parseColor css).

Lemma mix_within a b c u v w :
  lo <= a <= hi -> lo <= b <= hi -> lo <= c <= hi ->
  0 <= u -> 0 <= v -> 0 <= w -> u + v + w = 1 ->
  lo <= a * u + b * v + c * w <= hi.
Proof.
  intros Ha Hb Hc Hu Hv Hw Hsum.
  assert (0 <= (a - lo) * u) by (apply Rmult_le_pos; lra).
  assert (0 <= (b - lo) * v) by (apply Rmult_le_pos; lra).
  assert (0 <= (c - lo) * w) by (apply Rmult_le_pos; lra).
  assert (0 <= (hi - a) * u) by (apply Rmult_le_pos; lra).
  assert (0 <= (hi - b) * v) by (apply Rmult_le_pos; lra).
  assert (0 <= (hi - c) * w) by (apply Rmult_le_pos; lra).
  assert (lo * (u + v + w) = lo) as Hlo by (rewrite Hsum; ring).
  assert (hi * (u + v + w) = hi) as Hhi by (rewrite Hsum; ring).
  split; nra.
Qed.

Lemma getColor_within mode sColor C1 C2 C3 u v w :
  colorWithin lo hi sColor -> colorWithin lo hi C1 ->
  colorWithin lo hi C2 -> colorWithin lo hi C3 ->
  0 <= u -> 0 <= v -> 0 <= w -> u + v + w = 1 ->
  colorWithin lo hi (getColor mode sColor C1 C2 C3 u v w).
Proof.
  intros Hs (Hr1 & Hg1 & Hb1) (Hr2 & Hg2 & Hb2) (Hr3 & Hg3 & Hb3) Hu Hv Hw Hsum.
  unfold getColor. case_bool_decide; [|done].
  split; [|split]; cbn [r g b]; by apply mix_within.
Qed.

Lemma pushTriangle_within m p1 p2 p3 c1 c2 c3 :
  bufferWithin lo hi m -> colorWithin lo hi c1 -> colorWithin lo hi c2 ->
  colorWithin lo hi c3 ->
  bufferWithin lo hi (pushTriangle m p1 p2 p3 c1 c2 c3).
Proof.
  intros Hm (Hr1 & Hg1 & Hb1) (Hr2 & Hg2 & Hb2) (Hr3 & Hg3 & Hb3).
  unfold bufferWithin, pushTriangle, rgb. cbn [md_colors].
  apply Forall_app. split; [done|].
  repeat (apply Forall_cons; split; [done|]). by apply Forall_nil.
Qed.

Lemma meshCell_within mode sColor P1 P2 P3 E1 E2 E3 C1 C2 C3 segments i j m :
  (i + j < segments)%nat ->
  colorWithin lo hi sColor -> colorWithin lo hi C1 ->
  colorWithin lo hi C2 -> colorWithin lo hi C3 ->
  bufferWithin lo hi m ->
  bufferWithin lo hi
    (meshCell mode sColor P1 P2 P3 E1 E2 E3 C1 C2 C3 segments i j m).
Proof.
  intros Hij Hs H1 H2 H3 Hm. unfold meshCell.
  assert (0 <= INR i) as Hi by apply pos_INR.
  assert (0 <= INR j) as Hj by apply pos_INR.
  assert (INR i + INR j + 1 <= INR segments) as Hle.
  { rewrite <- plus_INR, <- S_INR. apply le_INR. lia. }
  assert (0 < INR segments) as Hseg by lra.
  assert (forall a b c, 0 <= a -> 0 <= b -> 0 <= c ->
            a + b + c = INR segments ->
            colorWithin lo hi
              (getColor mode sColor C1 C2 C3 (a / INR segments)
                 (b / INR segments) (c / INR segments))) as Hmix.
  { intros a b c Ha Hb Hc Hsum.
    apply getColor_within; try done; try (by apply div_nonneg).
    rewrite <- Hsum. field. lra. }
  assert (bufferWithin lo hi
            (pushTriangle m
               (getPoint P1 P2 P3 E1 E2 E3 (INR i / INR segments)
                  (INR j / INR segments)
                  ((INR segments - INR i - INR j) / INR segments))
               (getPoint P1 P2 P3 E1 E2 E3 ((INR i + 1) / INR segments)
                  (INR j / INR segments)
                  ((INR segments - INR i - INR j - 1) / INR segments))
               (getPoint P1 P2 P3 E1 E2 E3 (INR i / INR segments)
                  ((INR j + 1) / INR segments)
                  ((INR segments - INR i - INR j - 1) / INR segments))
               (getColor mode sColor C1 C2 C3 (INR i / INR segments)
                  (INR j / INR segments)
                  ((INR segments - INR i - INR j) / INR segments))
               (getColor mode sColor C1 C2 C3 ((INR i + 1) / INR segments)
                  (INR j / INR segments)
                  ((INR segments - INR i - INR j - 1) / INR segments))
               (getColor mode sColor C1 C2 C3 (INR i / INR segments)
                  ((INR j + 1) / INR segments)
                  ((INR segments - INR i - INR j - 1) / INR segments))))
    as Hfirst.
  { apply pushTriangle_within; [done|..]; apply Hmix; lra. }
  destruct (i + j + 1 <? segments)%nat eqn:Hlt; [|exact Hfirst].
  apply Nat.ltb_lt in Hlt.
  assert (INR i + INR j + 2 <= INR segments) as Hle2.
  { replace 2 with (1 + 1) by lra. rewrite <- Rplus_assoc.
    rewrite <- plus_INR, <- !S_INR. apply le_INR. lia. }
  apply pushTriangle_within; [exact Hfirst|..]; apply Hmix; lra.
Qed.

Lemma meshFace_within settings sColor face m :
  colorWithin lo hi sColor -> bufferWithin lo hi m ->
  bufferWithin lo hi (meshFace parseColor settings sColor face m).
Proof.
  intros Hs Hm. unfold meshFace.
  destruct (positions face) as [[P1 P2] P3].
  destruct (controlPoints face) as [[E1 E2] E3].
  destruct (colors face) as [[c1 c2] c3].
  case_bool_decide as Hstyle.
  - case_bool_decide; by apply pushTriangle_within.
  - apply forRange_inv; [done|]. intros i m1 Hi Hm1.
    apply forRange_inv; [done|]. intros j m2 Hj Hm2.
    apply meshCell_within; try done. lia.
Qed.

(** X23: the colour buffer stays within the range of the colours: when
    every parsed colour has its three components between [lo] and [hi]
    (a colour of [three] has them between 0 and 1), so has every entry
    of the colour buffer of the mesh, in the three fill modes and for
    flat and curved faces alike. *)
Theorem X23_colours_within (faces : list FaceData)
    (settings : VisualSettings) :
  fillMesh settings = true -> faces <> [] ->
  connectionStyle settings <> StyleNone ->
  exists md, meshData parseColor faces settings = Some md
    /\ Forall (fun c => lo <= c <= hi) (md_colors md).
Proof.
  intros Hfill Hne Hstyle. unfold meshData. rewrite Hfill. cbn [negb orb].
  rewrite bool_decide_eq_false_2 by (by destruct faces).
  rewrite bool_decide_eq_false_2 by done. cbn [orb].
  eexists. split; [reflexivity|].
  set (sColor := parseColor _).
  assert (forall fs m, bufferWithin lo hi m ->
            bufferWithin lo hi
              (foldl (fun m face => meshFace parseColor settings sColor face m)
                 m fs)) as H.
  { induction fs as [|f fs IH]; intros m Hm; [done|].
    cbn [foldl]. apply IH. apply meshFace_within; [|done].
    apply parseColor_within. }
  apply H. apply Forall_nil. done.
Qed.

End Colours.

Lemma forEachM_preserve {A S : Type} (P : S -> Prop)
    (body : A -> S -> option S) l s s' :
  forEachM body l s = Some s' ->
  P s ->
  (forall a s s', body a s = Some s' -> P s -> P s') ->
  P s'.
Proof.
  intros Hrun HP Hstep. revert s HP Hrun.
  induction l as [|a l IH]; intros s HP Hrun.
  - cbn in Hrun. by injection Hrun as <-.
  - cbn [forEachM] in Hrun.
    destruct (body a s) as [s1|] eqn:Hb; [|done]. cbn in Hrun.
    apply (IH s1); [|done]. by apply (Hstep a s).
Qed.

(** One step of a computation that may fault and is known to succeed. *)
Ltac bind_step H :=
  match type of H with
  | (?a ≫= _) = Some _ =>
      destruct a; [cbn [mbind option_bind] in H|discriminate H]
  end.

Lemma knnNeighbor_mid nodes style nodeA n s s' :
  knnNeighbor nodes style nodeA n s = Some s' ->
  (forall e, e ∈ ks_edges s ->
     e_mid e = getEdgeControlPoint (e_start e) (e_end e) style) ->
  forall e, e ∈ ks_edges s' ->
    e_mid e = getEdgeControlPoint (e_start e) (e_end e) style.
Proof.
  unfold knnNeighbor. intros Hrun Hs e He.
  do 3 bind_step Hrun.
  case_bool_decide; injection Hrun as <-; cbn [ks_edges] in He; [by apply Hs|].
  apply elem_of_app in He as [He|He]; [by apply Hs|].
  by apply list_elem_of_singleton in He as ->.
Qed.

Lemma knnFaceNode_controlPoints nodes style idA idB nA nB nodeC fs fs' :
  knnFaceNode nodes style idA idB nA nB nodeC fs = Some fs' ->
  (forall f, f ∈ fs_faces fs -> controlPointsOf style f) ->
  forall f, f ∈ fs_faces fs' -> controlPointsOf style f.
Proof.
  unfold knnFaceNode. intros Hrun Hs f Hf.
  destruct (_ && _); [|injection Hrun as <-; by apply Hs].
  destruct (_ && _); [|injection Hrun as <-; by apply Hs].
  case_bool_decide; [injection Hrun as <-; by apply Hs|].
  do 3 bind_step Hrun.
  injection Hrun as <-. cbn [fs_faces] in Hf.
  apply elem_of_app in Hf as [Hf|Hf]; [by apply Hs|].
  by apply list_elem_of_singleton in Hf as ->.
Qed.

Lemma knn_curves nodes settings g :
  computeNearestNeighborGraph nodes settings = Some g ->
  (forall e, e ∈ edges g ->
     e_mid e = getEdgeControlPoint (e_start e) (e_end e)
                 (connectionStyle settings))
  /\ (forall f, f ∈ faces g -> controlPointsOf (connectionStyle settings) f).
Proof.
  unfold computeNearestNeighborGraph. intros Hrun.
  destruct (forEachM _ (imap _ nodes) _) as [s|] eqn:Hpass1; [|done].
  cbn [mbind option_bind] in Hrun.
  destruct (forEachM _ (ks_edges s) _) as [fs|] eqn:Hpass2; [|done].
  cbn [mbind option_bind] in Hrun. injection Hrun as <-. cbn [edges faces].
  split.
  - apply (forEachM_preserve
             (fun s => forall e, e ∈ ks_edges s ->
                e_mid e = getEdgeControlPoint (e_start e) (e_end e)
                            (connectionStyle settings)) _ _ _ _ Hpass1).
    + intros e He. by apply elem_of_nil in He.
    + intros [i nodeA] s0 s1 Hinner Hs0.
      apply (forEachM_preserve
               (fun s => forall e, e ∈ ks_edges s ->
                  e_mid e = getEdgeControlPoint (e_start e) (e_end e)
                              (connectionStyle settings)) _ _ _ _ Hinner Hs0).
      intros n s2 s3. apply knnNeighbor_mid.
  - apply (forEachM_preserve
             (fun fs => forall f, f ∈ fs_faces fs ->
                controlPointsOf (connectionStyle settings) f) _ _ _ _ Hpass2).
    + intros f Hf. by apply elem_of_nil in Hf.
    + intros edge fs0 fs1. unfold knnFaceEdge.
      destruct (ks_symmetricAdj s !! nodeAId edge) as [nA|];
        [|by intros [= <-]].
      destruct (ks_symmetricAdj s !! nodeBId edge) as [nB|];
        [|by intros [= <-]].
      intros Hinner Hfs0.
      apply (forEachM_preserve
               (fun fs => forall f, f ∈ fs_faces fs ->
                  controlPointsOf (connectionStyle settings) f)
               _ _ _ _ Hinner Hfs0).
      intros nodeC fs2 fs3. apply knnFaceNode_controlPoints.
Qed.

Lemma hull_curves nodes style g :
  computeConvexHull nodes style = Some g ->
  (forall e, e ∈ edges g ->
     e_mid e = getEdgeControlPoint (e_start e) (e_end e) style)
  /\ (forall f, f ∈ faces g -> controlPointsOf style f).
Proof.
  intros Hg. split.
  - intros e He.
    destruct (computeConvexHull_spec nodes style) as (g' & Hg' & Hsmall & Hbig).
    rewrite Hg in Hg'. injection Hg' as <-.
    destruct (decide (List.length nodes < 4)%nat) as [Hlt|Hge].
    + rewrite (Hsmall Hlt) in He. by apply elem_of_nil in He.
    + destruct Hbig as (_ & s & [_ Hedges] & _ & _ & Hes & _); [lia|].
      rewrite Hes in He.
      by destruct (Hedges e He) as (a & b & na & nb & _ & _ & _ & ->).
  - intros f Hf. apply (elem_of_hull_faces nodes style g f Hg) in Hf
      as (_ & i & j & k & ni & nj & nk & _ & _ & _ & _ & -> & _).
    reflexivity.
Qed.

Lemma sideCurve_reverse style a b t :
  sideCurve style a b t = sideCurve style b a (1 - t).
Proof.
  unfold sideCurve. rewrite (getEdgeControlPoint_comm b a).
  unfold quadraticCurve. apply Vector3_eq; cbn [x y z]; ring.
Qed.

Lemma patch_sides style f :
  controlPointsOf style f ->
  let '(P1, P2, P3) := positions f in
  forall t,
    patchPoint f (1 - t) t 0 = sideCurve style P1 P2 t
    /\ patchPoint f 0 (1 - t) t = sideCurve style P2 P3 t
    /\ patchPoint f t 0 (1 - t) = sideCurve style P3 P1 t.
Proof.
  unfold controlPointsOf, patchPoint.
  destruct (positions f) as [[P1 P2] P3]. intros -> t.
  unfold getPoint, sideCurve, quadraticCurve, addScaledVector, zero.
  cbn [x y z].
  split; [|split]; apply Vector3_eq; cbn [x y z]; ring.
Qed.

(** X24: edges and patches fit.  In both modes every edge carries the
    control point of its two ends for the connection style, and every
    face those of its three pairs of corners; so each side of the curved
    patch of a face is the quadratic curve between its two corners with
    that control point, the curve of a connection between the same
    positions, the same in either direction: the patches of two faces
    that share a side meet along it. *)
Theorem X24_patch_sides (nodes : list NodeData) (settings : VisualSettings) :
  let style := connectionStyle settings in
  exists g, useGraphData nodes settings = Some g
    /\ (forall e, e ∈ edges g ->
          e_mid e = getEdgeControlPoint (e_start e) (e_end e) style
          /\ forall t, quadraticCurve (e_start e) (e_mid e) (e_end e) t
                       = sideCurve style (e_start e) (e_end e) t)
    /\ (forall f, f ∈ faces g ->
          controlPointsOf style f
          /\ let '(P1, P2, P3) := positions f in
             forall t,
               patchPoint f (1 - t) t 0 = sideCurve style P1 P2 t
               /\ patchPoint f 0 (1 - t) t = sideCurve style P2 P3 t
               /\ patchPoint f t 0 (1 - t) = sideCurve style P3 P1 t)
    /\ (forall a b t, sideCurve style a b t = sideCurve style b a (1 - t)).
Proof.
  cbn zeta. destruct (GraphProps.useGraphData_total nodes settings) as [g Hg].
  exists g. split; [done|].
  assert ((forall e, e ∈ edges g ->
             e_mid e = getEdgeControlPoint (e_start e) (e_end e)
                         (connectionStyle settings))
          /\ (forall f, f ∈ faces g ->
                controlPointsOf (connectionStyle settings) f)) as [He Hf].
  { unfold useGraphData in Hg.
    case_bool_decide.
    - injection Hg as <-. split; intros ? Hin; by apply elem_of_nil in Hin.
    - case_bool_decide; [by apply (hull_curves nodes)|by apply (knn_curves nodes)]. }
  split; [|split].
  - intros e Hin. split; [by apply He|]. intros t. unfold sideCurve.
    by rewrite <- (He e Hin).
  - intros f Hin. split; [by apply Hf|]. apply patch_sides. by apply Hf.
  - intros a b t. apply sideCurve_reverse.
Qed.

Lemma X23_colours_within_witness :
  exists md,
    meshData Samples.black [Samples.face0]
      (Samples.settingsOf CurveIn Auto 3 Gradient 1) = Some md
    /\ Forall (fun c => 0 <= c <= 1) (md_colors md).
Proof.
  apply (X23_colours_within Samples.black 0 1).
  - intros css. unfold colorWithin, Samples.black. cbn [r g b]. lra.
  - reflexivity.
  - done.
  - done.
Defined.

End MeshMore.

(** * More properties of the label scaler *)

Module LabelMore.
Import LabelScaler LabelScalerProps.

(** X25: the scaler keeps a label readable: for a camera at a positive
    distance, the size of the label on the screen (the font size times
    the scale factor [15 / distance]) is at least [minLabelSize], or at
    least what the largest font size, 1500, gives there; and the font
    size is never below a [labelSize] of at most 1500. *)
Theorem X25_label_readable (distance labelSize minLabelSize : R) :
  0 < distance ->
  let scaleFactor := HTML_DISTANCE_FACTOR / distance in
  Rmin minLabelSize (1500 * scaleFactor)
    <= currentFontSize distance labelSize minLabelSize * scaleFactor
  /\ (labelSize <= 1500 ->
        labelSize <= currentFontSize distance labelSize minLabelSize).
Proof.
  intros Hd. cbn zeta. unfold currentFontSize, HTML_DISTANCE_FACTOR.
  destruct (decide (distance = 0)) as [H0|_]; [lra|].
  assert (0 < 15 / distance) as Hsf by (apply Rdiv_lt_0_compat; lra).
  set (sf := 15 / distance) in *.
  destruct (Rltb (labelSize * sf) minLabelSize) eqn:Hboost.
  - apply Rltb_true in Hboost.
    assert (minLabelSize / sf * sf = minLabelSize) as Hback by (field; lra).
    assert (labelSize < minLabelSize / sf) as Hlt.
    { apply (Rmult_lt_reg_r sf); [done|]. by rewrite Hback. }
    split.
    + unfold Rmin at 2. destruct (Rle_dec 1500 (minLabelSize / sf)).
      * apply Rmin_r.
      * rewrite Hback. apply Rmin_l.
    + intros Hl. unfold Rmin. destruct (Rle_dec _ _); lra.
  - apply Rltb_false in Hboost. split; [|lra].
    etransitivity; [apply Rmin_l|done].
Qed.

Lemma X25_label_readable_witness :
  0 < 100
  /\ Rmin 8 (1500 * (HTML_DISTANCE_FACTOR / 100))
     <= currentFontSize 100 12 8 * (HTML_DISTANCE_FACTOR / 100).
Proof.
  assert (0 < 100) as Hd by lra. split; [exact Hd|].
  exact (proj1 (X25_label_readable 100 12 8 Hd)).
Defined.

End LabelMore.

(** * The colour of the task panel *)

Module PanelProps.
Import App.

Lemma hexDigit_bound c d : hexDigit c = Some d -> (d < 16)%N.
Proof.
  destruct c as [[] [] [] [] [] [] [] []]; vm_compute; intros [= <-]; reflexivity.
Qed.

Lemma hexGroups_bound hex r g b :
  hexGroups hex = Some (r, g, b) -> (r <= 255 /\ g <= 255 /\ b <= 255)%N.
Proof.
  unfold hexGroups.
  set (body := match hex with String "#" rest => rest | _ => hex end).
  destruct body as [|c1 [|c2 [|c3 [|c4 [|c5 [|c6 [|c7 rest]]]]]]]; try done.
  destruct (hexDigit c1) as [d1|] eqn:H1; [|done].
  destruct (hexDigit c2) as [d2|] eqn:H2; [|done].
  destruct (hexDigit c3) as [d3|] eqn:H3; [|done].
  destruct (hexDigit c4) as [d4|] eqn:H4; [|done].
  destruct (hexDigit c5) as [d5|] eqn:H5; [|done].
  destruct (hexDigit c6) as [d6|] eqn:H6; [|done].
  cbn [mbind option_bind]. intros [= <- <- <-].
  apply hexDigit_bound in H1, H2, H3, H4, H5, H6. lia.
Qed.

Lemma hexGroups_length hex rgb :
  hexGroups hex = Some rgb ->
  String.length hex = 6%nat
  \/ exists rest, hex = String "#" rest /\ String.length rest = 6%nat.
Proof.
  unfold hexGroups. intros H.
  assert (forall body,
            match body with
            | String c1 (String c2 (String c3 (String c4 (String c5 (String c6
                EmptyString))))) =>
                d1 ← hexDigit c1; d2 ← hexDigit c2;
                d3 ← hexDigit c3; d4 ← hexDigit c4;
                d5 ← hexDigit c5; d6 ← hexDigit c6;
                Some (16 * d1 + d2, 16 * d3 + d4, 16 * d5 + d6)%N
            | _ => None
            end = Some rgb -> String.length body = 6%nat) as Hsix.
  { intros [|c1 [|c2 [|c3 [|c4 [|c5 [|c6 [|c7 rest]]]]]]]; done. }
  destruct hex as [|c hex']; [done|].
  destruct (decide (c = "#"%char)) as [->|Hne].
  - right. exists hex'. split; [done|]. by apply Hsix.
  - left. apply Hsix.
    destruct c as [[] [] [] [] [] [] [] []]; try done.
Qed.

(** X26: [hexToRgb] always gives three decimal numbers between 0 and
    255, separated by [", "]; a leading ['#'] is optional; and a string
    that is not made of six characters after the optional ['#'] (the
    short form ["#fff"], for one) gives ["0, 0, 0"]. *)
Theorem X26_hexToRgb (hex : string) :
  (exists r g b, (r <= 255 /\ g <= 255 /\ b <= 255)%N
     /\ hexToRgb hex = pretty r +:+ ", " +:+ pretty g +:+ ", " +:+ pretty b)
  /\ (forall c rest, hex = String c rest -> c <> "#"%char ->
        hexToRgb (String "#" hex) = hexToRgb hex)
  /\ (String.length hex <> 6%nat ->
        (forall rest, hex = String "#" rest -> String.length rest <> 6%nat) ->
        hexToRgb hex = "0, 0, 0").
Proof.
  split; [|split].
  - unfold hexToRgb. destruct (hexGroups hex) as [[[r g] b]|] eqn:Hg.
    + exists r, g, b. split; [by apply (hexGroups_bound hex)|done].
    + exists 0%N, 0%N, 0%N. split; [lia|reflexivity].
  - intros c rest -> Hc. unfold hexToRgb, hexGroups.
    destruct c as [[] [] [] [] [] [] [] []]; done.
  - intros Hlen Hrest. unfold hexToRgb.
    destruct (hexGroups hex) as [rgb|] eqn:Hg; [|done].
    destruct (hexGroups_length hex rgb Hg) as [H6|(rest & -> & H6)]; [done|].
    by destruct (Hrest rest eq_refl).
Qed.

Lemma X26_hexToRgb_witness :
  hexToRgb "#18181b" = hexToRgb "18181b"
  /\ hexToRgb "#fff" = "0, 0, 0".
Proof.
  split.
  - apply (proj1 (proj2 (X26_hexToRgb "18181b")) "1"%char "8181b"); done.
  - apply (proj2 (proj2 (X26_hexToRgb "#fff"))).
    + done.
    + intros rest [= <-]. done.
Defined.

End PanelProps.
